(** * Tree manipulation of genesis: a shallow embedding and its properties

    The development follows [lib/genesis/tree/function/manipulation.cpp].
    A tree is three vectors of owning pointers (links, nodes, edges) plus the
    stored index of the root link; the elements themselves live on the free
    store and refer to each other by raw pointer.  The embedding keeps both
    levels apart: addresses are natural numbers, the free store is one finite
    map per element class, and the vectors hold addresses.

    Outcomes of a call:
    - [Ok a s]      normal return of [a] in store [s];
    - [Throw m s]   a C++ exception with message [m], raised in store [s];
    - [Fault]       undefined behaviour (null or dangling dereference,
                    erase past the end, unchecked index out of range);
    - [Diverge]     a loop that used up its fuel.

    [assert] statements are compiled out (NDEBUG) and are not part of the
    embedding; where a property needs what they test, it is a hypothesis. *)

From stdpp Require Import base option list gmap strings sorting.
From Stdlib Require Import Lia.

Set Default Proof Using "Type".

(** ** Data model *)

Definition ptr := nat.
Definition nullptr : ptr := 0.

(** The one capability the engine consumes from a payload type. *)
Class Payload (D : Type) := recreate : D → D.

Record TreeLink := mkLink {
  l_index : nat;
  l_next  : ptr;
  l_outer : ptr;
  l_node  : ptr;
  l_edge  : ptr
}.

Record TreeNode (ND : Type) := mkNode {
  n_index : nat;
  n_link  : ptr;
  n_data  : option ND
}.
Arguments mkNode {ND} _ _ _.
Arguments n_index {ND} _.
Arguments n_link {ND} _.
Arguments n_data {ND} _.

Record TreeEdge (ED : Type) := mkEdge {
  e_index  : nat;
  e_link_p : ptr;
  e_link_s : ptr;
  e_data   : option ED
}.
Arguments mkEdge {ED} _ _ _ _.
Arguments e_index {ED} _.
Arguments e_link_p {ED} _.
Arguments e_link_s {ED} _.
Arguments e_data {ED} _.

(** The tree (three vectors and the root link index) together with the free
    store its elements live in. *)
Record State (ND ED : Type) := mkState {
  links_ : list ptr;
  nodes_ : list ptr;
  edges_ : list ptr;
  root_link_index_ : nat;
  hl : gmap ptr TreeLink;
  hn : gmap ptr (TreeNode ND);
  he : gmap ptr (TreeEdge ED)
}.
Arguments mkState {ND ED} _ _ _ _ _ _ _.
Arguments links_ {ND ED} _.
Arguments nodes_ {ND ED} _.
Arguments edges_ {ND ED} _.
Arguments root_link_index_ {ND ED} _.
Arguments hl {ND ED} _.
Arguments hn {ND ED} _.
Arguments he {ND ED} _.

Inductive result (S A : Type) :=
| Ok (a : A) (s : S)
| Throw (msg : string) (s : S)
| Fault
| Diverge.
Arguments Ok {S A} _ _.
Arguments Throw {S A} _ _.
Arguments Fault {S A}.
Arguments Diverge {S A}.

Declare Scope tree_scope.
Delimit Scope tree_scope with T.

Section Model.
Context {ND ED : Type} {PN : Payload ND} {PE : Payload ED}.

Abbreviation St := (State ND ED).
Definition M (A : Type) := St → result St A.

Definition ret {A} (a : A) : M A := λ s, Ok a s.
Definition bind {A B} (m : M A) (k : A → M B) : M B :=
  λ s, match m s with
       | Ok a s' => k a s'
       | Throw e s' => Throw e s'
       | Fault => Fault
       | Diverge => Diverge
       end.
Definition throw {A} (msg : string) : M A := λ s, Throw msg s.
Definition fault {A} : M A := λ _, Fault.
Definition diverge {A} : M A := λ _, Diverge.
Definition gets {A} (f : St → A) : M A := λ s, Ok (f s) s.
Definition modify (f : St → St) : M unit := λ s, Ok tt (f s).

Notation "x ← m ; k" := (bind m (λ x, k))
  (at level 20, m at level 100, k at level 200, only parsing) : tree_scope.
Notation "m ;; k" := (bind m (λ _, k))
  (at level 100, k at level 200, only parsing, right associativity) : tree_scope.
Local Open Scope tree_scope.

(** *** Field updates of the store *)

Definition set_links (f : list ptr → list ptr) (s : St) : St :=
  mkState (f (links_ s)) (nodes_ s) (edges_ s) (root_link_index_ s) (hl s) (hn s) (he s).
Definition set_nodes (f : list ptr → list ptr) (s : St) : St :=
  mkState (links_ s) (f (nodes_ s)) (edges_ s) (root_link_index_ s) (hl s) (hn s) (he s).
Definition set_edges (f : list ptr → list ptr) (s : St) : St :=
  mkState (links_ s) (nodes_ s) (f (edges_ s)) (root_link_index_ s) (hl s) (hn s) (he s).
Definition set_root (i : nat) (s : St) : St :=
  mkState (links_ s) (nodes_ s) (edges_ s) i (hl s) (hn s) (he s).
Definition set_hl (f : gmap ptr TreeLink → gmap ptr TreeLink) (s : St) : St :=
  mkState (links_ s) (nodes_ s) (edges_ s) (root_link_index_ s) (f (hl s)) (hn s) (he s).
Definition set_hn (f : gmap ptr (TreeNode ND) → gmap ptr (TreeNode ND)) (s : St) : St :=
  mkState (links_ s) (nodes_ s) (edges_ s) (root_link_index_ s) (hl s) (f (hn s)) (he s).
Definition set_he (f : gmap ptr (TreeEdge ED) → gmap ptr (TreeEdge ED)) (s : St) : St :=
  mkState (links_ s) (nodes_ s) (edges_ s) (root_link_index_ s) (hl s) (hn s) (f (he s)).

(** *** Dereferencing: a pointer that is not live is undefined behaviour *)

Definition deref_link (p : ptr) : M TreeLink :=
  λ s, match hl s !! p with Some l => Ok l s | None => Fault end.
Definition deref_node (p : ptr) : M (TreeNode ND) :=
  λ s, match hn s !! p with Some n => Ok n s | None => Fault end.
Definition deref_edge (p : ptr) : M (TreeEdge ED) :=
  λ s, match he s !! p with Some e => Ok e s | None => Fault end.

Definition update_link (p : ptr) (f : TreeLink → TreeLink) : M unit :=
  λ s, match hl s !! p with
       | Some l => Ok tt (set_hl (insert p (f l)) s)
       | None => Fault
       end.
Definition update_node (p : ptr) (f : TreeNode ND → TreeNode ND) : M unit :=
  λ s, match hn s !! p with
       | Some n => Ok tt (set_hn (insert p (f n)) s)
       | None => Fault
       end.
Definition update_edge (p : ptr) (f : TreeEdge ED → TreeEdge ED) : M unit :=
  λ s, match he s !! p with
       | Some e => Ok tt (set_he (insert p (f e)) s)
       | None => Fault
       end.

(** *** TreeLink, TreeNode, TreeEdge accessors and setters *)

Definition link_index (p : ptr) : M nat := l ← deref_link p; ret (l_index l).
Definition link_next  (p : ptr) : M ptr := l ← deref_link p; ret (l_next l).
Definition link_outer (p : ptr) : M ptr := l ← deref_link p; ret (l_outer l).
Definition link_node  (p : ptr) : M ptr := l ← deref_link p; ret (l_node l).
Definition link_edge  (p : ptr) : M ptr := l ← deref_link p; ret (l_edge l).

Definition link_reset_index (p : ptr) (i : nat) : M unit :=
  update_link p (λ l, mkLink i (l_next l) (l_outer l) (l_node l) (l_edge l)).
Definition link_reset_next (p q : ptr) : M unit :=
  update_link p (λ l, mkLink (l_index l) q (l_outer l) (l_node l) (l_edge l)).
Definition link_reset_outer (p q : ptr) : M unit :=
  update_link p (λ l, mkLink (l_index l) (l_next l) q (l_node l) (l_edge l)).
Definition link_reset_node (p q : ptr) : M unit :=
  update_link p (λ l, mkLink (l_index l) (l_next l) (l_outer l) q (l_edge l)).
Definition link_reset_edge (p q : ptr) : M unit :=
  update_link p (λ l, mkLink (l_index l) (l_next l) (l_outer l) (l_node l) q).

Definition node_index (p : ptr) : M nat := n ← deref_node p; ret (n_index n).
(** [link()] and [primary_link()] of a node are the same accessor. *)
Definition node_primary_link (p : ptr) : M ptr := n ← deref_node p; ret (n_link n).
(** [data_ptr()->...]: a null payload pointer is dereferenced unchecked. *)
Definition node_data (p : ptr) : M ND :=
  n ← deref_node p; match n_data n with Some d => ret d | None => fault end.

Definition node_reset_index (p : ptr) (i : nat) : M unit :=
  update_node p (λ n, mkNode i (n_link n) (n_data n)).
Definition node_reset_primary_link (p q : ptr) : M unit :=
  update_node p (λ n, mkNode (n_index n) q (n_data n)).
Definition node_reset_data (p : ptr) (d : ND) : M unit :=
  update_node p (λ n, mkNode (n_index n) (n_link n) (Some d)).

Definition edge_index (p : ptr) : M nat := e ← deref_edge p; ret (e_index e).
Definition edge_primary_link (p : ptr) : M ptr := e ← deref_edge p; ret (e_link_p e).
Definition edge_secondary_link (p : ptr) : M ptr := e ← deref_edge p; ret (e_link_s e).
Definition edge_primary_node (p : ptr) : M ptr := l ← edge_primary_link p; link_node l.
Definition edge_secondary_node (p : ptr) : M ptr := l ← edge_secondary_link p; link_node l.
Definition edge_data (p : ptr) : M ED :=
  e ← deref_edge p; match e_data e with Some d => ret d | None => fault end.

Definition edge_reset_index (p : ptr) (i : nat) : M unit :=
  update_edge p (λ e, mkEdge i (e_link_p e) (e_link_s e) (e_data e)).
Definition edge_reset_primary_link (p q : ptr) : M unit :=
  update_edge p (λ e, mkEdge (e_index e) q (e_link_s e) (e_data e)).
Definition edge_reset_secondary_link (p q : ptr) : M unit :=
  update_edge p (λ e, mkEdge (e_index e) (e_link_p e) q (e_data e)).
Definition edge_reset_data (p : ptr) (d : ED) : M unit :=
  update_edge p (λ e, mkEdge (e_index e) (e_link_p e) (e_link_s e) (Some d)).

(** *** The Tree container *)

Definition link_count : M nat := gets (λ s, length (links_ s)).
Definition node_count : M nat := gets (λ s, length (nodes_ s)).
Definition edge_count : M nat := gets (λ s, length (edges_ s)).

(** Modelled from the spec: the class [Tree] with a stored root link index is
    not among the sources (only an older header is).  Section 4.1 gives
    [link_at], [node_at], [edge_at] as bounds-checked accessors and
    [root_link], [root_node] as resolved through the stored root link index. *)
Definition link_at (i : nat) : M ptr :=
  λ s, match links_ s !! i with Some p => Ok p s | None => Throw "out_of_range" s end.
Definition node_at (i : nat) : M ptr :=
  λ s, match nodes_ s !! i with Some p => Ok p s | None => Throw "out_of_range" s end.
Definition edge_at (i : nat) : M ptr :=
  λ s, match edges_ s !! i with Some p => Ok p s | None => Throw "out_of_range" s end.

Definition root_link : M ptr := i ← gets root_link_index_; link_at i.
Definition root_node : M ptr := l ← root_link; link_node l.
Definition reset_root_link_index (i : nat) : M unit := modify (set_root i).

(** [utils::make_unique<T>()]: a fresh non-null address holding a
    default-constructed element. *)
Definition fresh_ptr {A} (h : gmap ptr A) : ptr := fresh ({[nullptr]} ∪ dom h).

Definition new_link : M ptr :=
  λ s, let p := fresh_ptr (hl s) in
       Ok p (set_hl (insert p (mkLink 0 nullptr nullptr nullptr nullptr)) s).
Definition new_node : M ptr :=
  λ s, let p := fresh_ptr (hn s) in
       Ok p (set_hn (insert p (mkNode 0 nullptr None)) s).
Definition new_edge : M ptr :=
  λ s, let p := fresh_ptr (he s) in
       Ok p (set_he (insert p (mkEdge 0 nullptr nullptr None)) s).

(** [push_back( std::move( u ))] on the three vectors. *)
Definition push_link (p : ptr) : M unit := modify (set_links (λ v, v ++ [p])).
Definition push_node (p : ptr) : M unit := modify (set_nodes (λ v, v ++ [p])).
Definition push_edge (p : ptr) : M unit := modify (set_edges (λ v, v ++ [p])).

(** [v.erase( v.begin() + i )] on a vector of [unique_ptr]: the slot is
    removed and its pointee destroyed. *)
Definition erase_link (i : nat) : M unit :=
  λ s, match links_ s !! i with
       | Some p => Ok tt (set_hl (delete p) (set_links (delete i) s))
       | None => Fault
       end.
Definition erase_node (i : nat) : M unit :=
  λ s, match nodes_ s !! i with
       | Some p => Ok tt (set_hn (delete p) (set_nodes (delete i) s))
       | None => Fault
       end.
Definition erase_edge (i : nat) : M unit :=
  λ s, match edges_ s !! i with
       | Some p => Ok tt (set_he (delete p) (set_edges (delete i) s))
       | None => Fault
       end.

(** A counted [for] loop over [lo <= i < lo + n]. *)
Fixpoint for_range (lo n : nat) (body : nat → M unit) : M unit :=
  match n with
  | 0 => ret tt
  | S n' => body lo;; for_range (S lo) n' body
  end.

(** *** Helpers of the tree library used by the manipulation functions *)

(** Modelled from the spec: [belongs_to] is declared in
    [tree/function/operators.hpp], not among the sources.  An element
    belongs to the tree when the tree stores this very element at the
    element's own index (section 3, "stable index"). *)
Definition belongs_to_link (l : ptr) : M bool :=
  i ← link_index l;
  λ s, Ok (bool_decide (links_ s !! i = Some l)) s.
Definition belongs_to_node (n : ptr) : M bool :=
  i ← node_index n;
  λ s, Ok (bool_decide (nodes_ s !! i = Some n)) s.
Definition belongs_to_edge (e : ptr) : M bool :=
  i ← edge_index e;
  λ s, Ok (bool_decide (edges_ s !! i = Some e)) s.

(** Modelled from the spec: [degree] (glossary: "number of links in a node's
    ring") walks the ring once from the node's link and counts. *)
Fixpoint degree_loop (fuel : nat) (start lnk : ptr) (dgr : nat) : M nat :=
  match fuel with
  | 0 => diverge
  | S f =>
      nx ← link_next lnk;
      if decide (nx = start) then ret (S dgr) else degree_loop f start nx (S dgr)
  end.
Definition degree (fuel : nat) (n : ptr) : M nat :=
  l ← node_primary_link n; degree_loop fuel l l 0.

(** Modelled from the spec: a leaf is a node whose ring has one link. *)
Definition is_leaf (n : ptr) : M bool :=
  l ← node_primary_link n; nx ← link_next l; ret (bool_decide (nx = l)).

(** Modelled from the spec: [is_root] takes the node alone.  Every other
    node's primary link is the secondary link of its edge (section 3,
    invariant 3); the root's primary link is the primary link of its edge. *)
Definition is_root (n : ptr) : M bool :=
  l ← node_primary_link n; e ← link_edge l; p ← edge_primary_link e;
  ret (bool_decide (p = l)).

(** Modelled from the spec: a [Subtree] view is identified by a single link;
    the view of a node is taken at its primary link. *)
Record Subtree := mkSubtree { subtree_link : ptr }.
Definition Subtree_of_node (n : ptr) : M Subtree :=
  l ← node_primary_link n; ret (mkSubtree l).

(** [utils::minmax_value]. *)
Definition minmax_value (a b : nat) : nat * nat := (a `min` b, a `max` b).

(** The ring walk shared by insertion and deletion:
    [while( &cur->next() != stop ) cur = &cur->next();] *)
Fixpoint ring_pred (fuel : nat) (stop cur : ptr) : M ptr :=
  match fuel with
  | 0 => diverge
  | S f =>
      nx ← link_next cur;
      if decide (nx = stop) then ret cur else ring_pred f stop nx
  end.

(** Modelled from the spec: the pre-order iterator over a [Subtree]
    (section 2, "Traversal Helper").  It keeps a stack of links still to
    visit; visiting a link pushes the outer links of the rest of its ring, in
    ring order, so that the first child is visited next. *)
Fixpoint children_loop (fuel : nat) (link c : ptr) (tmp : list ptr) : M (list ptr) :=
  match fuel with
  | 0 => diverge
  | S f =>
      if decide (c = link) then ret tmp
      else o ← link_outer c; nx ← link_next c; children_loop f link nx (o :: tmp)
  end.
Definition push_front_children (fuel : nat) (link : ptr) (stack : list ptr)
  : M (list ptr) :=
  c ← link_next link;
  tmp ← children_loop fuel link c [];
  ret (fold_left (λ st l, l :: st) tmp stack).

(** [for( auto it : preorder( subtree )) body], with the loop-carried locals
    of the body passed along as [a]. *)
Fixpoint preorder_loop {A} (fuel : nat) (link : ptr) (stack : list ptr)
    (body : A → ptr → M A) (a : A) : M A :=
  match fuel with
  | 0 => diverge
  | S f =>
      a' ← body a link;
      match stack with
      | [] => ret a'
      | l :: st => st' ← push_front_children fuel l st; preorder_loop f l st' body a'
      end
  end.
Definition preorder_subtree {A} (fuel : nat) (sub : Subtree)
    (body : A → ptr → M A) (a : A) : M A :=
  st ← push_front_children fuel (subtree_link sub) [];
  preorder_loop fuel (subtree_link sub) st body a.

(** ** Manipulation functions *)

(** [std::function] arguments: [None] is the empty function object. *)
Definition callback := option (ptr → ptr → M unit).

(** *** Add nodes *)

Definition add_new_node (fuel : nat) (target_node : ptr) : M ptr :=
  b ← belongs_to_node target_node;
  if negb b then
    throw "Cannot add Node to a Tree where the given Node is not part of the Tree."
  else
  con_link ← new_link;
  end_link ← new_link;
  end_node ← new_node;
  con_edge ← new_edge;
  (* Populate the link at the given node. *)
  n ← link_count;
  link_reset_index con_link n;;
  link_reset_node con_link target_node;;
  link_reset_edge con_link con_edge;;
  link_reset_outer con_link end_link;;
  (* Find the last link of the given node. *)
  up_link ← node_primary_link target_node;
  last_link ← ring_pred fuel up_link up_link;
  (* Insert the new link in between up_link and last_link. *)
  link_reset_next last_link con_link;;
  link_reset_next con_link up_link;;
  push_link con_link;;
  (* Populate the link at the new node and add it to the tree. *)
  n ← link_count;
  link_reset_index end_link n;;
  link_reset_node end_link end_node;;
  link_reset_edge end_link con_edge;;
  link_reset_next end_link end_link;;
  link_reset_outer end_link con_link;;
  push_link end_link;;
  (* Populate the new node and add it to the tree. *)
  n ← node_count;
  node_reset_index end_node n;;
  node_reset_primary_link end_node end_link;;
  d ← node_data target_node;
  node_reset_data end_node (recreate d);;
  push_node end_node;;
  (* Populate the new edge and add it to the tree. *)
  n ← edge_count;
  edge_reset_index con_edge n;;
  edge_reset_primary_link con_edge con_link;;
  edge_reset_secondary_link con_edge end_link;;
  pl ← node_primary_link target_node;
  pe ← link_edge pl;
  d ← edge_data pe;
  edge_reset_data con_edge (recreate d);;
  push_edge con_edge;;
  ret end_node.

(** The edge-splitting overload up to and including the rewiring; it returns
    the new mid node and the new edge. *)
Definition add_new_node_edge_rewire (target_edge : ptr) : M (ptr * ptr) :=
  pri_link ← new_link;
  sec_link ← new_link;
  mid_node ← new_node;
  sec_edge ← new_edge;
  (* Link towards the primary end of the target edge. *)
  n ← link_count;
  link_reset_index pri_link n;;
  link_reset_next pri_link sec_link;;
  tp ← edge_primary_link target_edge;
  link_reset_outer pri_link tp;;
  link_reset_node pri_link mid_node;;
  link_reset_edge pri_link target_edge;;
  push_link pri_link;;
  (* Link towards the secondary end of the target edge. *)
  n ← link_count;
  link_reset_index sec_link n;;
  link_reset_next sec_link pri_link;;
  ts ← edge_secondary_link target_edge;
  link_reset_outer sec_link ts;;
  link_reset_node sec_link mid_node;;
  link_reset_edge sec_link sec_edge;;
  push_link sec_link;;
  (* The new node in the middle of the target edge. *)
  n ← node_count;
  node_reset_index mid_node n;;
  node_reset_primary_link mid_node pri_link;;
  pn ← edge_primary_node target_edge;
  d ← node_data pn;
  node_reset_data mid_node (recreate d);;
  push_node mid_node;;
  (* The edge at the secondary end of the target edge. *)
  n ← edge_count;
  edge_reset_index sec_edge n;;
  edge_reset_primary_link sec_edge sec_link;;
  ts ← edge_secondary_link target_edge;
  edge_reset_secondary_link sec_edge ts;;
  d ← edge_data target_edge;
  edge_reset_data sec_edge (recreate d);;
  push_edge sec_edge;;
  (* Finally adjust the existing tree elements. *)
  tp ← edge_primary_link target_edge;
  link_reset_outer tp pri_link;;
  ts ← edge_secondary_link target_edge;
  link_reset_outer ts sec_link;;
  ts ← edge_secondary_link target_edge;
  link_reset_edge ts sec_edge;;
  edge_reset_secondary_link target_edge pri_link;;
  ret (mid_node, sec_edge).

Definition add_new_node_edge (target_edge : ptr) (adjust_edges : callback) : M ptr :=
  b ← belongs_to_edge target_edge;
  if negb b then
    throw "Cannot add Node to Tree on an Edge that is not part of the Tree."
  else
  r ← add_new_node_edge_rewire target_edge;
  (* If we have a transform function, call it. *)
  match adjust_edges with
  | Some f => f target_edge r.2
  | None => ret tt
  end;;
  ret r.1.

Definition add_new_leaf_node (fuel : nat) (target_edge : ptr) (adjust_edges : callback)
  : M ptr :=
  mid_node ← add_new_node_edge target_edge adjust_edges;
  add_new_node fuel mid_node.

(** *** Delete nodes *)

(** The index fix-up loops that follow a single [erase]. *)
Definition reindex_edges_from (i : nat) : M unit :=
  n ← edge_count;
  for_range i (n - i) (λ j, e ← edge_at j; edge_reset_index e j).
Definition reindex_links_from (i : nat) : M unit :=
  n ← link_count;
  for_range i (n - i) (λ j, l ← link_at j; link_reset_index l j).
Definition reindex_nodes_from (i : nat) : M unit :=
  n ← node_count;
  for_range i (n - i) (λ j, x ← node_at j; node_reset_index x j).

(** [links.erase( links.begin() + mm.first );
     links.erase( links.begin() + mm.second - 1 );] *)
Definition erase_two_links (mm : nat * nat) : M unit :=
  erase_link mm.1;;
  match mm.2 with
  | 0 => fault
  | S k => erase_link k
  end.

Definition delete_leaf_node (fuel : nat) (target_node : ptr) : M unit :=
  b ← belongs_to_node target_node;
  if negb b then
    throw "Cannot delete Node from a Tree that is not part of the Tree."
  else
  d ← degree fuel target_node;
  if negb (bool_decide (d = 1)) then
    throw "Cannot delete leaf Node if the Node is not actually a leaf."
  else
  (* If the node to be deleted is the root, reset to its adjacent node. *)
  rl ← root_link;
  rn ← root_node;
  ri ← node_index rn;
  ti ← node_index target_node;
  root_link_ptr ← (if decide (ri = ti)
                   then tl ← node_primary_link target_node; link_outer tl
                   else ret rl);
  (* Delete the edge and adjust indices of other edges as needed. *)
  tl ← node_primary_link target_node;
  te ← link_edge tl;
  edge_idx ← edge_index te;
  erase_edge edge_idx;;
  reindex_edges_from edge_idx;;
  (* Make the attachment node forget about this node by skipping the link. *)
  tl ← node_primary_link target_node;
  attach_link ← link_outer tl;
  start ← link_next attach_link;
  link_ptr ← ring_pred fuel attach_link start;
  n1 ← link_next link_ptr;
  n2 ← link_next n1;
  link_reset_next link_ptr n2;;
  (* Delete both links, and adjust the indices of the other links. *)
  ai ← link_index attach_link;
  ao ← link_outer attach_link;
  oi ← link_index ao;
  let mm := minmax_value ai oi in
  erase_two_links mm;;
  reindex_links_from mm.1;;
  (* Finally, delete the node and adjust indices of other nodes. *)
  node_idx ← node_index target_node;
  erase_node node_idx;;
  reindex_nodes_from node_idx;;
  (* Lastly, reset the root link. *)
  ri ← link_index root_link_ptr;
  reset_root_link_index ri.

(** The source asserts, before it rewires, that the two neighbouring links
    lead back to [target_node], that the edge at its primary link ends at
    [target_node] and the edge at its other link starts there, and that each
    neighbouring link lies on the edge of the link it faces.  A root node
    fails the second of these.  The assertions are compiled out; properties
    that depend on them take them as hypotheses. *)
Definition delete_linear_node (fuel : nat) (target_node : ptr) (adjust_edges : callback)
  : M unit :=
  b ← belongs_to_node target_node;
  if negb b then
    throw "Cannot delete Node from a Tree that is not part of the Tree."
  else
  d ← degree fuel target_node;
  if negb (bool_decide (d = 2)) then
    throw "Cannot delete linear Node if the Node is not actually linear (degree 2)."
  else
  (* Before we do anything, call the adjust function. *)
  match adjust_edges with
  | Some f =>
      pl ← node_primary_link target_node;
      e1 ← link_edge pl;
      pl' ← node_primary_link target_node;
      nx ← link_next pl';
      e2 ← link_edge nx;
      f e1 e2
  | None => ret tt
  end;;
  rl ← root_link;
  rn ← root_node;
  ri ← node_index rn;
  ti ← node_index target_node;
  root_link_ptr ← (if decide (ri = ti)
                   then tl ← node_primary_link target_node; link_outer tl
                   else ret rl);
  (* Adjust the links of the two adjacent nodes to point to each other. *)
  pr_link ← node_primary_link target_node;
  adj_link_p ← link_outer pr_link;
  nx ← link_next pr_link;
  adj_link_d ← link_outer nx;
  link_reset_outer adj_link_p adj_link_d;;
  link_reset_outer adj_link_d adj_link_p;;
  (* Adjust the pointers to and from the remaining edge. *)
  ep ← link_edge adj_link_p;
  edge_reset_secondary_link ep adj_link_d;;
  ed ← link_edge adj_link_d;
  edge_reset_primary_link ed adj_link_p;;
  tp ← node_primary_link target_node;
  te ← link_edge tp;
  link_reset_edge adj_link_d te;;
  (* Delete the edge and adjust indices of other edges as needed. *)
  nx ← link_next pr_link;
  ne ← link_edge nx;
  edge_idx ← edge_index ne;
  erase_edge edge_idx;;
  reindex_edges_from edge_idx;;
  (* Delete both links of the node, and adjust the other links. *)
  pi ← link_index pr_link;
  nx ← link_next pr_link;
  ni ← link_index nx;
  let mm := minmax_value pi ni in
  erase_two_links mm;;
  reindex_links_from mm.1;;
  (* Finally, delete the node and adjust indices of other nodes. *)
  node_idx ← node_index target_node;
  erase_node node_idx;;
  reindex_nodes_from node_idx;;
  (* Lastly, reset the root link. *)
  ri ← link_index root_link_ptr;
  reset_root_link_index ri.

(** The locals filled by the pre-order walk of [delete_subtree]. *)
Record del_lists := mkDel {
  del_nodes : list nat;
  del_edges : list nat;
  del_links : list nat;
  contains_root : bool
}.

Definition collect_subtree (a : del_lists) (link : ptr) : M del_lists :=
  n ← link_node link;
  ni ← node_index n;
  e ← link_edge link;
  ei ← edge_index e;
  li ← link_index link;
  o ← link_outer link;
  oi ← link_index o;
  n' ← link_node link;
  r ← is_root n';
  ret (mkDel (del_nodes a ++ [ni]) (del_edges a ++ [ei]) (del_links a ++ [li; oi])
             (if r then true else contains_root a)).

(** The bulk compaction of one vector: walk the old vector in index order
    with a cursor [del_idx] into the sorted deletion list; an element whose
    index is at the cursor stays behind, any other is re-stamped and moved to
    the new vector.  Returns the new vector and the elements left behind,
    which the old vector still owns until it goes out of scope. *)
Fixpoint compact_loop (reset_index : ptr → nat → M unit) (old : list ptr)
    (i : nat) (del : list nat) (del_idx : nat) (new behind : list ptr)
  : M (list ptr * list ptr) :=
  match old with
  | [] => ret (new, behind)
  | p :: old' =>
      if bool_decide (del !! del_idx = Some i) then
        compact_loop reset_index old' (S i) del (S del_idx) new (behind ++ [p])
      else
        reset_index p (i - del_idx);;
        compact_loop reset_index old' (S i) del del_idx (new ++ [p]) behind
  end.

Definition compact_nodes (del : list nat) : M (list ptr) :=
  old ← gets nodes_;
  r ← compact_loop node_reset_index old 0 del 0 [] [];
  modify (set_nodes (λ _, r.1));;
  ret r.2.
Definition compact_edges (del : list nat) : M (list ptr) :=
  old ← gets edges_;
  r ← compact_loop edge_reset_index old 0 del 0 [] [];
  modify (set_edges (λ _, r.1));;
  ret r.2.
Definition compact_links (del : list nat) : M (list ptr) :=
  old ← gets links_;
  r ← compact_loop link_reset_index old 0 del 0 [] [];
  modify (set_links (λ _, r.1));;
  ret r.2.

(** Destruction of a local vector of [unique_ptr] at scope exit. *)
Definition destroy_links (v : list ptr) : M unit :=
  modify (set_hl (λ h, foldr delete h v)).
Definition destroy_nodes (v : list ptr) : M unit :=
  modify (set_hn (λ h, foldr delete h v)).
Definition destroy_edges (v : list ptr) : M unit :=
  modify (set_he (λ h, foldr delete h v)).

Definition delete_subtree (fuel : nat) (subtree : Subtree) : M unit :=
  b ← belongs_to_link (subtree_link subtree);
  if negb b then
    throw "Cannot delete Subtree from a Tree that is not part of the Tree."
  else
  (* Make lists of all indices that need to be deleted. *)
  a ← preorder_subtree fuel subtree collect_subtree (mkDel [] [] [] false);
  let del_nodes := merge_sort (≤) (del_nodes a) in
  let del_edges := merge_sort (≤) (del_edges a) in
  let del_links := merge_sort (≤) (del_links a) in
  (* If we are about to delete the root, store the new link for later. *)
  root_link_ptr ← (if contains_root a
                   then o ← link_outer (subtree_link subtree); link_next o
                   else root_link);
  (* Get the link that points to the attachment link. *)
  attach_link ← link_outer (subtree_link subtree);
  start ← link_next attach_link;
  link_ptr ← ring_pred fuel attach_link start;
  li ← link_index link_ptr;
  link_nc ← link_at li;
  (* If the primary link of the attachment node is about to be deleted,
     reset it to another link. *)
  nc_node ← link_node link_nc;
  nc_prim ← node_primary_link nc_node;
  nc_next ← link_next link_nc;
  (if decide (nc_prim = nc_next)
   then nn ← link_node link_nc; n1 ← link_next link_nc; n2 ← link_next n1;
        node_reset_primary_link nn n2
   else ret tt);;
  (* Make the attachment node forget about the subtree by skipping the link. *)
  n1 ← link_next link_nc;
  n2 ← link_next n1;
  link_reset_next link_nc n2;;
  (* Make new containers and move the needed elements there. *)
  behind_nodes ← compact_nodes del_nodes;
  behind_edges ← compact_edges del_edges;
  behind_links ← compact_links del_links;
  (* Reset the root if needed. This uses the new index of the pointee. *)
  ri ← link_index root_link_ptr;
  reset_root_link_index ri;;
  (* Scope exit: the swapped-out vectors destroy what was left behind. *)
  destroy_links behind_links;;
  destroy_edges behind_edges;;
  destroy_nodes behind_nodes.

Definition delete_node (fuel : nat) (target_node : ptr) : M unit :=
  b ← belongs_to_node target_node;
  if negb b then
    throw "Cannot delete Node from a Tree that is not part of the Tree."
  else
  deg ← degree fuel target_node;
  if decide (deg = 1) then delete_leaf_node fuel target_node
  else if decide (deg = 2) then delete_linear_node fuel target_node None
  else sub ← Subtree_of_node target_node; delete_subtree fuel sub.

Definition delete_edge (target_edge : ptr) (adjust_nodes : callback) : M unit :=
  ret tt.

(** *** Rerooting *)

Fixpoint reroot_loop (fuel : nat) (old_root cur_link : ptr) : M unit :=
  match fuel with
  | 0 => diverge
  | S f =>
      n ← link_node cur_link;
      if decide (n = old_root) then ret tt else
      (* Swap the edge's links, so that they point towards the new root. *)
      e ← link_edge cur_link;
      link_p_tmp ← edge_primary_link e;
      e ← link_edge cur_link;
      link_s_tmp ← edge_secondary_link e;
      e ← link_edge cur_link;
      edge_reset_primary_link e link_s_tmp;;
      e ← link_edge cur_link;
      edge_reset_secondary_link e link_p_tmp;;
      (* Store the link of the next node that points towards the root. *)
      o ← link_outer cur_link;
      on ← link_node o;
      to_root_link ← node_primary_link on;
      (* Change the main link of the next node. *)
      o ← link_outer cur_link;
      on ← link_node o;
      node_reset_primary_link on o;;
      (* Move one node towards the root. *)
      reroot_loop f old_root to_root_link
  end.

Definition reroot (fuel : nat) (at_link : ptr) : M unit :=
  b ← belongs_to_link at_link;
  if negb b then
    throw "Cannot reroot Tree on a Link that is not part of the Tree."
  else
  old_root ← root_node;
  (* Pointer to the primary link of the target node. *)
  ai ← link_index at_link;
  al ← link_at ai;
  an ← link_node al;
  cur_link ← node_primary_link an;
  (* Set new root index and node link of the new root. *)
  ai ← link_index at_link;
  reset_root_link_index ai;;
  an ← link_node at_link;
  ai ← link_index at_link;
  al ← link_at ai;
  node_reset_primary_link an al;;
  reroot_loop fuel old_root cur_link.

Definition reroot_node (fuel : nat) (at_node : ptr) : M unit :=
  b ← belongs_to_node at_node;
  if negb b then
    throw "Cannot reroot Tree on a Node that is not part of the Tree."
  else
  l ← node_primary_link at_node;
  reroot fuel l.

Definition reroot_at_node (fuel : nat) (node_index : nat) : M unit :=
  n ← node_count;
  if decide (n ≤ node_index) then
    throw "Cannot reroot Tree on a Node that is not part of the Tree."
  else
  x ← node_at node_index;
  reroot_node fuel x.

Definition add_root_node (fuel : nat) (target_edge : ptr) : M ptr :=
  mid_node ← add_new_node_edge target_edge None;
  reroot_node fuel mid_node;;
  ret mid_node.

(** *** Ladderize *)

Inductive LadderizeOrder := kSmallFirst | kLargeFirst.

(** Modelled from the spec: [utils::stable_sort_indices] returns the
    positions [0 .. n-1] of the given values, stably sorted by the given
    strict comparison of the values (section 4.5: the stable sort "preserves
    original relative order among equal sizes"). *)
Definition value_at (vals : list nat) (i : nat) : nat := default 0 (vals !! i).
Fixpoint insert_index (comp : nat → nat → bool) (vals : list nat) (i : nat)
    (l : list nat) : list nat :=
  match l with
  | [] => [i]
  | j :: l' =>
      if comp (value_at vals j) (value_at vals i)
      then j :: insert_index comp vals i l'
      else i :: j :: l'
  end.
Definition stable_sort_indices (comp : nat → nat → bool) (vals : list nat) : list nat :=
  foldr (insert_index comp vals) [] (seq 0 (length vals)).

Definition order_comp (order : LadderizeOrder) : nat → nat → bool :=
  match order with
  | kSmallFirst => Nat.ltb   (* std::less<size_t> *)
  | kLargeFirst => λ a b, Nat.ltb b a   (* std::greater<size_t> *)
  end.

(** Modelled from the spec: the iterator over the links of a node starts at
    the primary link and follows [next] once around the ring. *)
Fixpoint node_links_loop {A} (fuel : nat) (start link : ptr)
    (body : A → ptr → M A) (a : A) : M A :=
  match fuel with
  | 0 => diverge
  | S f =>
      a' ← body a link;
      nx ← link_next link;
      if decide (nx = start) then ret a' else node_links_loop f start nx body a'
  end.
Definition node_links {A} (fuel : nat) (n : ptr) (body : A → ptr → M A) (a : A) : M A :=
  l ← node_primary_link n; node_links_loop fuel l l body a.

(** The sizes vector is indexed unchecked. *)
Definition size_at (sub_sizes : list nat) (i : nat) : M nat :=
  match sub_sizes !! i with Some v => ret v | None => fault end.

Definition collect_children (sub_sizes : list nat) (start : ptr)
    (a : list nat * list ptr) (link : ptr) : M (list nat * list ptr) :=
  (* Don't treat the link towards the root. *)
  if decide (link = start) then ret a else
  o ← link_outer link;
  n ← link_node o;
  i ← node_index n;
  sz ← size_at sub_sizes i;
  ret (a.1 ++ [sz], a.2 ++ [link]).

(** Rewriting of the [next] chain along [child_order]; returns the last
    link set. *)
Fixpoint relink (child_links : list ptr) (child_order : list nat) (cur_link : ptr)
  : M ptr :=
  match child_order with
  | [] => ret cur_link
  | i :: rest =>
      match child_links !! i with
      | Some l => link_reset_next cur_link l;; relink child_links rest l
      | None => fault
      end
  end.

Definition ladderize_node (fuel : nat) (sub_sizes : list nat) (order : LadderizeOrder)
    (node : ptr) : M unit :=
  (* No need to ladderize a leaf. *)
  leaf ← is_leaf node;
  if (leaf : bool) then ret tt else
  (* Get the sizes of the children/subtrees of this node. *)
  start ← node_primary_link node;
  ch ← node_links fuel node (collect_children sub_sizes start) ([], []);
  (* Sort the sizes. *)
  let child_order := stable_sort_indices (order_comp order) ch.1 in
  (* Change all next links of the node to reflect the subtree size order. *)
  pl ← node_primary_link node;
  cur_link ← relink ch.2 child_order pl;
  pl ← node_primary_link node;
  link_reset_next cur_link pl.

Fixpoint for_each {A} (l : list A) (body : A → M unit) : M unit :=
  match l with
  | [] => ret tt
  | x :: l' => body x;; for_each l' body
  end.

(** [subtree_sizes] belongs to [tree/function/functions.hpp], which is not
    among the sources; [ladderize] is stated for any function that computes
    the vector of sizes from the tree without changing it. *)
Definition ladderize (subtree_sizes : St → list nat) (fuel : nat)
    (order : LadderizeOrder) : M unit :=
  sub_sizes ← gets subtree_sizes;
  nodes ← gets nodes_;
  for_each nodes (ladderize_node fuel sub_sizes order).

End Model.

Arguments M : clear implicits.
Arguments callback : clear implicits.
Local Open Scope tree_scope.

Notation "x ← m ; k" := (bind m (λ x, k))
  (at level 20, m at level 100, k at level 200, only parsing) : tree_scope.
Notation "m ;; k" := (bind m (λ _, k))
  (at level 100, k at level 200, only parsing, right associativity) : tree_scope.

(** ** Predicates on stores *)

(** [chain h cur rest stop]: following [next] from [cur] visits [rest] and
    then arrives at [stop], which is not met before. *)
Fixpoint chain (h : gmap ptr TreeLink) (cur : ptr) (rest : list ptr) (stop : ptr) : Prop :=
  match rest with
  | [] => ∃ l, h !! cur = Some l ∧ l_next l = stop
  | x :: rest' =>
      ∃ l, h !! cur = Some l ∧ l_next l = x ∧ x ≠ stop ∧ chain h x rest' stop
  end.

(** The link a chain ends in: the one whose [next] is [stop]. *)
Fixpoint chain_last (cur : ptr) (rest : list ptr) : ptr :=
  match rest with
  | [] => cur
  | x :: rest' => chain_last x rest'
  end.

(** The ring of [start] is [start :: rest]. *)
Definition ring (h : gmap ptr TreeLink) (start : ptr) (rest : list ptr) : Prop :=
  chain h start rest start.


(** Invariant 1 of the data model: the element at position [i] of a vector
    is live and has stored index [i]. *)
Definition links_indexed {ND ED} (s : State ND ED) : Prop :=
  ∀ i p, links_ s !! i = Some p → ∃ l, hl s !! p = Some l ∧ l_index l = i.
Definition nodes_indexed {ND ED} (s : State ND ED) : Prop :=
  ∀ i p, nodes_ s !! i = Some p → ∃ n, hn s !! p = Some n ∧ n_index n = i.
Definition edges_indexed {ND ED} (s : State ND ED) : Prop :=
  ∀ i p, edges_ s !! i = Some p → ∃ e, he s !! p = Some e ∧ e_index e = i.

(** ** Concrete trees *)

(** Elements are placed at the addresses [1, 2, ...] in vector order. *)
Definition store_of {A} (l : list A) : gmap ptr A :=
  list_to_map (imap (λ i x, (S i, x)) l).
Definition build_tree (ls : list TreeLink) (ns : list (TreeNode nat))
    (es : list (TreeEdge nat)) (root : nat) : State nat nat :=
  mkState (seq 1 (length ls)) (seq 1 (length ns)) (seq 1 (length es)) root
          (store_of ls) (store_of ns) (store_of es).

#[export] Instance nat_payload : Payload nat := λ d, d.

(** The path [R - X - Y], rooted at the leaf [R]. *)
Definition path3 : State nat nat := build_tree
  [ mkLink 0 1 2 1 1; mkLink 1 3 1 2 1; mkLink 2 2 4 2 2; mkLink 3 4 3 3 2 ]
  [ mkNode 0 1 (Some 10); mkNode 1 2 (Some 11); mkNode 2 4 (Some 12) ]
  [ mkEdge 0 1 2 (Some 20); mkEdge 1 3 4 (Some 21) ]
  0.

(** The same path without payloads. *)
Definition path3_bare : State nat nat := build_tree
  [ mkLink 0 1 2 1 1; mkLink 1 3 1 2 1; mkLink 2 2 4 2 2; mkLink 3 4 3 3 2 ]
  [ mkNode 0 1 None; mkNode 1 2 None; mkNode 2 4 None ]
  [ mkEdge 0 1 2 None; mkEdge 1 3 4 None ]
  0.

(** [((C,D)A,B)R]: root [R] with children [A] and [B]; [A] has the children
    [C] and [D].  Links 1,2 belong to [R], 3,4,5 to [A], 6 to [B], 7 to [C],
    8 to [D]. *)
Definition tree5 : State nat nat := build_tree
  [ mkLink 0 2 3 1 1; mkLink 1 1 6 1 2;
    mkLink 2 4 1 2 1; mkLink 3 5 7 2 3; mkLink 4 3 8 2 4;
    mkLink 5 6 2 3 2; mkLink 6 7 4 4 3; mkLink 7 8 5 5 4 ]
  [ mkNode 0 1 (Some 10); mkNode 1 3 (Some 11); mkNode 2 6 (Some 12);
    mkNode 3 7 (Some 13); mkNode 4 8 (Some 14) ]
  [ mkEdge 0 1 3 (Some 20); mkEdge 1 2 6 (Some 21);
    mkEdge 2 4 7 (Some 22); mkEdge 3 5 8 (Some 23) ]
  0.

(** [(((E)C,D)A,B)R]: [tree5] with a child [E] below [C].  Links 7 and 9
    belong to [C], link 10 to [E]. *)
Definition tree6 : State nat nat := build_tree
  [ mkLink 0 2 3 1 1; mkLink 1 1 6 1 2;
    mkLink 2 4 1 2 1; mkLink 3 5 7 2 3; mkLink 4 3 8 2 4;
    mkLink 5 6 2 3 2; mkLink 6 9 4 4 3; mkLink 7 8 5 5 4;
    mkLink 8 7 10 4 5; mkLink 9 10 9 6 5 ]
  [ mkNode 0 1 (Some 10); mkNode 1 3 (Some 11); mkNode 2 6 (Some 12);
    mkNode 3 7 (Some 13); mkNode 4 8 (Some 14); mkNode 5 10 (Some 15) ]
  [ mkEdge 0 1 3 (Some 20); mkEdge 1 2 6 (Some 21);
    mkEdge 2 4 7 (Some 22); mkEdge 3 5 8 (Some 23); mkEdge 4 9 10 (Some 24) ]
  0.
(** The numbers of descendants of its nodes [R, A, B, C, D, E]. *)
Definition tree6_sizes : list nat := [5; 3; 0; 1; 0; 0].


(** [((C,D)A,B,E)R]: a root [R] of degree three whose first child [A] has
    the children [C] and [D].  Links 1,2,3 belong to [R], 4,5,6 to [A], 7 to
    [B], 8 to [E], 9 to [C], 10 to [D]. *)
Definition tree_tri : State nat nat := build_tree
  [ mkLink 0 2 4 1 1; mkLink 1 3 7 1 2; mkLink 2 1 8 1 3;
    mkLink 3 5 1 2 1; mkLink 4 6 9 2 4; mkLink 5 4 10 2 5;
    mkLink 6 7 2 3 2; mkLink 7 8 3 4 3; mkLink 8 9 5 5 4; mkLink 9 10 6 6 5 ]
  [ mkNode 0 1 (Some 10); mkNode 1 4 (Some 11); mkNode 2 7 (Some 12);
    mkNode 3 8 (Some 13); mkNode 4 9 (Some 14); mkNode 5 10 (Some 15) ]
  [ mkEdge 0 1 4 (Some 20); mkEdge 1 2 7 (Some 21); mkEdge 2 3 8 (Some 22);
    mkEdge 3 5 9 (Some 23); mkEdge 4 6 10 (Some 24) ]
  0.

(** A node that lives on the free store but in no vector of the tree. *)
Definition with_stray_elements (s : State nat nat) : State nat nat :=
  set_hl (insert 100 (mkLink 0 100 100 100 100))
    (set_hn (insert 100 (mkNode 0 100 None))
       (set_he (insert 100 (mkEdge 0 100 100 None)) s)).

(** ** Precondition violations *)

(** A live element that the tree does not store at the element's index. *)
Definition node_outside {ND ED} (s : State ND ED) (n : ptr) : Prop :=
  ∃ x, hn s !! n = Some x ∧ nodes_ s !! n_index x ≠ Some n.
Definition edge_outside {ND ED} (s : State ND ED) (e : ptr) : Prop :=
  ∃ x, he s !! e = Some x ∧ edges_ s !! e_index x ≠ Some e.
Definition link_outside {ND ED} (s : State ND ED) (l : ptr) : Prop :=
  ∃ x, hl s !! l = Some x ∧ links_ s !! l_index x ≠ Some l.

(** A node of the tree whose ring is [n_link x :: rest], that is, a node of
    degree [S (length rest)]. *)
Definition node_with_ring {ND ED} (s : State ND ED) (n : ptr) (rest : list ptr) : Prop :=
  ∃ x, hn s !! n = Some x ∧ nodes_ s !! n_index x = Some n ∧ ring (hl s) (n_link x) rest.

(** The path [R - X - Y] rooted at the inner node [X], with the link of [X]
    that faces the leaf [R] as root link (what [reroot] at that link
    gives). *)
Definition path3_at_x : State nat nat := build_tree
  [ mkLink 0 1 2 1 1; mkLink 1 3 1 2 1; mkLink 2 2 4 2 2; mkLink 3 4 3 3 2 ]
  [ mkNode 0 1 (Some 10); mkNode 1 2 (Some 11); mkNode 2 4 (Some 12) ]
  [ mkEdge 0 2 1 (Some 20); mkEdge 1 3 4 (Some 21) ]
  1.

(** [tree5] with the other link of [R], the one facing [B], as root link. *)
Definition tree5_at_b : State nat nat := build_tree
  [ mkLink 0 2 3 1 1; mkLink 1 1 6 1 2;
    mkLink 2 4 1 2 1; mkLink 3 5 7 2 3; mkLink 4 3 8 2 4;
    mkLink 5 6 2 3 2; mkLink 6 7 4 4 3; mkLink 7 8 5 5 4 ]
  [ mkNode 0 2 (Some 10); mkNode 1 3 (Some 11); mkNode 2 6 (Some 12);
    mkNode 3 7 (Some 13); mkNode 4 8 (Some 14) ]
  [ mkEdge 0 1 3 (Some 20); mkEdge 1 2 6 (Some 21);
    mkEdge 2 4 7 (Some 22); mkEdge 3 5 8 (Some 23) ]
  1.

(** ** Paths towards the root *)

(** One step of the walk of [reroot]: from the link [h_cur] of the node
    [h_from] across the edge [h_edge] to the link [h_out] of the node
    [h_to]. *)
Record hop := mkHop {
  h_from : ptr;
  h_cur  : ptr;
  h_edge : ptr;
  h_out  : ptr;
  h_to   : ptr
}.

(** The two links of a hop are the two ends of its edge and each other's
    outer link (invariant 4 of the data model). *)
Definition hop_ok {ND ED} (s : State ND ED) (h : hop) : Prop :=
  ∃ l lo,
    hl s !! h_cur h = Some l ∧ l_node l = h_from h ∧
    l_edge l = h_edge h ∧ l_outer l = h_out h ∧
    hl s !! h_out h = Some lo ∧ l_node lo = h_to h ∧
    l_edge lo = h_edge h ∧ l_outer lo = h_cur h ∧
    is_Some (he s !! h_edge h).

(** The hops lead from node [v] to node [vend]. *)
Fixpoint path_nodes (v : ptr) (hops : list hop) (vend : ptr) : Prop :=
  match hops with
  | [] => v = vend
  | h :: rest => h_from h = v ∧ path_nodes (h_to h) rest vend
  end.

(** A path from [v] up to [vend] along primary links: every hop leaves its
    node through the node's primary link. *)
Definition path_up {ND ED} (s : State ND ED) (v : ptr) (hops : list hop) (vend : ptr)
  : Prop :=
  path_nodes v hops vend ∧
  Forall (hop_ok s) hops ∧
  Forall (λ h, ∃ x, hn s !! h_from h = Some x ∧ n_link x = h_cur h) hops.

Definition rev_hop (h : hop) : hop :=
  mkHop (h_to h) (h_out h) (h_edge h) (h_cur h) (h_from h).

(** What one iteration of the loop of [reroot] does to the edge it crosses
    and to the node it arrives at. *)
Definition swap_links {ED} (e : TreeEdge ED) : TreeEdge ED :=
  mkEdge (e_index e) (e_link_s e) (e_link_p e) (e_data e).
Definition set_primary {ND} (l : ptr) (n : TreeNode ND) : TreeNode ND :=
  mkNode (n_index n) l (n_data n).
Definition flip_hn {ND} (hops : list hop) (m : gmap ptr (TreeNode ND))
  : gmap ptr (TreeNode ND) :=
  foldl (λ m h, alter (set_primary (h_out h)) (h_to h) m) m hops.
Definition flip_he {ED} (hops : list hop) (m : gmap ptr (TreeEdge ED))
  : gmap ptr (TreeEdge ED) :=
  foldl (λ m h, alter swap_links (h_edge h) m) m hops.
Definition flip_all {ND ED} (hops : list hop) (s : State ND ED) : State ND ED :=
  set_hn (flip_hn hops) (set_he (flip_he hops) s).

(** The walk as the loop performs it, reading the current store. *)
Fixpoint walk_up {ND ED} (s : State ND ED) (cur : ptr) (hops : list hop) (root : ptr)
  : Prop :=
  match hops with
  | [] => ∃ l, hl s !! cur = Some l ∧ l_node l = root
  | h :: rest =>
      h_cur h = cur ∧ hop_ok s h ∧ h_from h ≠ root ∧
      ∃ x, hn s !! h_to h = Some x ∧ walk_up s (n_link x) rest root
  end.

(** ** Bulk compaction, as functions on vectors *)

(** The two vectors [compact_loop] computes. *)
Fixpoint compact_pure (old : list ptr) (i : nat) (del : list nat) (del_idx : nat)
    (new behind : list ptr) : list ptr * list ptr :=
  match old with
  | [] => (new, behind)
  | p :: old' =>
      if bool_decide (del !! del_idx = Some i) then
        compact_pure old' (S i) del (S del_idx) new (behind ++ [p])
      else
        compact_pure old' (S i) del del_idx (new ++ [p]) behind
  end.

(** The elements of [old], which starts at position [i], split into those
    whose position is not in [del] and those whose position is. *)
Fixpoint split_positions (del : list nat) (i : nat) (old : list ptr)
  : list ptr * list ptr :=
  match old with
  | [] => ([], [])
  | p :: old' =>
      let r := split_positions del (S i) old' in
      if bool_decide (i ∈ del) then (r.1, p :: r.2) else (p :: r.1, r.2)
  end.

(** ** Pre-order walks *)

#[export] Instance TreeLink_inhabited : Inhabited TreeLink :=
  populate (mkLink 0 nullptr nullptr nullptr nullptr).
#[export] Instance TreeNode_inhabited {ND} : Inhabited (TreeNode ND) :=
  populate (mkNode 0 nullptr None).
#[export] Instance TreeEdge_inhabited {ED} : Inhabited (TreeEdge ED) :=
  populate (mkEdge 0 nullptr nullptr None).

Definition outer_is (h : gmap ptr TreeLink) (c o : ptr) : Prop :=
  ∃ lc, h !! c = Some lc ∧ l_outer lc = o.

(** [visits h stack its]: the pre-order iterator with the links [stack]
    still to visit visits exactly the links [its], in this order.  Visiting a
    link puts the outer links of the rest of its ring in front of the
    stack. *)
Inductive visits (h : gmap ptr TreeLink) : list ptr → list ptr → Prop :=
| visits_nil : visits h [] []
| visits_cons l st r os its :
    ring h l r → Forall2 (outer_is h) r os → visits h (os ++ st) its →
    visits h (l :: st) (l :: its).

(** What the body of the loop of [delete_subtree] reads at a visited link. *)
Definition node_of {ND ED} (s : State ND ED) (l : ptr) : ptr := l_node (hl s !!! l).
Definition edge_of {ND ED} (s : State ND ED) (l : ptr) : ptr := l_edge (hl s !!! l).
Definition outer_of {ND ED} (s : State ND ED) (l : ptr) : ptr := l_outer (hl s !!! l).
Definition link_index_of {ND ED} (s : State ND ED) (l : ptr) : nat := l_index (hl s !!! l).
Definition node_index_of {ND ED} (s : State ND ED) (n : ptr) : nat := n_index (hn s !!! n).
Definition edge_index_of {ND ED} (s : State ND ED) (e : ptr) : nat := e_index (he s !!! e).
Definition is_root_of {ND ED} (s : State ND ED) (n : ptr) : bool :=
  let l := n_link (hn s !!! n) in
  bool_decide (e_link_p (he s !!! edge_of s l) = l).

(** The elements met at a visited link are live and belong to the tree. *)
Definition visit_ok {ND ED} (s : State ND ED) (l : ptr) : Prop :=
  is_Some (hl s !! l) ∧ links_ s !! link_index_of s l = Some l ∧
  is_Some (hl s !! outer_of s l) ∧
  links_ s !! link_index_of s (outer_of s l) = Some (outer_of s l) ∧
  is_Some (hn s !! node_of s l) ∧
  nodes_ s !! node_index_of s (node_of s l) = Some (node_of s l) ∧
  is_Some (he s !! edge_of s l) ∧
  edges_ s !! edge_index_of s (edge_of s l) = Some (edge_of s l) ∧
  is_Some (hl s !! n_link (hn s !!! node_of s l)) ∧
  is_Some (he s !! edge_of s (n_link (hn s !!! node_of s l))).

(** The links a subtree deletion removes: every visited link and its outer
    link. *)
Definition removed_links {ND ED} (s : State ND ED) (its : list ptr) : list ptr :=
  flat_map (λ l, [l; outer_of s l]) its.

(** A loop body run over a list of links. *)
Fixpoint fold_links {ND ED A} (body : A → ptr → M ND ED A) (a : A) (ls : list ptr)
  : M ND ED A :=
  match ls with
  | [] => ret a
  | l :: ls' => bind (body a l) (λ a', fold_links body a' ls')
  end.

(** ** Ladderized rings *)

(** The order [ladderize] sorts positions by: the size first, the original
    position among equal sizes. *)
Definition ladder_rel (order : LadderizeOrder) (keys : list nat) (i j : nat) : Prop :=
  match order with
  | kSmallFirst =>
      value_at keys i < value_at keys j ∨ (value_at keys i = value_at keys j ∧ i < j)
  | kLargeFirst =>
      value_at keys j < value_at keys i ∨ (value_at keys i = value_at keys j ∧ i < j)
  end.

Definition sizes_sorted (order : LadderizeOrder) (l : list nat) : Prop :=
  match order with
  | kSmallFirst => Sorted le l
  | kLargeFirst => Sorted ge l
  end.

(** [rest'] lists the links [rest] along a permutation of their positions
    that is sorted by [ladder_rel]. *)
Definition ladderized (order : LadderizeOrder) (key : ptr → nat)
    (rest rest' : list ptr) : Prop :=
  ∃ perm,
    perm ≡ₚ seq 0 (length rest) ∧
    rest' = map (λ i, default nullptr (rest !! i)) perm ∧
    StronglySorted (ladder_rel order (map key rest)) perm.

(** The size [ladderize] reads for a ring link: the entry of the sizes vector
    at the index of the node at the link's outer end. *)
Definition child_size {ND ED} (s : State ND ED) (sizes : list nat) (c : ptr) : nat :=
  value_at sizes (node_index_of s (node_of s (outer_of s c))).
Definition child_ok {ND ED} (s : State ND ED) (sizes : list nat) (c : ptr) : Prop :=
  is_Some (hl s !! c) ∧ is_Some (hl s !! outer_of s c) ∧
  is_Some (hn s !! node_of s (outer_of s c)) ∧
  is_Some (sizes !! node_index_of s (node_of s (outer_of s c))).

(** The links of a ring given as its first link and the rest. *)
Definition ring_links (r : ptr * list ptr) : list ptr := r.1 :: r.2.

(** The link heap after the [next] chain of a ring was rewritten to visit
    [ls] after [start]. *)
Definition set_next (q : ptr) (l : TreeLink) : TreeLink :=
  mkLink (l_index l) q (l_outer l) (l_node l) (l_edge l).
Fixpoint relink_heap (ls : list ptr) (cur : ptr) (h : gmap ptr TreeLink)
  : gmap ptr TreeLink :=
  match ls with
  | [] => h
  | l :: ls' => relink_heap ls' l (alter (set_next l) cur h)
  end.
Definition ring_heap (start : ptr) (ls : list ptr) (h : gmap ptr TreeLink)
  : gmap ptr TreeLink :=
  alter (set_next start) (chain_last start ls) (relink_heap ls start h).

(** Two link heaps that differ in [next] fields only. *)
Definition same_but_next (h h' : gmap ptr TreeLink) : Prop :=
  ∀ p, set_next nullptr <$> h' !! p = set_next nullptr <$> h !! p.

(** Links of equal key are in [rest'] in the order they have in [rest]. *)
Definition keeps_order (key : ptr → nat) (rest rest' : list ptr) : Prop :=
  ∀ i j a b, i < j → rest' !! i = Some a → rest' !! j = Some b → key a = key b →
    ∃ i' j', i' < j' ∧ rest !! i' = Some a ∧ rest !! j' = Some b.

(** What [ladderize] relies on at a node [n] with ring [r.1 :: r.2]: [r.1] is
    the primary link, the ring's links belong to [n], and for every other
    link the node at the outer end and its entry in the sizes vector exist. *)
Definition node_ring_ok {ND ED} (s : State ND ED) (sizes : list nat) (fuel : nat)
    (n : ptr) (r : ptr * list ptr) : Prop :=
  ∃ x, hn s !! n = Some x ∧ n_link x = r.1 ∧ ring (hl s) r.1 r.2 ∧
       Forall (λ l, node_of s l = n) (ring_links r) ∧
       Forall (child_ok s sizes) r.2 ∧ length r.2 < fuel.

(** ** Stores after an insertion *)

Section PostStates.
Context {ND ED : Type} {PN : Payload ND} {PE : Payload ED}.
Implicit Types s : State ND ED.

(** The addresses [make_unique] hands out to the two links, the node and
    the edge an insertion creates. *)
Definition new_link1 s : ptr := fresh_ptr (hl s).
Definition new_link2 s : ptr :=
  fresh_ptr (<[new_link1 s := mkLink 0 nullptr nullptr nullptr nullptr]> (hl s)).
Definition new_node1 s : ptr := fresh_ptr (hn s).
Definition new_edge1 s : ptr := fresh_ptr (he s).

(** The store after a leaf was attached to the node [n] whose ring starts at
    [up] and ends in [last]; [dn] and [de] are the payloads that are
    cloned. *)
Definition leaf_added s (n up last : ptr) (dn : ND) (de : ED) : State ND ED :=
  let con := new_link1 s in
  let end_ := new_link2 s in
  mkState (links_ s ++ [con; end_]) (nodes_ s ++ [new_node1 s])
    (edges_ s ++ [new_edge1 s]) (root_link_index_ s)
    (<[end_ := mkLink (S (length (links_ s))) end_ con (new_node1 s) (new_edge1 s)]>
     (<[con := mkLink (length (links_ s)) up end_ n (new_edge1 s)]>
      (alter (set_next con) last (hl s))))
    (<[new_node1 s := mkNode (length (nodes_ s)) end_ (Some (recreate dn))]> (hn s))
    (<[new_edge1 s := mkEdge (length (edges_ s)) con end_ (Some (recreate de))]> (he s)).

(** The store after the edge [e] with record [te] was split by a new node;
    [dn] and [de] are the payloads that are cloned. *)
Definition set_outer (q : ptr) (l : TreeLink) : TreeLink :=
  mkLink (l_index l) (l_next l) q (l_node l) (l_edge l).
Definition set_outer_edge (q e : ptr) (l : TreeLink) : TreeLink :=
  mkLink (l_index l) (l_next l) q (l_node l) e.
Definition edge_split s (e : ptr) (te : TreeEdge ED) (dn : ND) (de : ED) : State ND ED :=
  let pri := new_link1 s in
  let sec := new_link2 s in
  mkState (links_ s ++ [pri; sec]) (nodes_ s ++ [new_node1 s])
    (edges_ s ++ [new_edge1 s]) (root_link_index_ s)
    (alter (set_outer_edge sec (new_edge1 s)) (e_link_s te)
     (alter (set_outer pri) (e_link_p te)
      (<[sec := mkLink (S (length (links_ s))) pri (e_link_s te) (new_node1 s) (new_edge1 s)]>
       (<[pri := mkLink (length (links_ s)) sec (e_link_p te) (new_node1 s) e]> (hl s)))))
    (<[new_node1 s := mkNode (length (nodes_ s)) pri (Some (recreate dn))]> (hn s))
    (<[e := mkEdge (e_index te) (e_link_p te) pri (e_data te)]>
     (<[new_edge1 s := mkEdge (length (edges_ s)) sec (e_link_s te) (Some (recreate de))]>
      (he s))).

End PostStates.

(** The store after [reroot] at the link [L] with record [lL], the hops
    leading from the node of [L] up to the old root. *)
Definition rerooted {ND ED} (s : State ND ED) (L : ptr) (lL : TreeLink) (hops : list hop)
  : State ND ED :=
  mkState (links_ s) (nodes_ s) (edges_ s) (l_index lL) (hl s)
    (flip_hn hops (alter (set_primary L) (l_node lL) (hn s)))
    (flip_he hops (he s)).

(** ** Index fix-up after an erase *)

Definition set_lindex (i : nat) (l : TreeLink) : TreeLink :=
  mkLink i (l_next l) (l_outer l) (l_node l) (l_edge l).
Definition set_nindex {ND} (i : nat) (n : TreeNode ND) : TreeNode ND :=
  mkNode i (n_link n) (n_data n).
Definition set_eindex {ED} (i : nat) (e : TreeEdge ED) : TreeEdge ED :=
  mkEdge i (e_link_p e) (e_link_s e) (e_data e).

(** The heap after the loop that stores, for [i <= j < i + n], the position
    [j] in the element at position [j] of the vector [v]. *)
Definition reindex_pure {A} (set_idx : nat → A → A) (v : list ptr) (i n : nat)
    (h : gmap ptr A) : gmap ptr A :=
  foldl (λ h j, match v !! j with Some p => alter (set_idx j) p h | None => h end)
        h (seq i n).

(** A vector of elements of the heap [h] that carry their positions. *)
Definition indexed_in {A} (idx : A → nat) (v : list ptr) (h : gmap ptr A) : Prop :=
  ∀ i p, v !! i = Some p → ∃ a, h !! p = Some a ∧ idx a = i.

(** The store after a node [n] at position [ni] was deleted together with
    the edge [E] at position [ie] and the links [p1], [p2] at the positions
    [i1], [i2]; [hl1] and [he1] are the link and edge heaps as rewired before
    the erasures, and [j] is the new root link index. *)
Definition node_removed {ND ED} (s : State ND ED) (n : ptr) (ni : nat) (E : ptr) (ie : nat)
    (p1 p2 : ptr) (i1 i2 : nat) (hl1 : gmap ptr TreeLink) (he1 : gmap ptr (TreeEdge ED))
    (j : nat) : State ND ED :=
  let links' := delete (i1 `max` i2 - 1) (delete (i1 `min` i2) (links_ s)) in
  let nodes' := delete ni (nodes_ s) in
  let edges' := delete ie (edges_ s) in
  mkState links' nodes' edges' j
    (reindex_pure set_lindex links' (i1 `min` i2) (length links' - i1 `min` i2)
       (delete p2 (delete p1 hl1)))
    (reindex_pure set_nindex nodes' ni (length nodes' - ni) (delete n (hn s)))
    (reindex_pure set_eindex edges' ie (length edges' - ie) (delete E he1)).

(** ** Reasoning rules for the monad *)

Section Rules.
Context {ND ED : Type} {PN : Payload ND} {PE : Payload ED}.
Implicit Types s : State ND ED.

Lemma bind_Ok {A B} (m : M ND ED A) (k : A → M ND ED B) s a s' :
  m s = Ok a s' → bind m k s = k a s'.
Proof. unfold bind. by intros ->. Qed.

Lemma bind_Throw {A B} (m : M ND ED A) (k : A → M ND ED B) s e s' :
  m s = Throw e s' → bind m k s = Throw e s'.
Proof. unfold bind. by intros ->. Qed.

Lemma bind_Fault {A B} (m : M ND ED A) (k : A → M ND ED B) s :
  m s = Fault → bind m k s = Fault.
Proof. unfold bind. by intros ->. Qed.

Lemma bind_inv_Ok {A B} (m : M ND ED A) (k : A → M ND ED B) s b s2 :
  bind m k s = Ok b s2 → ∃ a s1, m s = Ok a s1 ∧ k a s1 = Ok b s2.
Proof. unfold bind. destruct (m s); naive_solver. Qed.

Lemma fresh_ptr_None {A} (h : gmap ptr A) : h !! fresh_ptr h = None.
Proof.
  unfold fresh_ptr. apply not_elem_of_dom.
  pose proof (is_fresh ({[nullptr]} ∪ dom h)). set_solver.
Qed.

Lemma fresh_ptr_nonnull {A} (h : gmap ptr A) : fresh_ptr h ≠ nullptr.
Proof.
  unfold fresh_ptr. pose proof (is_fresh ({[nullptr]} ∪ dom h)). set_solver.
Qed.

End Rules.


(** ** Proof automation *)

(** Normal form of a store expression: its seven fields. *)
Ltac st_simpl :=
  unfold set_links, set_nodes, set_edges, set_root, set_hl, set_hn, set_he;
  cbn [links_ nodes_ edges_ root_link_index_ hl hn he fst snd];
  rewrite ?insert_insert_eq.

(** One primitive applied to a store, unfolded down to lookups. *)
Ltac prim_unfold :=
  unfold edge_primary_node, edge_secondary_node, root_node, root_link,
    belongs_to_link, belongs_to_node, belongs_to_edge, is_leaf, is_root,
    Subtree_of_node;
  unfold link_index, link_next, link_outer, link_node, link_edge,
    link_reset_index, link_reset_next, link_reset_outer, link_reset_node, link_reset_edge,
    node_index, node_primary_link, node_data,
    node_reset_index, node_reset_primary_link, node_reset_data,
    edge_index, edge_primary_link, edge_secondary_link, edge_data,
    edge_reset_index, edge_reset_primary_link, edge_reset_secondary_link, edge_reset_data,
    link_count, node_count, edge_count, link_at, node_at, edge_at,
    reset_root_link_index,
    new_link, new_node, new_edge, push_link, push_node, push_edge,
    erase_link, erase_node, erase_edge;
  unfold update_link, update_node, update_edge, deref_link, deref_node, deref_edge,
    gets, modify, ret, throw, fault, bind;
  st_simpl.

Ltac lookup_simpl :=
  repeat (first
    [ rewrite lookup_insert_eq
    | rewrite lookup_insert_ne by (done || congruence)
    | rewrite lookup_delete_eq
    | rewrite lookup_delete_ne by (done || congruence)
    | match goal with
      | H : ?m !! ?p = _ |- context [?m !! ?p] => rewrite H
      | H : ?x = Some _ |- context [match ?x with _ => _ end] => rewrite H
      | H : ?x = None |- context [match ?x with _ => _ end] => rewrite H
      end ];
  cbn [l_index l_next l_outer l_node l_edge n_index n_link n_data
       e_index e_link_p e_link_s e_data
       links_ nodes_ edges_ root_link_index_ hl hn he fst snd]).

Ltac prim_run := prim_unfold; lookup_simpl; try reflexivity.

(** Forward execution of the first statement of a sequence, with [tac]
    proving that it returns. *)
Ltac mstep_by tac :=
  lazymatch goal with
  | |- bind ?m ?k ?s = _ =>
      let H := fresh "Hstep" in
      eassert (m s = Ok _ _) as H by (tac; fail);
      rewrite (bind_Ok m k s _ _ H); clear H; cbv beta; st_simpl
  end.
Ltac mstep := mstep_by prim_run.


(** ** Ring walks *)

Section Rings.
Context {ND ED : Type} {PN : Payload ND} {PE : Payload ED}.
Implicit Types s : State ND ED.

Lemma ring_pred_chain s stop rest : ∀ cur fuel,
  chain (hl s) cur rest stop → length rest < fuel →
  ring_pred fuel stop cur s = Ok (chain_last cur rest) s.
Proof.
  induction rest as [|x rest IH]; intros cur fuel Hc Hf; (destruct fuel as [|fuel]; [simpl in Hf; lia|]).
  - destruct Hc as (l & Hl & Hn). cbn [ring_pred].
    rewrite (bind_Ok _ _ s (l_next l) s) by prim_run.
    rewrite decide_True by done. reflexivity.
  - destruct Hc as (l & Hl & Hn & Hne & Hc). cbn [ring_pred].
    rewrite (bind_Ok _ _ s (l_next l) s) by prim_run.
    rewrite decide_False by congruence. rewrite Hn.
    by rewrite (IH x fuel Hc) by (simpl in Hf; lia).
Qed.

Lemma degree_loop_chain s start rest : ∀ cur fuel dgr,
  chain (hl s) cur rest start → length rest < fuel →
  degree_loop fuel start cur dgr s = Ok (S (dgr + length rest)) s.
Proof.
  induction rest as [|x rest IH]; intros cur fuel dgr Hc Hf; (destruct fuel as [|fuel]; [simpl in Hf; lia|]).
  - destruct Hc as (l & Hl & Hn). cbn [degree_loop].
    rewrite (bind_Ok _ _ s (l_next l) s) by prim_run.
    rewrite decide_True by done. simpl. rewrite Nat.add_0_r. reflexivity.
  - destruct Hc as (l & Hl & Hn & Hne & Hc). cbn [degree_loop].
    rewrite (bind_Ok _ _ s (l_next l) s) by prim_run.
    rewrite decide_False by congruence. rewrite Hn.
    rewrite (IH x fuel (S dgr) Hc) by (simpl in Hf; lia).
    simpl. do 2 f_equal. lia.
Qed.

Lemma degree_ring s n x rest fuel :
  hn s !! n = Some x → ring (hl s) (n_link x) rest → length rest < fuel →
  degree fuel n s = Ok (S (length rest)) s.
Proof.
  intros Hn Hr Hf. unfold degree.
  rewrite (bind_Ok _ _ s (n_link x) s) by prim_run.
  by rewrite (degree_loop_chain s _ rest).
Qed.

Lemma chain_insert_fresh h cur rest stop p v :
  h !! p = None → chain h cur rest stop → chain (<[p:=v]> h) cur rest stop.
Proof.
  intros Hp. revert cur. induction rest as [|y rest IH]; intros cur.
  - intros (l & Hl & Hn). exists l. rewrite lookup_insert_ne by congruence. done.
  - intros (l & Hl & Hn & Hne & Hc). exists l.
    rewrite lookup_insert_ne by congruence. eauto.
Qed.

Lemma chain_mono h h' cur rest stop :
  h ⊆ h' → chain h cur rest stop → chain h' cur rest stop.
Proof.
  intros Hsub. revert cur. induction rest as [|y rest IH]; intros cur.
  - intros (l & Hl & Hn). exists l. eauto using lookup_weaken.
  - intros (l & Hl & Hn & Hne & Hc). exists l. eauto 6 using lookup_weaken.
Qed.

Lemma chain_last_live h cur rest stop :
  chain h cur rest stop → ∃ l, h !! chain_last cur rest = Some l ∧ l_next l = stop.
Proof.
  revert cur. induction rest as [|y rest IH]; intros cur.
  - intros (l & Hl & Hn). by exists l.
  - intros (l & Hl & Hn & Hne & Hc). by apply IH.
Qed.

End Rings.

(** ** Membership tests *)

Section Belongs.
Context {ND ED : Type} {PN : Payload ND} {PE : Payload ED}.
Implicit Types s : State ND ED.

Lemma belongs_to_node_true s n x :
  hn s !! n = Some x → nodes_ s !! n_index x = Some n →
  belongs_to_node n s = Ok true s.
Proof. intros Hn Hb. prim_run. by rewrite bool_decide_eq_true_2. Qed.

Lemma belongs_to_node_false s n :
  node_outside s n → belongs_to_node n s = Ok false s.
Proof. intros (x & Hn & Hb). prim_run. by rewrite bool_decide_eq_false_2. Qed.

Lemma belongs_to_edge_false s e :
  edge_outside s e → belongs_to_edge e s = Ok false s.
Proof. intros (x & Hn & Hb). prim_run. by rewrite bool_decide_eq_false_2. Qed.

Lemma belongs_to_link_false s l :
  link_outside s l → belongs_to_link l s = Ok false s.
Proof. intros (x & Hn & Hb). prim_run. by rewrite bool_decide_eq_false_2. Qed.

Lemma belongs_to_edge_true s e x :
  he s !! e = Some x → edges_ s !! e_index x = Some e →
  belongs_to_edge e s = Ok true s.
Proof. intros Hn Hb. prim_run. by rewrite bool_decide_eq_true_2. Qed.

Lemma belongs_to_link_true s l x :
  hl s !! l = Some x → links_ s !! l_index x = Some l →
  belongs_to_link l s = Ok true s.
Proof. intros Hn Hb. prim_run. by rewrite bool_decide_eq_true_2. Qed.

End Belongs.

(** ** Dispatch of [delete_node], precondition failures, [delete_edge] *)

Section Dispatch.
Context {ND ED : Type} {PN : Payload ND} {PE : Payload ED}.
Implicit Types s : State ND ED.

(** For every node [n] of the tree, [delete_node] looks at the degree of
    [n] alone: degree 1 runs [delete_leaf_node], degree 2 runs
    [delete_linear_node] (without callback), and any degree from 3 on runs
    [delete_subtree] on the subtree view at the primary link of [n]. *)
Lemma delete_node_by_degree s n x rest fuel :
  hn s !! n = Some x →
  nodes_ s !! n_index x = Some n →
  ring (hl s) (n_link x) rest →
  length rest < fuel →
  let deg := S (length rest) in
  degree fuel n s = Ok deg s ∧
  (deg = 1 → delete_node fuel n s = delete_leaf_node fuel n s) ∧
  (deg = 2 → delete_node fuel n s = delete_linear_node fuel n None s) ∧
  (3 ≤ deg → delete_node fuel n s = delete_subtree fuel (mkSubtree (n_link x)) s).
Proof.
  intros Hn Hb Hr Hf deg.
  pose proof (degree_ring s n x rest fuel Hn Hr Hf) as Hdeg. fold deg in Hdeg.
  assert (delete_node fuel n s =
    (if decide (deg = 1) then delete_leaf_node fuel n
     else if decide (deg = 2) then delete_linear_node fuel n None
     else (bind (Subtree_of_node n) (λ sub, delete_subtree fuel sub))) s) as Hd.
  { unfold delete_node.
    rewrite (bind_Ok _ _ s true s) by by apply (belongs_to_node_true s n x).
    cbn [negb]. by rewrite (bind_Ok _ _ s deg s). }
  split; [done|]. split; [|split]; intros Hk; rewrite Hd.
  - by rewrite decide_True.
  - rewrite decide_False by lia. by rewrite decide_True.
  - rewrite !decide_False by lia.
    by rewrite (bind_Ok _ _ s (mkSubtree (n_link x)) s) by prim_run.
Qed.

(** C8: a node, edge, link or subtree that does not belong to the tree, or
    a node of the wrong degree, makes each manipulation function throw, and
    the store in which the exception is raised is the store of the call:
    nothing has been changed. *)
Theorem precondition_failure_keeps_tree s :
  (∀ fuel n, node_outside s n →
     ∃ msg, add_new_node fuel n s = Throw msg s) ∧
  (∀ e adjust_edges, edge_outside s e →
     ∃ msg, add_new_node_edge e adjust_edges s = Throw msg s) ∧
  (∀ fuel n, node_outside s n →
     ∃ msg, delete_node fuel n s = Throw msg s) ∧
  (∀ fuel n, node_outside s n →
     ∃ msg, delete_leaf_node fuel n s = Throw msg s) ∧
  (∀ fuel n adjust_edges, node_outside s n →
     ∃ msg, delete_linear_node fuel n adjust_edges s = Throw msg s) ∧
  (∀ fuel sub, link_outside s (subtree_link sub) →
     ∃ msg, delete_subtree fuel sub s = Throw msg s) ∧
  (∀ fuel l, link_outside s l →
     ∃ msg, reroot fuel l s = Throw msg s) ∧
  (∀ fuel n, node_outside s n →
     ∃ msg, reroot_node fuel n s = Throw msg s) ∧
  (∀ fuel n rest, node_with_ring s n rest → length rest < fuel →
     S (length rest) ≠ 1 →
     ∃ msg, delete_leaf_node fuel n s = Throw msg s) ∧
  (∀ fuel n rest adjust_edges, node_with_ring s n rest → length rest < fuel →
     S (length rest) ≠ 2 →
     ∃ msg, delete_linear_node fuel n adjust_edges s = Throw msg s).
Proof.
  repeat split.
  - intros fuel n Ho. eexists. unfold add_new_node.
    by rewrite (bind_Ok _ _ s false s) by by apply belongs_to_node_false.
  - intros e cb Ho. eexists. unfold add_new_node_edge.
    by rewrite (bind_Ok _ _ s false s) by by apply belongs_to_edge_false.
  - intros fuel n Ho. eexists. unfold delete_node.
    by rewrite (bind_Ok _ _ s false s) by by apply belongs_to_node_false.
  - intros fuel n Ho. eexists. unfold delete_leaf_node.
    by rewrite (bind_Ok _ _ s false s) by by apply belongs_to_node_false.
  - intros fuel n cb Ho. eexists. unfold delete_linear_node.
    by rewrite (bind_Ok _ _ s false s) by by apply belongs_to_node_false.
  - intros fuel sub Ho. eexists. unfold delete_subtree.
    by rewrite (bind_Ok _ _ s false s) by by apply belongs_to_link_false.
  - intros fuel l Ho. eexists. unfold reroot.
    by rewrite (bind_Ok _ _ s false s) by by apply belongs_to_link_false.
  - intros fuel n Ho. eexists. unfold reroot_node.
    by rewrite (bind_Ok _ _ s false s) by by apply belongs_to_node_false.
  - intros fuel n rest (x & Hn & Hb & Hr) Hf Hd. eexists. unfold delete_leaf_node.
    rewrite (bind_Ok _ _ s true s) by by apply (belongs_to_node_true s n x).
    cbn [negb].
    rewrite (bind_Ok _ _ s _ s (degree_ring s n x rest fuel Hn Hr Hf)).
    by rewrite bool_decide_eq_false_2.
  - intros fuel n rest cb (x & Hn & Hb & Hr) Hf Hd. eexists. unfold delete_linear_node.
    rewrite (bind_Ok _ _ s true s) by by apply (belongs_to_node_true s n x).
    cbn [negb].
    rewrite (bind_Ok _ _ s _ s (degree_ring s n x rest fuel Hn Hr Hf)).
    by rewrite bool_decide_eq_false_2.
Qed.

(** C9: [delete_edge] has an empty body: whatever the edge and the callback
    are, it returns normally in the store it was called in. *)
Theorem delete_edge_noop s (target_edge : ptr) (adjust_nodes : callback ND ED) :
  delete_edge target_edge adjust_nodes s = Ok tt s.
Proof. reflexivity. Qed.

End Dispatch.

(** ** Node insertion *)

(** Forward execution of an allocation; names the new address and records
    that it was not live before. *)
Ltac mstep_new p Hp :=
  mstep;
  match goal with
  | |- context [fresh_ptr ?h] =>
      set (p := fresh_ptr h) in *;
      assert (h !! p = None) as Hp by apply fresh_ptr_None
  end.

Section Insertion.
Context {ND ED : Type} {PN : Payload ND} {PE : Payload ED}.
Implicit Types s : State ND ED.

(** The store after the rewiring of the edge-splitting overload. *)
Lemma add_new_node_edge_rewire_spec s e te lp ls d pnx dn :
  he s !! e = Some te →
  hl s !! e_link_p te = Some lp →
  hl s !! e_link_s te = Some ls →
  e_link_p te ≠ e_link_s te →
  e_data te = Some d →
  hn s !! l_node lp = Some pnx →
  n_data pnx = Some dn →
  ∃ s1 pri_link sec_link mid_node sec_edge,
    add_new_node_edge_rewire e s = Ok (mid_node, sec_edge) s1 ∧
    (hl s !! pri_link = None ∧ hl s !! sec_link = None ∧ pri_link ≠ sec_link ∧
     hn s !! mid_node = None ∧ he s !! sec_edge = None) ∧
    links_ s1 = links_ s ++ [pri_link; sec_link] ∧
    nodes_ s1 = nodes_ s ++ [mid_node] ∧
    edges_ s1 = edges_ s ++ [sec_edge] ∧
    hn s1 !! mid_node = Some (mkNode (length (nodes_ s)) pri_link (Some (recreate dn))) ∧
    hl s1 !! pri_link =
      Some (mkLink (length (links_ s)) sec_link (e_link_p te) mid_node e) ∧
    hl s1 !! sec_link =
      Some (mkLink (S (length (links_ s))) pri_link (e_link_s te) mid_node sec_edge) ∧
    hl s1 !! e_link_p te =
      Some (mkLink (l_index lp) (l_next lp) pri_link (l_node lp) (l_edge lp)) ∧
    hl s1 !! e_link_s te =
      Some (mkLink (l_index ls) (l_next ls) sec_link (l_node ls) sec_edge) ∧
    he s1 !! sec_edge =
      Some (mkEdge (length (edges_ s)) sec_link (e_link_s te) (Some (recreate d))) ∧
    he s1 !! e = Some (mkEdge (e_index te) (e_link_p te) pri_link (e_data te)).
Proof.
  intros He Hp Hs Hne Hd Hn Hdn.
  set (pri0 := fresh_ptr (hl s)).
  set (sec0 := fresh_ptr (<[pri0:=mkLink 0 nullptr nullptr nullptr nullptr]> (hl s))).
  eexists _, pri0, sec0, (fresh_ptr (hn s)), (fresh_ptr (he s)).
  subst pri0 sec0. split.
  - unfold add_new_node_edge_rewire.
    mstep_new pri Hpri. mstep_new sec Hsec.
    apply lookup_insert_None in Hsec as [Hsec Hps].
    mstep_new mid Hmid. mstep_new sede Hsede.
    repeat mstep. reflexivity.
  - set (pri := fresh_ptr (hl s)).
    set (sec := fresh_ptr (<[pri:=_]> _)).
    assert (hl s !! pri = None) as Hpri by apply fresh_ptr_None.
    assert (<[pri:=mkLink 0 nullptr nullptr nullptr nullptr]> (hl s) !! sec = None)
      as Hsec by apply fresh_ptr_None.
    apply lookup_insert_None in Hsec as [Hsec Hps].
    pose proof (fresh_ptr_None (hn s)). pose proof (fresh_ptr_None (he s)).
    cbn [links_ nodes_ edges_ hl hn he].
    rewrite length_app, <- !app_assoc. cbn [length app].
    replace (length (links_ s) + 1) with (S (length (links_ s))) by lia.
    repeat split; try done; lookup_simpl; done.
Qed.

(** C7: the edge-splitting overload.  After the rewiring the former primary
    link of [e] has the new primary-side link as its outer, the former
    secondary link has the new secondary-side link as its outer and sits on
    the new edge, and [e] ends in the new primary-side link of the mid node.
    The whole call is the rewiring followed by one run of the callback on
    [(e, new_edge)], or by nothing when there is no callback, in which case
    the payload of the new edge is the one cloned from the payload of [e]. *)
Theorem add_new_node_edge_split s e te lp ls d pnx dn (adjust_edges : callback ND ED) :
  he s !! e = Some te →
  edges_ s !! e_index te = Some e →
  hl s !! e_link_p te = Some lp →
  hl s !! e_link_s te = Some ls →
  e_link_p te ≠ e_link_s te →
  e_data te = Some d →
  hn s !! l_node lp = Some pnx →
  n_data pnx = Some dn →
  ∃ s1 pri_link sec_link mid_node new_edge,
    (* the new elements *)
    (hl s !! pri_link = None ∧ hl s !! sec_link = None ∧ pri_link ≠ sec_link ∧
     hn s !! mid_node = None ∧ he s !! new_edge = None) ∧
    hn s1 !! mid_node = Some (mkNode (length (nodes_ s)) pri_link (Some (recreate dn))) ∧
    hl s1 !! pri_link =
      Some (mkLink (length (links_ s)) sec_link (e_link_p te) mid_node e) ∧
    hl s1 !! sec_link =
      Some (mkLink (S (length (links_ s))) pri_link (e_link_s te) mid_node new_edge) ∧
    he s1 !! new_edge =
      Some (mkEdge (length (edges_ s)) sec_link (e_link_s te) (Some (recreate d))) ∧
    (* the rewired old elements *)
    hl s1 !! e_link_p te =
      Some (mkLink (l_index lp) (l_next lp) pri_link (l_node lp) (l_edge lp)) ∧
    hl s1 !! e_link_s te =
      Some (mkLink (l_index ls) (l_next ls) sec_link (l_node ls) new_edge) ∧
    he s1 !! e = Some (mkEdge (e_index te) (e_link_p te) pri_link (e_data te)) ∧
    (* the callback runs once, on the rewired store *)
    add_new_node_edge e adjust_edges s =
      match adjust_edges with
      | Some f => bind (f e new_edge) (λ _, ret mid_node) s1
      | None => Ok mid_node s1
      end.
Proof.
  intros He Hb Hp Hs Hne Hd Hn Hdn.
  destruct (add_new_node_edge_rewire_spec s e te lp ls d pnx dn)
    as (s1 & pri & sec & mid & sede & Hrun & Hnew & _ & _ & _ & Hmid & Hpri & Hsec
        & Hlp & Hls & Hsede & Hte); try done.
  exists s1, pri, sec, mid, sede. repeat (split; [done|]).
  unfold add_new_node_edge.
  rewrite (bind_Ok _ _ s true s) by by apply (belongs_to_edge_true s e te).
  cbn [negb]. rewrite (bind_Ok _ _ s _ _ Hrun). cbn [fst snd].
  destruct adjust_edges as [f|]; reflexivity.
Qed.

(** The leaf-attaching overload reads both payloads unchecked. *)
Lemma add_new_node_missing_payload s n x rest l erec fuel :
  hn s !! n = Some x →
  nodes_ s !! n_index x = Some n →
  ring (hl s) (n_link x) rest →
  length rest < fuel →
  hl s !! n_link x = Some l →
  he s !! l_edge l = Some erec →
  n_data x = None ∨ e_data erec = None →
  add_new_node fuel n s = Fault.
Proof.
  intros Hn Hb Hr Hf Hl He Hnone.
  unfold add_new_node.
  rewrite (bind_Ok _ _ s true s) by (prim_run; by rewrite bool_decide_eq_true_2).
  cbn [negb].
  mstep_new con Hcon. mstep_new end_ Hend.
  apply lookup_insert_None in Hend as [Hend Hce].
  mstep_new en Hen. mstep_new ce Hce'.
  do 6 mstep.
  destruct (chain_last_live _ _ _ _ Hr) as (ll & Hll & Hlln).
  mstep_by ltac:(apply (ring_pred_chain _ _ rest); [|done]; cbn [hl];
    eapply chain_mono; [|exact Hr];
    apply map_subseteq_spec; intros q lq Hq; by lookup_simpl).
  remember (chain_last (n_link x) rest) as last eqn:Hlast. clear Hlast.
  destruct (decide (last = n_link x)) as [->|Hneq];
    [assert (ll = l) as -> by congruence; clear Hll|].
  all: repeat mstep.
  all: destruct (n_data x) as [dn|] eqn:Hdn;
    [|rewrite bind_Fault; [done|]; prim_run].
  all: destruct Hnone as [?|Hed]; [done|].
  all: repeat mstep.
  all: rewrite bind_Fault; [done|]; prim_run.
Qed.

(** The edge-splitting overload reads both payloads unchecked. *)
Lemma add_new_node_edge_missing_payload s e te lp ls pnx (adjust_edges : callback ND ED) :
  he s !! e = Some te →
  edges_ s !! e_index te = Some e →
  hl s !! e_link_p te = Some lp →
  hl s !! e_link_s te = Some ls →
  hn s !! l_node lp = Some pnx →
  n_data pnx = None ∨ e_data te = None →
  add_new_node_edge e adjust_edges s = Fault.
Proof.
  intros He Hb Hp Hs Hn Hnone.
  unfold add_new_node_edge.
  rewrite (bind_Ok _ _ s true s) by by apply (belongs_to_edge_true s e te).
  cbn [negb]. rewrite bind_Fault; [done|].
  unfold add_new_node_edge_rewire.
  mstep_new pri Hpri. mstep_new sec Hsec.
  apply lookup_insert_None in Hsec as [Hsec Hps].
  mstep_new mid Hmid. mstep_new sede Hsede.
  repeat mstep.
  destruct (n_data pnx) as [dn|] eqn:Hdn.
  2:{ rewrite bind_Fault; [done|]. prim_run. }
  destruct Hnone as [?|Hed]; [done|].
  repeat mstep.
  rewrite bind_Fault; [done|]. prim_run.
Qed.

(** C10: [add_new_node] clones the payload of the target node and of the
    edge at its primary link without looking whether they are there: on a
    node of the tree with a closed ring, a missing payload makes the call
    end in undefined behaviour, not in an exception.  The edge-splitting
    overload does the same with the payload of the target edge and of its
    primary node. *)
Theorem add_new_node_needs_payload s :
  (∀ fuel n x rest l erec,
     hn s !! n = Some x →
     nodes_ s !! n_index x = Some n →
     ring (hl s) (n_link x) rest →
     length rest < fuel →
     hl s !! n_link x = Some l →
     he s !! l_edge l = Some erec →
     n_data x = None ∨ e_data erec = None →
     add_new_node fuel n s = Fault) ∧
  (∀ e te lp ls pnx adjust_edges,
     he s !! e = Some te →
     edges_ s !! e_index te = Some e →
     hl s !! e_link_p te = Some lp →
     hl s !! e_link_s te = Some ls →
     hn s !! l_node lp = Some pnx →
     n_data pnx = None ∨ e_data te = None →
     add_new_node_edge e adjust_edges s = Fault).
Proof.
  split.
  - intros. by eapply add_new_node_missing_payload.
  - intros. by eapply add_new_node_edge_missing_payload.
Qed.

End Insertion.

(** ** Leaf deletion and the root link *)

(** C2: deleting the root when it is a leaf.  The root link kept for the
    final [reset_root_link_index] is the attachment link on the neighbour's
    side, which is one of the two links the function erases: its index is
    read after it was destroyed.  On the path [R - X - Y] rooted at [R] the
    call ends in undefined behaviour instead of making [X] the root. *)
Theorem delete_leaf_node_root_leaf_dangles :
  delete_leaf_node 10 1 path3 = Fault.
Proof. vm_compute. reflexivity. Qed.

(** C3: the same read after destruction happens for a leaf that is not the
    root, when the root link is the link that faces it: on the path
    [R - X - Y] rooted at [X] through the link facing [R], deleting the leaf
    [R] does not yield a store, whereas deleting the leaf [Y] gives the
    counts and the indices of the claim. *)
Theorem delete_leaf_node_at_root_link_dangles :
  delete_leaf_node 10 1 path3_at_x = Fault ∧
  ∃ s', delete_leaf_node 10 3 path3_at_x = Ok tt s' ∧
        length (nodes_ s') = 2 ∧ length (edges_ s') = 1 ∧ length (links_ s') = 2.
Proof.
  split; [vm_compute; reflexivity|].
  eexists. split; [vm_compute; reflexivity|]. by vm_compute.
Qed.

(** ** Rerooting *)

Section Reroot.
Context {ND ED : Type} {PN : Payload ND} {PE : Payload ED}.
Implicit Types s : State ND ED.

Lemma swap_links_involutive (e : TreeEdge ED) : swap_links (swap_links e) = e.
Proof. by destruct e. Qed.

Lemma reroot_loop_step s h root x fuel :
  hop_ok s h → h_from h ≠ root → hn s !! h_to h = Some x →
  reroot_loop (S fuel) root (h_cur h) s =
  reroot_loop fuel root (n_link x)
    (set_hn (alter (set_primary (h_out h)) (h_to h))
       (set_he (alter swap_links (h_edge h)) s)).
Proof.
  intros (l & lo & Hl & Hln & Hle & Hlo & Hlo' & Hlon & Hloe & Hloo & [e He]) Hne Hx.
  destruct l as [li lnx lou lno led], lo as [li' lnx' lou' lno' led'].
  cbn [l_index l_next l_outer l_node l_edge] in *. subst.
  cbn [reroot_loop]. mstep. rewrite decide_False by done.
  repeat mstep.
  f_equal. unfold set_hn, set_he. cbn [links_ nodes_ edges_ root_link_index_ hl hn he].
  f_equal.
  - by rewrite (alter_alt_Some _ _ _ x).
  - by rewrite (alter_alt_Some _ _ _ e).
Qed.

Lemma flip_he_is_Some hops (m : gmap ptr (TreeEdge ED)) e :
  is_Some (flip_he hops m !! e) ↔ is_Some (m !! e).
Proof.
  revert m. induction hops as [|h hops IH]; intros m; [done|].
  cbn [flip_he foldl]. fold (flip_he hops (alter swap_links (h_edge h) m)).
  rewrite IH. apply lookup_alter_is_Some.
Qed.

Lemma flip_hn_is_Some hops (m : gmap ptr (TreeNode ND)) v :
  is_Some (flip_hn hops m !! v) ↔ is_Some (m !! v).
Proof.
  revert m. induction hops as [|h hops IH]; intros m; [done|].
  cbn [flip_hn foldl]. fold (flip_hn hops (alter (set_primary (h_out h)) (h_to h) m)).
  rewrite IH. apply lookup_alter_is_Some.
Qed.

Lemma flip_hn_frame hops (m : gmap ptr (TreeNode ND)) v :
  v ∉ map h_to hops → flip_hn hops m !! v = m !! v.
Proof.
  revert m. induction hops as [|h hops IH]; intros m Hv; [done|].
  cbn [flip_hn foldl]. fold (flip_hn hops (alter (set_primary (h_out h)) (h_to h) m)).
  cbn [map] in Hv. apply not_elem_of_cons in Hv as [Hv1 Hv2].
  rewrite IH by done. by rewrite lookup_alter_ne.
Qed.

Lemma flip_hn_snoc hops h (m : gmap ptr (TreeNode ND)) :
  flip_hn (hops ++ [h]) m = alter (set_primary (h_out h)) (h_to h) (flip_hn hops m).
Proof. unfold flip_hn. by rewrite foldl_app. Qed.

Lemma flip_he_snoc hops h (m : gmap ptr (TreeEdge ED)) :
  flip_he (hops ++ [h]) m = alter swap_links (h_edge h) (flip_he hops m).
Proof. unfold flip_he. by rewrite foldl_app. Qed.

Lemma hop_ok_frame s s' h :
  hl s' = hl s → (∀ e, is_Some (he s' !! e) ↔ is_Some (he s !! e)) →
  hop_ok s h → hop_ok s' h.
Proof.
  intros Hhl Hhe (l & lo & H). exists l, lo. rewrite Hhl, Hhe. done.
Qed.

Lemma hop_ok_rev s h : hop_ok s h → hop_ok s (rev_hop h).
Proof.
  intros (l & lo & ? & ? & ? & ? & ? & ? & ? & ? & ?). exists lo, l.
  cbn [rev_hop h_from h_cur h_edge h_out h_to]. done.
Qed.

Lemma walk_up_frame s s' cur hops root :
  hl s' = hl s →
  (∀ e, is_Some (he s' !! e) ↔ is_Some (he s !! e)) →
  (∀ v, v ∈ map h_to hops → hn s' !! v = hn s !! v) →
  walk_up s cur hops root → walk_up s' cur hops root.
Proof.
  intros Hhl Hhe. revert cur. induction hops as [|h hops IH]; intros cur Hhn.
  - cbn [walk_up]. by rewrite Hhl.
  - cbn [walk_up]. intros (Hc & Hok & Hne & x & Hx & Hw).
    split; [done|]. split; [by eapply hop_ok_frame|]. split; [done|].
    exists x. split.
    + rewrite Hhn; [done|]. cbn [map]. apply elem_of_cons. by left.
    + apply IH; [|done]. intros v Hv. apply Hhn. cbn [map]. apply elem_of_cons. by right.
Qed.

(** The loop of [reroot] performs the flips of the walk, in order. *)
Lemma reroot_loop_spec hops : ∀ s cur root fuel,
  walk_up s cur hops root → NoDup (map h_to hops) → length hops < fuel →
  reroot_loop fuel root cur s = Ok tt (flip_all hops s).
Proof.
  induction hops as [|h hops IH]; intros s cur root fuel Hw Hnd Hf;
    (destruct fuel as [|fuel]; [cbn in Hf; lia|]).
  - destruct Hw as (l & Hl & Hn). cbn [reroot_loop]. mstep.
    rewrite Hn, decide_True by done. unfold flip_all, ret, set_hn, set_he.
    cbn. by destruct s.
  - destruct Hw as (<- & Hok & Hne & x & Hx & Hw).
    cbn [map] in Hnd. apply NoDup_cons in Hnd as [Hnin Hnd].
    rewrite (reroot_loop_step s h root x) by done.
    rewrite (IH _ (n_link x) root fuel); [done| |done|cbn in Hf; lia].
    eapply walk_up_frame; [..|exact Hw]; [done| |].
    + intros e. cbn [he set_hn set_he]. apply lookup_alter_is_Some.
    + intros v Hv. cbn [hn set_hn set_he]. apply lookup_alter_ne. by intros <-.
Qed.

Lemma alter_set_primary_twice (m : gmap ptr (TreeNode ND)) v a b :
  alter (set_primary a) v (alter (set_primary b) v m) = alter (set_primary a) v m.
Proof. rewrite alter_alter_eq. by apply alter_ext. Qed.

Lemma alter_set_primary_id (m : gmap ptr (TreeNode ND)) v x a :
  m !! v = Some x → n_link x = a → alter (set_primary a) v m = m.
Proof.
  intros Hv <-. apply alter_id. intros y Hy. rewrite Hv in Hy.
  injection Hy as <-. by destruct x.
Qed.

Lemma alter_swap_links_twice (m : gmap ptr (TreeEdge ED)) e :
  alter swap_links e (alter swap_links e m) = m.
Proof.
  rewrite alter_alter_eq. apply alter_id. intros x _.
  apply swap_links_involutive.
Qed.

Lemma path_nodes_snoc v hops h vend :
  path_nodes v (hops ++ [h]) vend ↔ path_nodes v hops (h_from h) ∧ h_to h = vend.
Proof.
  revert v. induction hops as [|h' hops IH]; intros v; cbn [path_nodes app].
  - split; [by intros [-> ->]|by intros [-> <-]].
  - rewrite IH. tauto.
Qed.

Lemma path_nodes_end v hops vend :
  path_nodes v hops vend → vend ∈ v :: map h_to hops.
Proof.
  revert v. induction hops as [|h hops IH]; intros v; cbn [path_nodes map].
  - intros ->. apply elem_of_cons. by left.
  - intros [_ Hp]. apply elem_of_cons. right. by apply IH.
Qed.

(** Walking back from the old root undoes the flips of the way up. *)
Lemma reroot_back hops : ∀ s v0 vend L R i x' fuel,
  path_up s v0 hops vend →
  NoDup (v0 :: map h_to hops) →
  (∃ lL, hl s !! L = Some lL ∧ l_node lL = v0) →
  (∃ xend, hn s !! vend = Some xend ∧ n_link xend = R) →
  flip_hn hops (alter (set_primary L) v0 (hn s)) !! vend = Some x' →
  length hops < fuel →
  reroot_loop fuel v0 (n_link x')
    (mkState (links_ s) (nodes_ s) (edges_ s) i (hl s)
       (alter (set_primary R) vend (flip_hn hops (alter (set_primary L) v0 (hn s))))
       (flip_he hops (he s)))
  = Ok tt (mkState (links_ s) (nodes_ s) (edges_ s) i (hl s) (hn s) (he s)).
Proof.
  induction hops as [|h hops IH] using rev_ind;
    intros s v0 vend L R i x' fuel (Hpn & Hok & Hprim) Hnd (lL & HlL & HnL)
      (xend & Hxend & Hrend) Hx' Hf;
    (destruct fuel as [|fuel]; [rewrite ?length_app in Hf; cbn in Hf; lia|]).
  - cbn [path_nodes] in Hpn. subst vend. cbn [flip_hn flip_he foldl] in *.
    rewrite lookup_alter_eq, Hxend in Hx'. injection Hx' as <-.
    cbn [reroot_loop set_primary n_link]. mstep.
    rewrite HnL, decide_True by done.
    rewrite alter_set_primary_twice, (alter_set_primary_id _ _ xend) by done.
    reflexivity.
  - apply path_nodes_snoc in Hpn as [Hpn Hto].
    apply Forall_app in Hok as [Hok Hokh]. rewrite Forall_singleton in Hokh.
    apply Forall_app in Hprim as [Hprim Hph]. rewrite Forall_singleton in Hph.
    destruct Hph as (xf & Hxf & Hcf).
    rewrite map_app in Hnd. cbn [map] in Hnd. rewrite Hto in Hnd.
    rewrite app_comm_cons in Hnd. apply NoDup_app in Hnd as (Hnd & Hdisj & Hnd3).
    assert (vend ∉ v0 :: map h_to hops) as Hvend.
    { intros Hin. apply (Hdisj _ Hin). by apply list_elem_of_singleton. }
    assert (h_from h ≠ vend) as Hfv.
    { intros E. apply Hvend. rewrite <- E. by apply path_nodes_end. }
    apply not_elem_of_cons in Hvend as [Hv0 Hvt].
    set (M := alter (set_primary L) v0 (hn s)) in *.
    set (N := flip_hn hops M) in *.
    assert (N !! vend = Some xend) as HNend.
    { unfold N. rewrite flip_hn_frame by done. unfold M.
      by rewrite lookup_alter_ne. }
    rewrite flip_hn_snoc, Hto in Hx' |- *. fold N in Hx' |- *.
    rewrite lookup_alter_eq, HNend in Hx'. injection Hx' as <-.
    rewrite alter_set_primary_twice, (alter_set_primary_id N vend xend) by done.
    rewrite flip_he_snoc.
    assert (is_Some (N !! h_from h)) as [x'' Hx''].
    { unfold N. apply flip_hn_is_Some. unfold M. apply lookup_alter_is_Some. eauto. }
    cbn [set_primary n_link].
    change (h_out h) with (h_cur (rev_hop h)).
    rewrite (reroot_loop_step _ (rev_hop h) v0 x'').
    + unfold set_hn, set_he.
      cbn [links_ nodes_ edges_ root_link_index_ hl hn he rev_hop h_from h_cur h_edge h_out h_to].
      rewrite alter_swap_links_twice.
      apply (IH s v0 (h_from h) L (h_cur h) i x'' fuel).
      * done.
      * done.
      * eauto.
      * eauto.
      * done.
      * rewrite length_app in Hf. cbn in Hf. lia.
    + apply hop_ok_rev. eapply hop_ok_frame; [..|exact Hokh]; [done|].
      intros e. cbn [he]. rewrite lookup_alter_is_Some. apply flip_he_is_Some.
    + cbn [rev_hop h_from]. by rewrite Hto.
    + cbn [rev_hop h_to hn]. done.
Qed.

Lemma path_up_walk hops : ∀ s v0 x0 vend xend lend,
  path_up s v0 hops vend →
  NoDup (v0 :: map h_to hops) →
  hn s !! v0 = Some x0 →
  hn s !! vend = Some xend →
  hl s !! n_link xend = Some lend → l_node lend = vend →
  walk_up s (n_link x0) hops vend.
Proof.
  induction hops as [|h hops IH];
    intros s v0 x0 vend xend lend (Hpn & Hok & Hprim) Hnd Hx0 Hxend Hlend Hnend.
  - cbn [path_nodes] in Hpn. subst v0. cbn [walk_up].
    assert (x0 = xend) as -> by congruence. eauto.
  - cbn [path_nodes] in Hpn. destruct Hpn as [Hfrom Hpn].
    apply Forall_cons in Hok as [Hokh Hok]. apply Forall_cons in Hprim as [Hph Hprim].
    destruct Hph as (x & Hx & Hc). rewrite Hfrom in Hx.
    assert (x = x0) as -> by congruence.
    cbn [map] in Hnd. apply NoDup_cons in Hnd as [Hnin Hnd].
    assert (∃ x1, hn s !! h_to h = Some x1) as [x1 Hx1].
    { destruct hops as [|h2 hops].
      - cbn [path_nodes] in Hpn. rewrite Hpn. eauto.
      - cbn [path_nodes] in Hpn. destruct Hpn as [Hf2 _].
        apply Forall_cons in Hprim as [(x2 & Hx2 & _) _]. rewrite Hf2 in Hx2. eauto. }
    cbn [walk_up]. split; [done|]. split; [done|]. split.
    + rewrite Hfrom. intros ->. apply Hnin. by apply path_nodes_end.
    + exists x1. split; [done|]. by apply (IH s (h_to h) x1 vend xend lend).
Qed.

(** C5: rerooting at a link [L] of the tree and then at the former root
    link restores the store, hence the primary and secondary link of every
    edge and the primary link of every node.  The tree is given by the path
    of hops from the node of [L] up to the root along primary links. *)
Theorem reroot_roundtrip s L lL R lR x0 xend hops fuel :
  links_ s !! root_link_index_ s = Some R →
  hl s !! R = Some lR →
  l_index lR = root_link_index_ s →
  hn s !! l_node lR = Some xend →
  n_link xend = R →
  hl s !! L = Some lL →
  links_ s !! l_index lL = Some L →
  hn s !! l_node lL = Some x0 →
  path_up s (l_node lL) hops (l_node lR) →
  NoDup (l_node lL :: map h_to hops) →
  length hops < fuel →
  ∃ s1 s2,
    reroot fuel L s = Ok tt s1 ∧
    links_ s1 !! root_link_index_ s1 = Some L ∧
    reroot fuel R s1 = Ok tt s2 ∧
    he s2 = he s ∧ hn s2 = hn s ∧ s2 = s.
Proof.
  intros Hroot HlR HiR Hxend Hrend HlL HbL Hx0 Hpath Hnd Hf.
  assert (l_node lL ∉ map h_to hops) as Hv0 by by apply NoDup_cons in Hnd as [? _].
  assert (is_Some (flip_hn hops (alter (set_primary L) (l_node lL) (hn s)) !! l_node lR))
    as [x' Hx'].
  { apply flip_hn_is_Some. apply lookup_alter_is_Some. eauto. }
  exists (mkState (links_ s) (nodes_ s) (edges_ s) (l_index lL) (hl s)
            (flip_hn hops (alter (set_primary L) (l_node lL) (hn s)))
            (flip_he hops (he s))), s.
  split; [|split; [done|split; [|done]]].
  - unfold reroot.
    mstep_by ltac:(by apply (belongs_to_link_true s L lL)).
    cbn [negb]. repeat mstep.
    change (mkNode (n_index x0) L (n_data x0)) with (set_primary L x0).
    rewrite <- (alter_alt_Some (set_primary L) (hn s) (l_node lL) x0) by done.
    rewrite (reroot_loop_spec hops _ (n_link x0) (l_node lR) fuel);
      [done| |by apply NoDup_cons in Hnd as [_ ?]|done].
    eapply (walk_up_frame s).
    + done.
    + done.
    + intros v Hv. cbn [hn]. apply lookup_alter_ne. by intros <-.
    + eapply (path_up_walk hops s (l_node lL) x0 _ xend lR); try done.
      by rewrite Hrend.
  - unfold reroot.
    mstep_by ltac:(apply (belongs_to_link_true _ R lR); [done|by rewrite HiR]).
    rewrite <- HiR in Hroot.
    cbn [negb]. repeat mstep.
    change (mkNode (n_index x') R (n_data x')) with (set_primary R x').
    rewrite <- (alter_alt_Some (set_primary R) _ (l_node lR) x') by done.
    rewrite (reroot_back hops s (l_node lL) (l_node lR) L R (l_index lR) x' fuel);
      try done.
    + rewrite HiR. by destruct s.
    + eauto.
    + eauto.
Qed.

End Reroot.

(** ** Bulk compaction *)

Section CompactPure.

Lemma split_positions_length del i old :
  length (split_positions del i old).1 + length (split_positions del i old).2
  = length old.
Proof.
  revert i. induction old as [|p old IH]; intros i; [done|].
  cbn [split_positions]. specialize (IH (S i)).
  case_bool_decide; cbn [fst snd length]; lia.
Qed.

Lemma split_positions_behind_length del i old :
  length (split_positions del i old).2
  = length (filter (λ j, j ∈ del) (seq i (length old))).
Proof.
  revert i. induction old as [|p old IH]; intros i; [done|].
  cbn [split_positions length seq]. rewrite filter_cons.
  specialize (IH (S i)).
  case_bool_decide; rewrite ?decide_True, ?decide_False by done;
    cbn [fst snd length]; lia.
Qed.

(** A duplicate-free deletion list within range removes as many elements as
    it has entries. *)
Lemma split_positions_counts del old :
  NoDup del → Forall (λ d, d < length old) del →
  length (split_positions del 0 old).2 = length del ∧
  length (split_positions del 0 old).1 + length del = length old.
Proof.
  intros Hnd Hrange.
  assert (length (split_positions del 0 old).2 = length del) as Hb.
  { rewrite split_positions_behind_length. apply Permutation_length.
    apply NoDup_Permutation; [apply NoDup_filter, NoDup_seq|done|].
    intros j. rewrite list_elem_of_filter, elem_of_seq.
    rewrite Forall_forall in Hrange. split; [tauto|].
    intros Hj. specialize (Hrange j Hj). split; [done|lia]. }
  split; [done|]. pose proof (split_positions_length del 0 old). lia.
Qed.

Lemma split_positions_keeps del i old j p :
  old !! j = Some p → i + j ∉ del → p ∈ (split_positions del i old).1.
Proof.
  revert i j. induction old as [|q old IH]; intros i j Hj Hn; [done|].
  cbn [split_positions]. destruct j as [|j]; cbn in Hj.
  - injection Hj as ->. rewrite Nat.add_0_r in Hn.
    rewrite bool_decide_eq_false_2 by done. cbn [fst]. apply elem_of_cons. by left.
  - assert (p ∈ (split_positions del (S i) old).1) as Hin.
    { apply (IH (S i) j); [done|]. by replace (S i + j) with (i + S j) by lia. }
    case_bool_decide; cbn [fst]; [done|]. apply elem_of_cons. by right.
Qed.

Lemma split_positions_subset del i old p :
  p ∈ (split_positions del i old).1 → p ∈ old.
Proof.
  revert i. induction old as [|q old IH]; intros i; cbn [split_positions]; [done|].
  case_bool_decide; cbn [fst]; rewrite ?elem_of_cons; naive_solver.
Qed.

(** With a strictly increasing deletion list the cursor of [compact_loop]
    decides membership of the position. *)
Lemma compact_pure_sorted old : ∀ i done todo new behind,
  StronglySorted lt todo →
  Forall (λ d, i ≤ d) todo →
  Forall (λ d, d < i) done →
  compact_pure old i (done ++ todo) (length done) new behind
  = (new ++ (split_positions (done ++ todo) i old).1,
     behind ++ (split_positions (done ++ todo) i old).2).
Proof.
  induction old as [|p old IH]; intros i done todo new behind Hs Hge Hlt.
  - cbn. by rewrite !app_nil_r.
  - cbn [compact_pure split_positions].
    rewrite lookup_app_r, Nat.sub_diag by lia.
    destruct todo as [|d todo].
    + cbn [lookup list_lookup]. rewrite bool_decide_eq_false_2 by done.
      rewrite app_nil_r in *.
      assert (i ∉ done) as Hi.
      { intros Hin. rewrite Forall_forall in Hlt. specialize (Hlt i Hin). lia. }
      rewrite bool_decide_eq_false_2 by done. cbn [fst snd].
      specialize (IH (S i) done [] (new ++ [p]) behind).
      rewrite app_nil_r in IH. rewrite IH; [by rewrite <- app_assoc|done|done|].
      eapply Forall_impl; [exact Hlt|]. cbn. lia.
    + cbn [lookup list_lookup].
      apply StronglySorted_inv in Hs as [Hs Hd].
      apply Forall_cons in Hge as [Hid Hge].
      destruct (decide (d = i)) as [->|Hne].
      * rewrite bool_decide_eq_true_2 by done.
        rewrite (bool_decide_eq_true_2 (i ∈ done ++ i :: todo)) by set_solver.
        cbn [fst snd].
        specialize (IH (S i) (done ++ [i]) todo new (behind ++ [p])).
        rewrite <- app_assoc, length_app in IH. cbn [app length] in IH.
        replace (length done + 1) with (S (length done)) in IH by lia.
        rewrite IH; [by rewrite <- app_assoc|done| |].
        -- eapply Forall_impl; [exact Hd|]. cbn. lia.
        -- apply Forall_app. split; [|by apply Forall_singleton; lia].
           eapply Forall_impl; [exact Hlt|]. cbn. lia.
      * rewrite bool_decide_eq_false_2 by congruence.
        assert (i ∉ done ++ d :: todo) as Hi.
        { rewrite elem_of_app, elem_of_cons. intros [Hin|[->|Hin]]; [|done|].
          - rewrite Forall_forall in Hlt. specialize (Hlt i Hin). lia.
          - rewrite Forall_forall in Hd. specialize (Hd i Hin). lia. }
        rewrite bool_decide_eq_false_2 by done. cbn [fst snd].
        rewrite (IH (S i) done (d :: todo) (new ++ [p]) behind);
          [by rewrite <- app_assoc|by constructor| |].
        -- apply Forall_cons. split; [lia|].
           eapply Forall_impl; [exact Hd|]. cbn. lia.
        -- eapply Forall_impl; [exact Hlt|]. cbn. lia.
Qed.

(** Behaviour of the compaction of a whole vector by a sorted copy of a
    duplicate-free deletion list. *)
Lemma compact_pure_merge_sort old raw :
  NoDup raw → Forall (λ d, d < length old) raw →
  let del := merge_sort (≤) raw in
  let r := compact_pure old 0 del 0 [] [] in
  r = split_positions del 0 old ∧
  length r.2 = length raw ∧
  length r.1 + length raw = length old ∧
  (∀ j p, old !! j = Some p → j ∉ raw → p ∈ r.1) ∧
  (∀ p, p ∈ r.1 → p ∈ old).
Proof.
  intros Hnd Hrange del r.
  assert (del ≡ₚ raw) as Hperm by apply merge_sort_Permutation.
  assert (NoDup del) as Hnd' by by rewrite Hperm.
  assert (Forall (λ d, d < length old) del) as Hrange' by by rewrite Hperm.
  assert (StronglySorted lt del) as Hs.
  { pose proof (StronglySorted_merge_sort (≤) raw) as Hle. fold del in Hle.
    clear -Hle Hnd'. induction Hle as [|d l Hl IH Hall]; [constructor|].
    apply NoDup_cons in Hnd' as [Hd Hnd']. constructor; [by apply IH|].
    rewrite Forall_forall in Hall |- *. intros y Hy. specialize (Hall y Hy).
    assert (y ≠ d) by (by intros ->). lia. }
  assert (r = split_positions del 0 old) as Hr.
  { unfold r. pose proof (compact_pure_sorted old 0 [] del [] [] Hs) as H.
    cbn [app length] in H. rewrite H; [by destruct (split_positions del 0 old)| |done].
    apply Forall_forall. intros. lia. }
  split; [done|]. rewrite Hr.
  destruct (split_positions_counts del old Hnd' Hrange') as [H1 H2].
  rewrite (Permutation_length Hperm) in H1, H2.
  repeat split; [done|done| |].
  - intros j p Hj Hn. apply (split_positions_keeps del 0 old j p Hj). cbn.
    by rewrite Hperm.
  - intros p. apply split_positions_subset.
Qed.

Lemma compact_pure_prefix old : ∀ i del di new behind,
  ∃ k, (compact_pure old i del di new behind).1 = new ++ k.
Proof.
  induction old as [|p old IH]; intros i del di new behind; cbn [compact_pure].
  - exists []. by rewrite app_nil_r.
  - case_bool_decide; [apply IH|].
    destruct (IH (S i) del di (new ++ [p]) behind) as [k Hk].
    exists ([p] ++ k). by rewrite Hk, <- app_assoc.
Qed.

End CompactPure.

(** The loop itself, for any of the three element classes: [get] and [put]
    select the heap of the class, [idx] reads the stored index of an
    element, and [reset] is the class's [reset_index]. *)
Section CompactLoop.
Context {ND ED : Type} {PN : Payload ND} {PE : Payload ED}.
Implicit Types s : State ND ED.
Context {H : Type}.
Variable get : State ND ED → H.
Variable put : H → State ND ED → State ND ED.
Variable idx : H → ptr → option nat.
Variable reset : ptr → nat → M ND ED unit.
Hypothesis get_put : ∀ h s, get (put h s) = h.
Hypothesis put_put : ∀ h h' s, put h (put h' s) = put h s.
Hypothesis put_get : ∀ s, put (get s) s = s.
Hypothesis reset_ok : ∀ s p j,
  is_Some (idx (get s) p) →
  ∃ h', reset p j s = Ok tt (put h' s) ∧
        idx h' p = Some j ∧ ∀ q, q ≠ p → idx h' q = idx (get s) q.

Lemma compact_loop_ok old : ∀ i del di new behind s,
  (∀ p, p ∈ old → is_Some (idx (get s) p)) →
  NoDup old →
  (∀ p, p ∈ new → p ∉ old) →
  (∀ j p, new !! j = Some p → idx (get s) p = Some j) →
  length new + di = i →
  ∃ h',
    compact_loop reset old i del di new behind s
    = Ok (compact_pure old i del di new behind) (put h' s) ∧
    (∀ j p, (compact_pure old i del di new behind).1 !! j = Some p →
            idx h' p = Some j) ∧
    (∀ q, q ∉ (compact_pure old i del di new behind).1 → idx h' q = idx (get s) q).
Proof using get_put put_put put_get reset_ok.
  induction old as [|p old IH]; intros i del di new behind s Hlive Hnd Hnew Hidx Hlen.
  - exists (get s). cbn [compact_loop compact_pure fst]. rewrite put_get. done.
  - cbn [compact_loop compact_pure]. apply NoDup_cons in Hnd as [Hp Hnd].
    case_bool_decide.
    + destruct (IH (S i) del (S di) new (behind ++ [p]) s) as (h' & Hrun & Hi & Hf).
      * intros q Hq. apply Hlive. apply elem_of_cons. by right.
      * done.
      * intros q Hq Hq'. apply (Hnew q Hq). apply elem_of_cons. by right.
      * done.
      * lia.
      * exists h'. done.
    + destruct (reset_ok s p (i - di)) as (h1 & Hreset & Hp1 & Hq1).
      { apply Hlive. apply elem_of_cons. by left. }
      rewrite (bind_Ok _ _ s tt (put h1 s) Hreset).
      destruct (IH (S i) del di (new ++ [p]) behind (put h1 s)) as (h' & Hrun & Hi & Hf).
      * intros q Hq. rewrite get_put, Hq1.
        -- apply Hlive. apply elem_of_cons. by right.
        -- by intros ->.
      * done.
      * intros q Hq Hq'. apply elem_of_app in Hq as [Hq|Hq].
        -- apply (Hnew q Hq). apply elem_of_cons. by right.
        -- apply list_elem_of_singleton in Hq as ->. done.
      * intros j q Hj. rewrite get_put.
        destruct (decide (j < length new)) as [Hlt|Hge].
        -- rewrite lookup_app_l in Hj by done. rewrite Hq1; [by apply Hidx|].
           intros ->. apply (Hnew p); [by eapply list_elem_of_lookup_2|].
           apply elem_of_cons. by left.
        -- rewrite lookup_app_r in Hj by lia.
           destruct (j - length new) as [|k] eqn:Hk; [|done].
           cbn in Hj. injection Hj as <-. rewrite Hp1. f_equal. lia.
      * rewrite length_app. cbn. lia.
      * rewrite put_put in Hrun. exists h'. split; [done|]. split; [done|].
        intros q Hq. rewrite Hf by done. rewrite get_put. apply Hq1.
        intros ->. apply Hq.
        destruct (compact_pure_prefix old (S i) del di (new ++ [p]) behind) as [k ->].
        rewrite !elem_of_app, list_elem_of_singleton. tauto.
Qed.

End CompactLoop.

Section CompactVectors.
Context {ND ED : Type} {PN : Payload ND} {PE : Payload ED}.
Implicit Types s : State ND ED.

Lemma compact_nodes_ok s raw :
  (∀ p, p ∈ nodes_ s → is_Some (hn s !! p)) →
  NoDup (nodes_ s) →
  NoDup raw →
  Forall (λ d, d < length (nodes_ s)) raw →
  ∃ h' new behind,
    compact_nodes (merge_sort (≤) raw) s
    = Ok behind (set_nodes (λ _, new) (set_hn (λ _, h') s)) ∧
    length new + length raw = length (nodes_ s) ∧
    (∀ j p, new !! j = Some p → n_index <$> h' !! p = Some j) ∧
    (∀ q, q ∉ new → n_index <$> h' !! q = n_index <$> hn s !! q) ∧
    (∀ j p, nodes_ s !! j = Some p → j ∉ raw → p ∈ new) ∧
    (∀ p, p ∈ new → p ∈ nodes_ s).
Proof.
  intros Hlive Hnd Hraw Hrange.
  destruct (compact_pure_merge_sort (nodes_ s) raw Hraw Hrange)
    as (_ & _ & Hlen & Hkeep & Hsub).
  destruct (compact_loop_ok (ND:=ND) (ED:=ED) hn (λ h, set_hn (λ _, h)) (λ h p, n_index <$> h !! p)
              node_reset_index) with (old := nodes_ s) (i := 0)
              (del := merge_sort (≤) raw) (di := 0) (new := @nil ptr)
              (behind := @nil ptr) (s := s)
    as (h' & Hrun & Hidx & Hframe); try done.
  - by intros [].
  - intros s0 p j [i Hi]. destruct (hn s0 !! p) as [x|] eqn:Hx; [|done].
    eexists. split; [prim_run|]. split.
    + by rewrite lookup_insert_eq.
    + intros q Hq. by rewrite lookup_insert_ne.
  - intros p Hp. destruct (Hlive p Hp) as [x ->]. by eexists.
  - intros p Hp. by apply elem_of_nil in Hp.
  - exists h', (compact_pure (nodes_ s) 0 (merge_sort (≤) raw) 0 [] []).1,
      (compact_pure (nodes_ s) 0 (merge_sort (≤) raw) 0 [] []).2.
    split; [|done].
    unfold compact_nodes. rewrite (bind_Ok _ _ s (nodes_ s) s) by done.
    rewrite (bind_Ok _ _ s _ _ Hrun). reflexivity.
Qed.

Lemma compact_edges_ok s raw :
  (∀ p, p ∈ edges_ s → is_Some (he s !! p)) →
  NoDup (edges_ s) →
  NoDup raw →
  Forall (λ d, d < length (edges_ s)) raw →
  ∃ h' new behind,
    compact_edges (merge_sort (≤) raw) s
    = Ok behind (set_edges (λ _, new) (set_he (λ _, h') s)) ∧
    length new + length raw = length (edges_ s) ∧
    (∀ j p, new !! j = Some p → e_index <$> h' !! p = Some j) ∧
    (∀ q, q ∉ new → e_index <$> h' !! q = e_index <$> he s !! q) ∧
    (∀ j p, edges_ s !! j = Some p → j ∉ raw → p ∈ new) ∧
    (∀ p, p ∈ new → p ∈ edges_ s).
Proof.
  intros Hlive Hnd Hraw Hrange.
  destruct (compact_pure_merge_sort (edges_ s) raw Hraw Hrange)
    as (_ & _ & Hlen & Hkeep & Hsub).
  destruct (compact_loop_ok (ND:=ND) (ED:=ED) he (λ h, set_he (λ _, h)) (λ h p, e_index <$> h !! p)
              edge_reset_index) with (old := edges_ s) (i := 0)
              (del := merge_sort (≤) raw) (di := 0) (new := @nil ptr)
              (behind := @nil ptr) (s := s)
    as (h' & Hrun & Hidx & Hframe); try done.
  - by intros [].
  - intros s0 p j [i Hi]. destruct (he s0 !! p) as [x|] eqn:Hx; [|done].
    eexists. split; [prim_run|]. split.
    + by rewrite lookup_insert_eq.
    + intros q Hq. by rewrite lookup_insert_ne.
  - intros p Hp. destruct (Hlive p Hp) as [x ->]. by eexists.
  - intros p Hp. by apply elem_of_nil in Hp.
  - exists h', (compact_pure (edges_ s) 0 (merge_sort (≤) raw) 0 [] []).1,
      (compact_pure (edges_ s) 0 (merge_sort (≤) raw) 0 [] []).2.
    split; [|done].
    unfold compact_edges. rewrite (bind_Ok _ _ s (edges_ s) s) by done.
    rewrite (bind_Ok _ _ s _ _ Hrun). reflexivity.
Qed.

Lemma compact_links_ok s raw :
  (∀ p, p ∈ links_ s → is_Some (hl s !! p)) →
  NoDup (links_ s) →
  NoDup raw →
  Forall (λ d, d < length (links_ s)) raw →
  ∃ h' new behind,
    compact_links (merge_sort (≤) raw) s
    = Ok behind (set_links (λ _, new) (set_hl (λ _, h') s)) ∧
    length new + length raw = length (links_ s) ∧
    (∀ j p, new !! j = Some p → l_index <$> h' !! p = Some j) ∧
    (∀ q, q ∉ new → l_index <$> h' !! q = l_index <$> hl s !! q) ∧
    (∀ j p, links_ s !! j = Some p → j ∉ raw → p ∈ new) ∧
    (∀ p, p ∈ new → p ∈ links_ s).
Proof.
  intros Hlive Hnd Hraw Hrange.
  destruct (compact_pure_merge_sort (links_ s) raw Hraw Hrange)
    as (_ & _ & Hlen & Hkeep & Hsub).
  destruct (compact_loop_ok (ND:=ND) (ED:=ED) hl (λ h, set_hl (λ _, h)) (λ h p, l_index <$> h !! p)
              link_reset_index) with (old := links_ s) (i := 0)
              (del := merge_sort (≤) raw) (di := 0) (new := @nil ptr)
              (behind := @nil ptr) (s := s)
    as (h' & Hrun & Hidx & Hframe); try done.
  - by intros [].
  - intros s0 p j [i Hi]. destruct (hl s0 !! p) as [x|] eqn:Hx; [|done].
    eexists. split; [prim_run|]. split.
    + by rewrite lookup_insert_eq.
    + intros q Hq. by rewrite lookup_insert_ne.
  - intros p Hp. destruct (Hlive p Hp) as [x ->]. by eexists.
  - intros p Hp. by apply elem_of_nil in Hp.
  - exists h', (compact_pure (links_ s) 0 (merge_sort (≤) raw) 0 [] []).1,
      (compact_pure (links_ s) 0 (merge_sort (≤) raw) 0 [] []).2.
    split; [|done].
    unfold compact_links. rewrite (bind_Ok _ _ s (links_ s) s) by done.
    rewrite (bind_Ok _ _ s _ _ Hrun). reflexivity.
Qed.

End CompactVectors.

(** ** The pre-order walk of a subtree *)

Section Walk.
Context {ND ED : Type} {PN : Payload ND} {PE : Payload ED}.
Implicit Types s : State ND ED.

Lemma children_loop_chain s link rest : ∀ c os tmp fuel,
  chain (hl s) c rest link → c ≠ link →
  Forall2 (outer_is (hl s)) (c :: rest) os →
  S (length rest) < fuel →
  children_loop fuel link c tmp s = Ok (rev os ++ tmp) s.
Proof.
  induction rest as [|x rest IH]; intros c os tmp fuel Hc Hne Hos Hf;
    (destruct fuel as [|fuel]; [lia|]).
  - destruct Hc as (l & Hl & Hn).
    apply Forall2_cons_inv_l in Hos as (o & os' & (lc & Hlc & Ho) & Hos' & ->).
    apply Forall2_nil_inv_l in Hos' as ->.
    assert (lc = l) as -> by congruence.
    cbn [children_loop]. rewrite decide_False by done. do 2 mstep.
    destruct fuel as [|fuel]; [cbn in Hf; lia|].
    cbn [children_loop]. rewrite Ho, Hn, decide_True by done. reflexivity.
  - destruct Hc as (l & Hl & Hn & Hxne & Hc).
    apply Forall2_cons_inv_l in Hos as (o & os' & (lc & Hlc & Ho) & Hos' & ->).
    assert (lc = l) as -> by congruence.
    cbn [children_loop]. rewrite decide_False by done. do 2 mstep.
    rewrite Ho, Hn. rewrite (IH x os' (o :: tmp) fuel); [|done|done|done|cbn in Hf; lia].
    cbn [rev]. by rewrite <- app_assoc.
Qed.

Lemma push_front_children_ring s l r os st fuel :
  ring (hl s) l r → Forall2 (outer_is (hl s)) r os → length r < fuel →
  push_front_children fuel l st s = Ok (os ++ st) s.
Proof.
  intros Hr Hos Hf. unfold push_front_children.
  assert (∀ t : list ptr, fold_left (λ st0 l0, l0 :: st0) t st = rev t ++ st) as Hfold.
  { intros t. revert st. induction t as [|y t IH]; intros st0; [done|].
    cbn [fold_left rev]. rewrite IH. by rewrite <- app_assoc. }
  destruct r as [|x r].
  - destruct Hr as (rec & Hl & Hn). apply Forall2_nil_inv_l in Hos as ->.
    mstep. rewrite Hn. destruct fuel as [|fuel]; [cbn in Hf; lia|].
    cbn [children_loop]. rewrite decide_True by done.
    rewrite (bind_Ok _ _ s [] s) by done. reflexivity.
  - destruct Hr as (rec & Hl & Hn & Hne & Hc).
    mstep. rewrite Hn.
    rewrite (bind_Ok _ _ s _ s (children_loop_chain s l r x os [] fuel Hc Hne Hos Hf)).
    unfold ret. rewrite Hfold, app_nil_r, rev_involutive. reflexivity.
Qed.

Lemma visits_length h stack its : visits h stack its → length stack ≤ length its.
Proof.
  induction 1 as [|l st r os its Hr Hos Hv IH]; [done|].
  rewrite length_app in IH. cbn. lia.
Qed.

(** The iterator runs its body over the visited links in order; the body
    only reads. *)
Lemma preorder_loop_visits {A} s (body : A → ptr → M ND ED A) stack its :
  visits (hl s) stack its → ∀ link a fuel,
  length its < fuel →
  (∀ a l, l ∈ link :: its → ∃ a', body a l s = Ok a' s) →
  preorder_loop fuel link stack body a s = fold_links body a (link :: its) s.
Proof.
  induction 1 as [|l st r os its Hr Hos Hv IH]; intros link a fuel Hf Hbody;
    (destruct fuel as [|fuel]; [cbn in Hf; lia|]).
  - reflexivity.
  - cbn [preorder_loop fold_links].
    destruct (Hbody a link) as [a' Ha']; [apply elem_of_cons; by left|].
    rewrite !(bind_Ok _ _ s a' s Ha').
    pose proof (visits_length _ _ _ Hv) as Hlen. rewrite length_app in Hlen.
    pose proof (Forall2_length _ _ _ Hos) as Hlo.
    rewrite (bind_Ok _ _ s (os ++ st) s);
      [|apply (push_front_children_ring s l r os st); [done|done|cbn in Hf; lia]].
    rewrite (IH l a' fuel); [done|cbn in Hf; lia|].
    intros a0 l0 Hl0. apply Hbody. apply elem_of_cons. by right.
Qed.

Lemma preorder_subtree_visits {A} s (body : A → ptr → M ND ED A) start its a fuel :
  visits (hl s) [start] its →
  length its < fuel →
  (∀ a l, l ∈ its → ∃ a', body a l s = Ok a' s) →
  preorder_subtree fuel (mkSubtree start) body a s = fold_links body a its s.
Proof.
  intros Hv Hf Hbody. inversion Hv as [|l st r os its' Hr Hos Hv']; subst.
  unfold preorder_subtree. cbn [subtree_link].
  pose proof (visits_length _ _ _ Hv') as Hlen. rewrite length_app in Hlen.
  pose proof (Forall2_length _ _ _ Hos) as Hlo.
  rewrite (bind_Ok _ _ s (os ++ []) s);
    [|apply (push_front_children_ring s start r os []); [done|done|cbn in Hf; lia]].
  apply preorder_loop_visits; [done|cbn in Hf; lia|done].
Qed.

(** The body of the loop of [delete_subtree]. *)
Lemma collect_subtree_ok s a l :
  visit_ok s l →
  collect_subtree a l s =
  Ok (mkDel (del_nodes a ++ [node_index_of s (node_of s l)])
            (del_edges a ++ [edge_index_of s (edge_of s l)])
            (del_links a ++ [link_index_of s l; link_index_of s (outer_of s l)])
            (if is_root_of s (node_of s l) then true else contains_root a)) s.
Proof.
  unfold visit_ok, node_of, edge_of, outer_of, link_index_of, node_index_of,
    edge_index_of, is_root_of, edge_of.
  intros ([rec Hrec] & _ & Ho & _ & Hn & _ & He & _ & Hp & Hpe).
  rewrite (lookup_total_correct _ _ _ Hrec) in *.
  destruct Ho as [orec Ho], Hn as [xn Hn], He as [xe He].
  rewrite (lookup_total_correct _ _ _ Ho), (lookup_total_correct _ _ _ Hn),
    (lookup_total_correct _ _ _ He) in *.
  destruct Hp as [prec Hp]. rewrite (lookup_total_correct _ _ _ Hp) in *.
  destruct Hpe as [pe Hpe]. rewrite (lookup_total_correct _ _ _ Hpe) in *.
  unfold collect_subtree. repeat mstep. reflexivity.
Qed.

Lemma collect_subtree_fold s its : ∀ a,
  Forall (visit_ok s) its →
  fold_links collect_subtree a its s =
  Ok (mkDel (del_nodes a ++ map (λ l, node_index_of s (node_of s l)) its)
            (del_edges a ++ map (λ l, edge_index_of s (edge_of s l)) its)
            (del_links a ++ map (link_index_of s) (removed_links s its))
            (contains_root a || existsb (λ l, is_root_of s (node_of s l)) its)) s.
Proof.
  induction its as [|l its IH]; intros a Hok.
  - cbn. rewrite !app_nil_r, orb_false_r. by destruct a.
  - apply Forall_cons in Hok as [Hl Hok]. cbn [fold_links].
    rewrite (bind_Ok _ _ s _ s (collect_subtree_ok s a l Hl)).
    rewrite (IH _ Hok). cbn [del_nodes del_edges del_links contains_root].
    cbn [map removed_links flat_map existsb app]. rewrite <- !app_assoc. cbn [app].
    do 2 f_equal. destruct (is_root_of s (node_of s l)), (contains_root a); done.
Qed.

(** Index lists of distinct elements of the tree are duplicate-free and in
    range, and contain the position of no other element. *)
Lemma index_list_facts (vec : list ptr) (f : ptr → nat) (ps : list ptr) :
  (∀ p, p ∈ ps → vec !! f p = Some p) →
  NoDup ps →
  NoDup (map f ps) ∧
  Forall (λ d, d < length vec) (map f ps) ∧
  (∀ j q, vec !! j = Some q → q ∉ ps → j ∉ map f ps).
Proof.
  intros Hmem Hnd. split; [|split].
  - apply (NoDup_fmap_2_strong f); [|done].
    intros p q Hp Hq Hpq. pose proof (Hmem p Hp) as H1. pose proof (Hmem q Hq) as H2.
    rewrite Hpq in H1. congruence.
  - apply Forall_forall. intros d Hd. apply list_elem_of_fmap in Hd as (p & -> & Hp).
    eapply lookup_lt_Some, Hmem, Hp.
  - intros j q Hj Hq Hin. apply list_elem_of_fmap in Hin as (p & -> & Hp).
    rewrite (Hmem p Hp) in Hj. congruence.
Qed.

End Walk.

(** ** Subtree deletion *)

Section Subtree.
Context {ND ED : Type} {PN : Payload ND} {PE : Payload ED}.
Implicit Types s : State ND ED.

Lemma links_indexed_NoDup s : links_indexed s → NoDup (links_ s).
Proof.
  intros Hi. apply NoDup_alt. intros i j p Hp Hq.
  destruct (Hi i p Hp) as (l & Hl & <-). destruct (Hi j p Hq) as (l' & Hl' & <-).
  congruence.
Qed.
Lemma nodes_indexed_NoDup s : nodes_indexed s → NoDup (nodes_ s).
Proof.
  intros Hi. apply NoDup_alt. intros i j p Hp Hq.
  destruct (Hi i p Hp) as (l & Hl & <-). destruct (Hi j p Hq) as (l' & Hl' & <-).
  congruence.
Qed.
Lemma edges_indexed_NoDup s : edges_indexed s → NoDup (edges_ s).
Proof.
  intros Hi. apply NoDup_alt. intros i j p Hp Hq.
  destruct (Hi i p Hp) as (l & Hl & <-). destruct (Hi j p Hq) as (l' & Hl' & <-).
  congruence.
Qed.

(** The second half of [delete_subtree]: the three compactions, the reset
    of the root link index, and the destruction of what was left behind. *)
Lemma delete_subtree_tail s rawn rawe rawl rlp :
  (∀ p, p ∈ nodes_ s → is_Some (hn s !! p)) → NoDup (nodes_ s) →
  NoDup rawn → Forall (λ d, d < length (nodes_ s)) rawn →
  (∀ p, p ∈ edges_ s → is_Some (he s !! p)) → NoDup (edges_ s) →
  NoDup rawe → Forall (λ d, d < length (edges_ s)) rawe →
  (∀ p, p ∈ links_ s → is_Some (hl s !! p)) → NoDup (links_ s) →
  NoDup rawl → Forall (λ d, d < length (links_ s)) rawl →
  is_Some (hl s !! rlp) →
  ∃ s',
    bind (compact_nodes (merge_sort (≤) rawn)) (λ behind_nodes,
    bind (compact_edges (merge_sort (≤) rawe)) (λ behind_edges,
    bind (compact_links (merge_sort (≤) rawl)) (λ behind_links,
    bind (link_index rlp) (λ ri,
    bind (reset_root_link_index ri) (λ _,
    bind (destroy_links behind_links) (λ _,
    bind (destroy_edges behind_edges) (λ _,
    destroy_nodes behind_nodes))))))) s = Ok tt s' ∧
    length (nodes_ s') + length rawn = length (nodes_ s) ∧
    length (edges_ s') + length rawe = length (edges_ s) ∧
    length (links_ s') + length rawl = length (links_ s) ∧
    (∀ j, links_ s !! j = Some rlp → j ∉ rawl →
          links_ s' !! root_link_index_ s' = Some rlp).
Proof.
  intros Hln Hnn Hrn Hgn Hle Hne Hre Hge Hll Hnl Hrl Hgl Hrlp.
  destruct (compact_nodes_ok s rawn Hln Hnn Hrn Hgn)
    as (hn' & newn & behindn & Hrunn & Hlenn & _).
  rewrite (bind_Ok _ _ _ _ _ Hrunn).
  destruct (compact_edges_ok (set_nodes (λ _, newn) (set_hn (λ _, hn') s)) rawe
              Hle Hne Hre Hge)
    as (he' & newe & behinde & Hrune & Hlene & _).
  rewrite (bind_Ok _ _ _ _ _ Hrune).
  destruct (compact_links_ok
              (set_edges (λ _, newe) (set_he (λ _, he')
                 (set_nodes (λ _, newn) (set_hn (λ _, hn') s)))) rawl
              Hll Hnl Hrl Hgl)
    as (hl' & newl & behindl & Hrunl & Hlenl & Hidx & Hframe & Hkeep & _).
  rewrite (bind_Ok _ _ _ _ _ Hrunl).
  cbn [links_ nodes_ edges_ hl hn he set_links set_nodes set_edges set_hl set_hn set_he]
    in *.
  assert (∃ ri, l_index <$> hl' !! rlp = Some ri ∧
                (rlp ∈ newl → newl !! ri = Some rlp)) as (ri & Hri & Hpos).
  { destruct (decide (rlp ∈ newl)) as [Hin|Hnin].
    - apply list_elem_of_lookup in Hin as [j Hj]. exists j. split; [by apply Hidx|done].
    - destruct Hrlp as [rec Hrec]. exists (l_index rec). split; [|done].
      by rewrite (Hframe rlp Hnin), Hrec. }
  destruct (hl' !! rlp) as [rec'|] eqn:Hrec'; [|done]. cbn in Hri. injection Hri as Hri.
  eexists. split.
  { st_simpl. mstep. rewrite Hri. repeat mstep. reflexivity. }
  cbn [links_ nodes_ edges_ root_link_index_]. repeat split; try done.
  intros j Hj Hnj. apply Hpos. by apply (Hkeep j).
Qed.

Lemma ring_next h a r :
  ring h a r →
  ∃ rec, h !! a = Some rec ∧
         chain h (l_next rec) (tail r) a ∧
         chain_last (l_next rec) (tail r) = chain_last a r.
Proof.
  destruct r as [|x r]; cbn [ring chain tail chain_last].
  - intros (l & Hl & Hn). exists l. split; [done|]. rewrite Hn. eauto.
  - intros (l & Hl & Hn & Hne & Hc). exists l. rewrite Hn. done.
Qed.

Lemma chain_first_live h cur rest stop : chain h cur rest stop → is_Some (h !! cur).
Proof. destruct rest; intros (l & Hl & _); eauto. Qed.

(** The amended C4: on a tree whose vectors are indexed, for a subtree view
    whose pre-order walk visits the [k] links [its] (distinct nodes, edges
    and links, all of the tree), [delete_subtree] returns, removes [k]
    nodes, [k] edges and [2k] links, and, when no visited node is the root
    and the root link is not one of the removed links, the root link index
    afterwards denotes the same link as before. *)
Theorem delete_subtree_counts s start its rl r fuel :
  links_indexed s → nodes_indexed s → edges_indexed s →
  links_ s !! root_link_index_ s = Some rl →
  visits (hl s) [start] its →
  Forall (visit_ok s) its →
  NoDup (map (node_of s) its) →
  NoDup (map (edge_of s) its) →
  NoDup (removed_links s its) →
  ring (hl s) (outer_of s start) r →
  links_ s !! link_index_of s (chain_last (outer_of s start) r)
    = Some (chain_last (outer_of s start) r) →
  is_Some (hn s !! node_of s (chain_last (outer_of s start) r)) →
  length its < fuel →
  length r < fuel →
  ∃ s',
    delete_subtree fuel (mkSubtree start) s = Ok tt s' ∧
    length (nodes_ s') + length its = length (nodes_ s) ∧
    length (edges_ s') + length its = length (edges_ s) ∧
    length (links_ s') + 2 * length its = length (links_ s) ∧
    (rl ∉ removed_links s its →
     Forall (λ l, is_root_of s (node_of s l) = false) its →
     links_ s' !! root_link_index_ s' = Some rl).
Proof.
  intros Hil Hin Hie Hroot Hv Hok Hndn Hnde Hndl Hring Hpredin Hprednode Hf Hfr.
  (* the first visited link is the link of the view *)
  assert (∃ its', its = start :: its') as [its' Hits].
  { inversion Hv; subst. eauto. }
  assert (visit_ok s start) as Hstart.
  { rewrite Hits in Hok. by apply Forall_cons in Hok as [? _]. }
  destruct Hstart as ([srec Hsrec] & Hsin & [orec Horec] & _).
  (* facts about the index lists *)
  destruct (index_list_facts (nodes_ s) (node_index_of s) (map (node_of s) its))
    as (Hrn & Hgn & _); [|done|].
  { intros p Hp. apply list_elem_of_fmap in Hp as (l & -> & Hl).
    rewrite Forall_forall in Hok. by destruct (Hok l Hl) as (_&_&_&_&_&?&_). }
  destruct (index_list_facts (edges_ s) (edge_index_of s) (map (edge_of s) its))
    as (Hre & Hge & _); [|done|].
  { intros p Hp. apply list_elem_of_fmap in Hp as (l & -> & Hl).
    rewrite Forall_forall in Hok. by destruct (Hok l Hl) as (_&_&_&_&_&_&_&?&_). }
  destruct (index_list_facts (links_ s) (link_index_of s) (removed_links s its))
    as (Hrl & Hgl & Hnotin); [|done|].
  { intros p Hp. apply list_elem_of_In, in_flat_map in Hp as (l & Hl & Hp).
    apply list_elem_of_In in Hl. rewrite Forall_forall in Hok.
    destruct (Hok l Hl) as (_&?&_&?&_).
    destruct Hp as [<-|[<-|[]]]; done. }
  rewrite !map_map in *.
  (* the attachment ring *)
  destruct (ring_next _ _ _ Hring) as (arec & Harec & Hchain & Hlast).
  destruct (chain_last_live _ _ _ _ Hring) as (prec & Hprec & Hpnext).
  set (pred := chain_last (outer_of s start) r) in *.
  destruct Hprednode as [pn Hpn].
  unfold outer_of, link_index_of, node_of in Hpredin, Hpn, Harec, Hchain, Hlast, Hpnext.
  rewrite (lookup_total_correct _ _ _ Hsrec) in *.
  rewrite (lookup_total_correct _ _ _ Hprec) in *.
  destruct prec as [pidx pnext pouter pnode pedge].
  cbn [l_index l_next l_outer l_node l_edge] in Hpredin, Hpn, Hpnext. subst pnext.
  unfold link_index_of in Hsin. rewrite (lookup_total_correct _ _ _ Hsrec) in Hsin.
  (* the link whose index becomes the root link index *)
  assert (∃ rlp,
    (if existsb (λ l, is_root_of s (node_of s l)) its
     then bind (link_outer start) (λ o, link_next o) else root_link) s = Ok rlp s ∧
    is_Some (hl s !! rlp) ∧
    (existsb (λ l, is_root_of s (node_of s l)) its = false → rlp = rl))
    as (rlp & Hrlp & Hrlplive & Hrlprl).
  { destruct (existsb _ its).
    - exists (l_next arec). split; [mstep; by prim_run|].
      split; [by eapply chain_first_live|done].
    - exists rl. split; [by prim_run|]. split; [|done].
      destruct (Hil _ _ Hroot) as (? & ? & _). eauto. }
  (* run up to the compactions *)
  assert (∃ s2,
    links_ s2 = links_ s ∧ nodes_ s2 = nodes_ s ∧ edges_ s2 = edges_ s ∧
    (∀ p, is_Some (hl s !! p) → is_Some (hl s2 !! p)) ∧
    (∀ p, is_Some (hn s !! p) → is_Some (hn s2 !! p)) ∧
    he s2 = he s ∧
    delete_subtree fuel (mkSubtree start) s =
      bind (compact_nodes
              (merge_sort (≤) (map (λ l, node_index_of s (node_of s l)) its)))
        (λ behind_nodes,
      bind (compact_edges
              (merge_sort (≤) (map (λ l, edge_index_of s (edge_of s l)) its)))
        (λ behind_edges,
      bind (compact_links
              (merge_sort (≤) (map (link_index_of s) (removed_links s its))))
        (λ behind_links,
      bind (link_index rlp) (λ ri,
      bind (reset_root_link_index ri) (λ _,
      bind (destroy_links behind_links) (λ _,
      bind (destroy_edges behind_edges) (λ _,
      destroy_nodes behind_nodes))))))) s2)
    as (s2 & Hl2 & Hn2 & He2 & Hlive2 & Hnlive2 & Hhe2 & Hrun).
  { set (sB := set_hl (insert pred (mkLink pidx (l_next arec) pouter pnode pedge)) s).
    exists (if decide (n_link pn = l_outer srec)
            then set_hn (insert pnode (mkNode (n_index pn) (l_next arec) (n_data pn))) sB
            else sB).
    split; [by case_decide|]. split; [by case_decide|]. split; [by case_decide|].
    split; [|split; [|split; [by case_decide|]]].
    - intros p Hp. case_decide; cbn [hl set_hl set_hn sB];
        (destruct (decide (pred = p)) as [->|];
         [by rewrite lookup_insert_eq|by rewrite lookup_insert_ne]).
    - intros p Hp. case_decide; cbn [hn set_hl set_hn sB]; [|done].
      destruct (decide (pnode = p)) as [->|];
        [by rewrite lookup_insert_eq|by rewrite lookup_insert_ne].
    - unfold delete_subtree. cbn [subtree_link].
      mstep_by ltac:(by apply (belongs_to_link_true s start srec)).
      cbn [negb].
      mstep_by ltac:(
        rewrite (preorder_subtree_visits s collect_subtree start its _ fuel Hv Hf);
        [ by apply collect_subtree_fold
        | intros a l Hl; eexists; apply collect_subtree_ok;
          rewrite Forall_forall in Hok; by apply Hok ]).
      cbn [del_nodes del_edges del_links contains_root app orb].
      rewrite (bind_Ok _ _ s rlp s Hrlp).
      do 2 mstep.
      mstep_by ltac:(apply (ring_pred_chain s _ (tail r));
                     [done|destruct r; cbn in Hfr |- *; lia]).
      rewrite Hlast. repeat mstep.
      destruct (decide (n_link pn = l_outer srec)) as [Heq|Hneq].
      + repeat mstep. reflexivity.
      + rewrite (bind_Ok _ _ s tt s) by done.
        repeat mstep. reflexivity. }
  (* the compactions *)
  destruct (delete_subtree_tail s2
              (map (λ l, node_index_of s (node_of s l)) its)
              (map (λ l, edge_index_of s (edge_of s l)) its)
              (map (link_index_of s) (removed_links s its)) rlp)
    as (s' & Htail & Hcn & Hce & Hcl & Hrootlink).
  - intros p Hp. apply Hnlive2. rewrite Hn2 in Hp.
    apply list_elem_of_lookup in Hp as [i Hp]. destruct (Hin i p Hp) as (? & ? & _). eauto.
  - rewrite Hn2. by apply nodes_indexed_NoDup.
  - done.
  - by rewrite Hn2.
  - intros p Hp. rewrite Hhe2. rewrite He2 in Hp.
    apply list_elem_of_lookup in Hp as [i Hp]. destruct (Hie i p Hp) as (? & ? & _). eauto.
  - rewrite He2. by apply edges_indexed_NoDup.
  - done.
  - by rewrite He2.
  - intros p Hp. apply Hlive2. rewrite Hl2 in Hp.
    apply list_elem_of_lookup in Hp as [i Hp]. destruct (Hil i p Hp) as (? & ? & _). eauto.
  - rewrite Hl2. by apply links_indexed_NoDup.
  - done.
  - by rewrite Hl2.
  - by apply Hlive2.
  - exists s'. rewrite Hrun. split; [done|].
    rewrite !length_map in Hcn, Hce, Hcl. rewrite Hn2 in Hcn. rewrite He2 in Hce.
    rewrite Hl2 in Hcl.
    assert (length (removed_links s its) = 2 * length its) as Hlen.
    { clear. induction its as [|l its0 IH]; [done|].
      cbn [removed_links flat_map length app] in *. fold (removed_links s its0). lia. }
    rewrite Hlen in Hcl. repeat split; try done.
    intros Hrlkept Hnoroot.
    assert (rlp = rl) as ->.
    { apply Hrlprl. apply not_true_is_false. intros Hex.
      apply existsb_exists in Hex as (l & Hl & Hr).
      apply list_elem_of_In in Hl. rewrite Forall_forall in Hnoroot.
      rewrite (Hnoroot l Hl) in Hr. done. }
    apply (Hrootlink (root_link_index_ s)); [by rewrite Hl2|].
    by apply (Hnotin _ rl).
Qed.

End Subtree.

(** ** Stable sorting of positions *)

Section StableSort.
Variable order : LadderizeOrder.
Variable vals : list nat.

Lemma insert_index_Permutation i l :
  insert_index (order_comp order) vals i l ≡ₚ i :: l.
Proof.
  induction l as [|j l IH]; [done|]. cbn [insert_index].
  destruct (order_comp order (value_at vals j) (value_at vals i)); [|done].
  rewrite IH. apply Permutation_swap.
Qed.

Lemma ladder_rel_comp_false i j k :
  order_comp order (value_at vals j) (value_at vals i) = false →
  i < k → (j = k ∨ ladder_rel order vals j k) → ladder_rel order vals i k.
Proof.
  unfold ladder_rel, order_comp. intros Hc Hik Hjk.
  destruct order; apply Nat.ltb_ge in Hc; destruct Hjk as [->|Hjk]; lia.
Qed.

Lemma ladder_rel_comp_true i j :
  order_comp order (value_at vals j) (value_at vals i) = true →
  ladder_rel order vals j i.
Proof.
  unfold ladder_rel, order_comp. intros Hc.
  destruct order; apply Nat.ltb_lt in Hc; lia.
Qed.

Lemma insert_index_sorted i l :
  StronglySorted (ladder_rel order vals) l →
  Forall (λ j, i < j) l →
  StronglySorted (ladder_rel order vals) (insert_index (order_comp order) vals i l).
Proof.
  induction l as [|j l IH]; intros Hs Hlt; cbn [insert_index].
  - repeat constructor.
  - apply StronglySorted_inv in Hs as [Hs Hj]. apply Forall_cons in Hlt as [Hij Hlt].
    destruct (order_comp order (value_at vals j) (value_at vals i)) eqn:Hc.
    + constructor; [by apply IH|].
      rewrite insert_index_Permutation. constructor; [|done].
      by apply ladder_rel_comp_true.
    + constructor; [by constructor|]. constructor.
      * apply (ladder_rel_comp_false i j j); [done|done|by left].
      * rewrite Forall_forall in Hj, Hlt |- *. intros k Hk.
        apply (ladder_rel_comp_false i j k); [done|by apply Hlt|right; by apply Hj].
Qed.

Lemma sort_seq_spec lo n :
  foldr (insert_index (order_comp order) vals) [] (seq lo n) ≡ₚ seq lo n ∧
  StronglySorted (ladder_rel order vals)
    (foldr (insert_index (order_comp order) vals) [] (seq lo n)).
Proof.
  revert lo. induction n as [|n IH]; intros lo; cbn [seq foldr].
  - split; [done|constructor].
  - destruct (IH (S lo)) as [Hp Hs]. split.
    + by rewrite insert_index_Permutation, Hp.
    + apply insert_index_sorted; [done|].
      rewrite Hp. apply Forall_forall. intros j Hj. apply elem_of_seq in Hj. lia.
Qed.

(** [stable_sort_indices] returns the positions, sorted by value and, among
    equal values, by position. *)
Lemma stable_sort_indices_spec :
  stable_sort_indices (order_comp order) vals ≡ₚ seq 0 (length vals) ∧
  StronglySorted (ladder_rel order vals) (stable_sort_indices (order_comp order) vals).
Proof. apply sort_seq_spec. Qed.

(** The values along a sorted list of positions are monotone. *)
Lemma ladder_rel_sizes_sorted perm :
  StronglySorted (ladder_rel order vals) perm →
  sizes_sorted order (map (value_at vals) perm).
Proof.
  intros Hs.
  assert (∀ R : nat → nat → Prop,
    (∀ i j, ladder_rel order vals i j → R (value_at vals i) (value_at vals j)) →
    Sorted R (map (value_at vals) perm)) as Hgen.
  { intros R HR. induction Hs as [|i l Hl IH Hall]; [constructor|].
    cbn [map]. constructor; [done|].
    destruct l as [|j l]; [constructor|]. cbn [map]. constructor.
    apply HR. by apply Forall_cons in Hall as [? _]. }
  unfold sizes_sorted. destruct order; apply Hgen; unfold ladder_rel; lia.
Qed.

End StableSort.

(** ** Ladderize *)

Section LinkHeaps.

Lemma same_but_next_refl h : same_but_next h h.
Proof. done. Qed.

Lemma same_but_next_trans h1 h2 h3 :
  same_but_next h1 h2 → same_but_next h2 h3 → same_but_next h1 h3.
Proof. intros H12 H23 p. by rewrite H23, H12. Qed.

Lemma same_but_next_alter h q p : same_but_next h (alter (set_next q) p h).
Proof.
  intros p'. destruct (decide (p = p')) as [->|].
  - rewrite lookup_alter_eq. by destruct (h !! p').
  - by rewrite lookup_alter_ne.
Qed.

Lemma same_but_next_is_Some h h' p :
  same_but_next h h' → is_Some (h' !! p) ↔ is_Some (h !! p).
Proof.
  intros Hs. specialize (Hs p).
  destruct (h' !! p), (h !! p); cbn in Hs; try done; split; eauto.
Qed.

Lemma same_but_next_fields h h' p :
  same_but_next h h' →
  l_outer (h' !!! p) = l_outer (h !!! p) ∧
  l_node (h' !!! p) = l_node (h !!! p) ∧
  l_index (h' !!! p) = l_index (h !!! p).
Proof.
  intros Hs. specialize (Hs p). rewrite !lookup_total_alt.
  destruct (h' !! p) as [[]|], (h !! p) as [[]|]; cbn in Hs |- *; by simplify_eq.
Qed.

Lemma relink_heap_same ls : ∀ cur h, same_but_next h (relink_heap ls cur h).
Proof.
  induction ls as [|l ls IH]; intros cur h; cbn [relink_heap]; [done|].
  eapply same_but_next_trans; [apply same_but_next_alter|apply IH].
Qed.

Lemma ring_heap_same start ls h : same_but_next h (ring_heap start ls h).
Proof.
  unfold ring_heap.
  eapply same_but_next_trans; [apply relink_heap_same|apply same_but_next_alter].
Qed.

Lemma relink_heap_frame ls : ∀ cur h p,
  p ∉ cur :: ls → relink_heap ls cur h !! p = h !! p.
Proof.
  induction ls as [|l ls IH]; intros cur h p Hp; cbn [relink_heap]; [done|].
  apply not_elem_of_cons in Hp as [Hc Hp].
  rewrite IH by done. apply lookup_alter_ne. done.
Qed.

Lemma chain_last_elem cur ls : chain_last cur ls ∈ cur :: ls.
Proof.
  revert cur. induction ls as [|l ls IH]; intros cur; cbn [chain_last].
  - apply elem_of_cons. by left.
  - apply elem_of_cons. right. apply IH.
Qed.

Lemma ring_heap_frame start ls h p :
  p ∉ start :: ls → ring_heap start ls h !! p = h !! p.
Proof.
  intros Hp. unfold ring_heap. rewrite lookup_alter_ne.
  - by apply relink_heap_frame.
  - intros <-. apply Hp, chain_last_elem.
Qed.

Lemma chain_frame h h' cur rest stop :
  (∀ p, p ∈ cur :: rest → h' !! p = h !! p) →
  chain h cur rest stop → chain h' cur rest stop.
Proof.
  revert cur. induction rest as [|x rest IH]; intros cur Hf; cbn [chain].
  - intros (l & Hl & Hn). exists l. rewrite Hf; [done|]. apply elem_of_cons. by left.
  - intros (l & Hl & Hn & Hne & Hc). exists l.
    rewrite Hf by (apply elem_of_cons; by left).
    repeat (split; [done|]). apply IH; [|done].
    intros p Hp. apply Hf. apply elem_of_cons. by right.
Qed.

(** After rewriting, the chain from [cur] runs through [ls]. *)
Lemma relink_heap_chain ls : ∀ cur h stop,
  NoDup (cur :: ls) → stop ∉ ls →
  (∀ p, p ∈ cur :: ls → is_Some (h !! p)) →
  chain (alter (set_next stop) (chain_last cur ls) (relink_heap ls cur h)) cur ls stop.
Proof.
  induction ls as [|l ls IH]; intros cur h stop Hnd Hstop Hlive;
    cbn [chain chain_last relink_heap].
  - destruct (Hlive cur) as [rec Hrec]; [apply elem_of_cons; by left|].
    exists (set_next stop rec). by rewrite lookup_alter_eq, Hrec.
  - apply NoDup_cons in Hnd as [Hcur Hnd].
    apply not_elem_of_cons in Hstop as [Hsl Hstop].
    destruct (Hlive cur) as [rec Hrec]; [apply elem_of_cons; by left|].
    exists (set_next l rec). split; [|split; [done|split; [done|]]].
    + rewrite lookup_alter_ne.
      * rewrite relink_heap_frame by done. by rewrite lookup_alter_eq, Hrec.
      * intros E. apply Hcur. rewrite <- E. apply chain_last_elem.
    + apply IH; [done|done|].
      intros p Hp. apply lookup_alter_is_Some, Hlive. apply elem_of_cons. by right.
Qed.

Lemma ring_heap_ring start ls h :
  NoDup (start :: ls) →
  (∀ p, p ∈ start :: ls → is_Some (h !! p)) →
  ring (ring_heap start ls h) start ls.
Proof.
  intros Hnd Hlive. apply relink_heap_chain; [done| |done].
  by apply NoDup_cons in Hnd as [? _].
Qed.

Lemma chain_stop_notin h stop rest : ∀ cur, chain h cur rest stop → stop ∉ rest.
Proof.
  induction rest as [|x rest IH]; intros cur; cbn [chain].
  - intros _. apply not_elem_of_nil.
  - intros (l & Hl & Hn & Hne & Hc). apply not_elem_of_cons. split; [done|by eapply IH].
Qed.

Lemma chain_det h stop r1 : ∀ cur r2,
  chain h cur r1 stop → chain h cur r2 stop → r1 = r2.
Proof.
  induction r1 as [|x r1 IH]; intros cur [|y r2]; cbn [chain].
  - done.
  - intros (l & Hl & Hn) (l' & Hl' & Hn' & Hne & _). congruence.
  - intros (l & Hl & Hn & Hne & _) (l' & Hl' & Hn'). congruence.
  - intros (l & Hl & Hn & Hne & Hc) (l' & Hl' & Hn' & Hne' & Hc').
    assert (x = y) as -> by congruence. f_equal. by eapply IH.
Qed.

Lemma chain_suffix h stop l1 : ∀ cur x l2,
  chain h cur (l1 ++ x :: l2) stop → chain h x l2 stop.
Proof.
  induction l1 as [|y l1 IH]; intros cur x l2; cbn [app chain].
  - by intros (l & Hl & Hn & Hne & Hc).
  - intros (l & Hl & Hn & Hne & Hc). by eapply IH.
Qed.

(** A chain visits no link twice. *)
Lemma chain_NoDup h stop rest : ∀ cur, chain h cur rest stop → NoDup (cur :: rest).
Proof.
  induction rest as [|x rest IH]; intros cur Hc.
  - apply NoDup_singleton.
  - apply NoDup_cons. split.
    + intros Hin. apply list_elem_of_split in Hin as (l1 & l2 & Heq).
      rewrite Heq in Hc. pose proof (chain_suffix _ _ _ _ _ _ Hc) as Hs.
      pose proof (chain_det _ _ _ _ _ Hc Hs) as Hd.
      apply (f_equal length) in Hd. rewrite length_app in Hd. cbn in Hd. lia.
    + destruct Hc as (l & Hl & Hn & Hne & Hc). by eapply IH.
Qed.

End LinkHeaps.

(** ** Sorted positions, read as links *)

Section Ladderized.
Variable order : LadderizeOrder.
Variable key : ptr → nat.

Lemma lookup_seq_map (rest : list ptr) :
  map (λ i, default nullptr (rest !! i)) (seq 0 (length rest)) = rest.
Proof.
  apply list_eq. intros i. rewrite list_lookup_fmap.
  destruct (rest !! i) as [a|] eqn:Hi.
  - rewrite lookup_seq_lt by (by eapply lookup_lt_Some). cbn. by rewrite Hi.
  - rewrite lookup_seq_ge by (by apply lookup_ge_None). done.
Qed.

Lemma ladderized_Permutation rest rest' :
  ladderized order key rest rest' → rest' ≡ₚ rest.
Proof.
  intros (perm & Hp & -> & _).
  trans (map (λ i, default nullptr (rest !! i)) (seq 0 (length rest))).
  - by apply Permutation_map.
  - by rewrite lookup_seq_map.
Qed.

Lemma ladderized_lookup rest perm i a :
  perm ≡ₚ seq 0 (length rest) →
  map (λ i, default nullptr (rest !! i)) perm !! i = Some a →
  ∃ i', perm !! i = Some i' ∧ rest !! i' = Some a ∧
        value_at (map key rest) i' = key a.
Proof.
  intros Hp Hi. rewrite list_lookup_fmap in Hi.
  destruct (perm !! i) as [i'|] eqn:Hi'; [|done]. cbn in Hi.
  assert (i' < length rest) as Hlt.
  { assert (i' ∈ seq 0 (length rest)) as Hin
      by (rewrite <- Hp; by eapply list_elem_of_lookup_2).
    apply elem_of_seq in Hin. lia. }
  destruct (lookup_lt_is_Some_2 rest i' Hlt) as [b Hb].
  rewrite Hb in Hi. cbn in Hi. simplify_eq.
  exists i'. repeat split; [done|].
  unfold value_at. by rewrite list_lookup_fmap, Hb.
Qed.

Lemma ladderized_sizes_sorted rest rest' :
  ladderized order key rest rest' → sizes_sorted order (map key rest').
Proof.
  intros (perm & Hp & -> & Hs).
  replace (map key (map (λ i, default nullptr (rest !! i)) perm))
    with (map (value_at (map key rest)) perm).
  { by apply ladder_rel_sizes_sorted. }
  rewrite map_map. apply map_ext_in. intros i Hin.
  apply list_elem_of_In in Hin. rewrite Hp in Hin. apply elem_of_seq in Hin.
  destruct (lookup_lt_is_Some_2 rest i) as [b Hb]; [lia|].
  unfold value_at. by rewrite list_lookup_fmap, Hb.
Qed.

Lemma ladderized_keeps_order rest rest' :
  ladderized order key rest rest' → keeps_order key rest rest'.
Proof.
  intros (perm & Hp & -> & Hs) i j a b Hij Ha Hb Hk.
  apply (ladderized_lookup _ _ _ _ Hp) in Ha as (i' & Hi' & Hra & Hva).
  apply (ladderized_lookup _ _ _ _ Hp) in Hb as (j' & Hj' & Hrb & Hvb).
  exists i', j'. repeat split; [|done|done].
  assert (ladder_rel order (map key rest) i' j') as Hrel.
  { rewrite <- (take_drop j perm) in Hs.
    apply (StronglySorted_app_1_elem_of _ _ _ i' j') in Hs; [done| |].
    - apply list_elem_of_lookup. exists i. by rewrite lookup_take_lt.
    - apply list_elem_of_lookup. exists 0. by rewrite lookup_drop, Nat.add_0_r. }
  assert (key a = key b → i' < j') as Hlt.
  { rewrite <- Hva, <- Hvb. clear -Hrel. unfold ladder_rel in Hrel.
    destruct order; lia. }
  by apply Hlt.
Qed.

Lemma ladderized_ext (key' : ptr → nat) rest rest' :
  (∀ l, l ∈ rest → key l = key' l) →
  ladderized order key rest rest' → ladderized order key' rest rest'.
Proof.
  intros Hk (perm & Hp & Hr & Hs). exists perm. repeat split; [done|done|].
  replace (map key' rest) with (map key rest); [done|].
  apply map_ext_in. intros l Hl. apply Hk. by apply list_elem_of_In.
Qed.

End Ladderized.

(** ** The rewriting of one ring *)

Section LadderizeNode.
Context {ND ED : Type} {PN : Payload ND} {PE : Payload ED}.
Implicit Types s : State ND ED.

Lemma node_links_loop_chain {A} s start (body : A → ptr → M ND ED A) rest :
  ∀ cur a fuel,
  chain (hl s) cur rest start → length rest < fuel →
  (∀ a l, l ∈ cur :: rest → ∃ a', body a l s = Ok a' s) →
  node_links_loop fuel start cur body a s = fold_links body a (cur :: rest) s.
Proof.
  induction rest as [|x rest IH]; intros cur a fuel Hc Hf Hbody;
    (destruct fuel as [|fuel]; [cbn in Hf; lia|]); cbn [node_links_loop fold_links].
  - destruct Hc as (l & Hl & Hn).
    destruct (Hbody a cur) as [a' Ha']; [apply elem_of_cons; by left|].
    rewrite !(bind_Ok _ _ s a' s Ha'). mstep. rewrite Hn, decide_True by done.
    reflexivity.
  - destruct Hc as (l & Hl & Hn & Hne & Hc).
    destruct (Hbody a cur) as [a' Ha']; [apply elem_of_cons; by left|].
    rewrite !(bind_Ok _ _ s a' s Ha'). mstep. rewrite Hn, decide_False by done.
    apply IH; [done|cbn in Hf; lia|].
    intros a0 l0 Hl0. apply Hbody. apply elem_of_cons. by right.
Qed.

Lemma collect_children_child s sizes start a l :
  l ≠ start → child_ok s sizes l →
  collect_children sizes start a l s
  = Ok (a.1 ++ [child_size s sizes l], a.2 ++ [l]) s.
Proof.
  intros Hne ([rl Hrl] & [ro Hro] & [rn Hrn] & [sz Hsz]).
  unfold child_size, value_at, outer_of, node_of, node_index_of in *.
  rewrite (lookup_total_correct _ _ _ Hrl) in *.
  rewrite (lookup_total_correct _ _ _ Hro) in *.
  rewrite (lookup_total_correct _ _ _ Hrn) in *.
  unfold collect_children. rewrite decide_False by done.
  do 3 mstep. unfold size_at. rewrite Hsz. reflexivity.
Qed.

Lemma collect_children_fold s sizes start rest : ∀ a,
  start ∉ rest → Forall (child_ok s sizes) rest →
  fold_links (collect_children sizes start) a rest s
  = Ok (a.1 ++ map (child_size s sizes) rest, a.2 ++ rest) s.
Proof.
  induction rest as [|x rest IH]; intros a Hst Hok; cbn [fold_links map].
  - rewrite !app_nil_r. by destruct a.
  - apply not_elem_of_cons in Hst as [Hne Hst].
    apply Forall_cons in Hok as [Hx Hok].
    rewrite (bind_Ok _ _ s _ s (collect_children_child s sizes start a x
      (not_eq_sym Hne) Hx)).
    rewrite IH by done. cbn [fst snd]. by rewrite <- !app_assoc.
Qed.

Lemma link_reset_next_alter s p q :
  is_Some (hl s !! p) →
  link_reset_next p q s = Ok tt (set_hl (alter (set_next q) p) s).
Proof.
  intros [l Hl]. unfold link_reset_next, update_link. rewrite Hl.
  unfold set_hl. by rewrite (alter_alt_Some _ _ _ l Hl).
Qed.

Lemma relink_spec links order : ∀ cur s,
  Forall (λ i, is_Some (links !! i)) order →
  (∀ p, p ∈ cur :: map (λ i, default nullptr (links !! i)) order →
        is_Some (hl s !! p)) →
  relink links order cur s
  = Ok (chain_last cur (map (λ i, default nullptr (links !! i)) order))
       (set_hl (relink_heap (map (λ i, default nullptr (links !! i)) order) cur) s).
Proof.
  induction order as [|i order IH]; intros cur s Hin Hlive;
    cbn [relink map chain_last relink_heap].
  - by destruct s.
  - apply Forall_cons in Hin as [[l Hl] Hin]. rewrite Hl. cbn [default].
    cbn [map] in Hlive. rewrite Hl in Hlive. cbn [default] in Hlive.
    rewrite (bind_Ok _ _ s tt _ (link_reset_next_alter s cur l
      (Hlive cur ltac:(apply elem_of_cons; by left)))).
    rewrite IH; [done|done|].
    intros p Hp. cbn [set_hl hl]. apply lookup_alter_is_Some, Hlive.
    apply elem_of_cons. by right.
Qed.

Lemma node_links_children s sizes n x rest fuel :
  hn s !! n = Some x → ring (hl s) (n_link x) rest →
  Forall (child_ok s sizes) rest → length rest < fuel →
  node_links fuel n (collect_children sizes (n_link x)) ([], []) s
  = Ok (map (child_size s sizes) rest, rest) s.
Proof.
  intros Hn Hr Hok Hf.
  pose proof (chain_stop_notin _ _ _ _ Hr) as Hst.
  unfold node_links. mstep.
  rewrite (node_links_loop_chain s _ _ rest); [|done|done|].
  - cbn [fold_links]. unfold collect_children at 1. rewrite decide_True by done.
    rewrite (bind_Ok _ _ s ([], []) s) by done.
    by rewrite collect_children_fold.
  - intros a l Hl. apply elem_of_cons in Hl as [->|Hl].
    + exists a. unfold collect_children. by rewrite decide_True.
    + eexists. apply collect_children_child.
      * intros ->. done.
      * rewrite Forall_forall in Hok. by apply Hok.
Qed.

(** [ladderize_node] at a node with ring [start :: rest]: the ring becomes
    [start :: rest'], where [rest'] is [rest] stably sorted by the sizes;
    nothing but [next] fields of this ring changes. *)
Lemma ladderize_node_spec s sizes order n x rest fuel :
  hn s !! n = Some x → ring (hl s) (n_link x) rest →
  Forall (child_ok s sizes) rest → length rest < fuel →
  ∃ h' rest',
    ladderize_node fuel sizes order n s = Ok tt (set_hl (λ _, h') s) ∧
    same_but_next (hl s) h' ∧
    (∀ p, p ∉ n_link x :: rest → h' !! p = hl s !! p) ∧
    ring h' (n_link x) rest' ∧
    ladderized order (child_size s sizes) rest rest'.
Proof.
  intros Hn Hr Hok Hf.
  pose proof (chain_NoDup _ _ _ _ Hr) as Hnd.
  unfold ladderize_node.
  destruct rest as [|c rest].
  - destruct Hr as (l & Hl & Hnx).
    exists (hl s), []. split; [|split; [done|split; [done|split]]].
    + rewrite (bind_Ok _ _ s true s).
      * by destruct s.
      * unfold is_leaf. do 2 mstep. rewrite Hnx. by rewrite bool_decide_eq_true_2.
    + by exists l.
    + exists []. repeat split; [done|constructor].
  - set (rest0 := c :: rest) in *.
    set (vals := map (child_size s sizes) rest0).
    set (perm := stable_sort_indices (order_comp order) vals).
    set (rest' := map (λ i, default nullptr (rest0 !! i)) perm).
    destruct (stable_sort_indices_spec order vals) as [Hperm Hsorted].
    fold perm in Hperm, Hsorted.
    assert (length vals = length rest0) as Hlen by apply length_map.
    rewrite Hlen in Hperm.
    assert (ladderized order (child_size s sizes) rest0 rest') as Hlad
      by (by exists perm).
    pose proof (ladderized_Permutation _ _ _ _ Hlad) as Hp'.
    assert (∀ p, p ∈ n_link x :: rest' → is_Some (hl s !! p)) as Hlive.
    { intros p Hp. rewrite Hp' in Hp. clear -Hp Hr Hok.
      apply elem_of_cons in Hp as [->|Hp]; [by eapply chain_first_live|].
      rewrite Forall_forall in Hok. by destruct (Hok p Hp) as [? _]. }
    assert (Forall (λ i, is_Some (rest0 !! i)) perm) as Hrange.
    { apply Forall_forall. intros i Hi. rewrite Hperm in Hi.
      apply elem_of_seq in Hi. apply lookup_lt_is_Some_2. lia. }
    exists (ring_heap (n_link x) rest' (hl s)), rest'.
    split; [|split; [apply ring_heap_same|split; [|split; [|done]]]].
    + rewrite (bind_Ok _ _ s false s).
      2: { destruct Hr as (l & Hl & Hnx & Hne & _).
           unfold is_leaf. do 2 mstep. rewrite Hnx. by rewrite bool_decide_eq_false_2. }
      mstep.
      rewrite (bind_Ok _ _ s _ s (node_links_children s sizes n x rest0 fuel Hn Hr Hok Hf)).
      cbn [fst snd]. fold vals. fold perm. mstep.
      rewrite (bind_Ok _ _ s _ _ (relink_spec rest0 perm (n_link x) s Hrange Hlive)).
      fold rest'. mstep_by ltac:(unfold node_primary_link, deref_node, bind, ret, set_hl;
          cbn [hn]; rewrite Hn; reflexivity).
      rewrite link_reset_next_alter.
      * reflexivity.
      * cbn [set_hl hl]. apply same_but_next_is_Some with (h := hl s);
             [apply relink_heap_same|]. apply Hlive.
           apply chain_last_elem.
    + intros p Hp. apply ring_heap_frame. by rewrite Hp'.
    + apply ring_heap_ring; [by rewrite Hp'|done].
Qed.

End LadderizeNode.

(** ** The loop over the nodes *)

Section Ladderize.
Context {ND ED : Type} {PN : Payload ND} {PE : Payload ED}.
Implicit Types s : State ND ED.

(** The sizes [ladderize] reads do not depend on [next] fields. *)
Lemma child_size_same s0 s sizes l :
  hn s = hn s0 → same_but_next (hl s0) (hl s) →
  child_size s sizes l = child_size s0 sizes l.
Proof.
  intros Hhn Hsame. unfold child_size, node_index_of, node_of, outer_of.
  destruct (same_but_next_fields _ _ l Hsame) as (-> & _ & _).
  destruct (same_but_next_fields _ _ (l_outer (hl s0 !!! l)) Hsame) as (_ & -> & _).
  by rewrite Hhn.
Qed.

Lemma child_ok_same s0 s sizes l :
  hn s = hn s0 → same_but_next (hl s0) (hl s) →
  child_ok s0 sizes l → child_ok s sizes l.
Proof.
  intros Hhn Hsame (Hl & Ho & Hn & Hsz).
  unfold child_ok, node_index_of, node_of, outer_of in *.
  destruct (same_but_next_fields _ _ l Hsame) as (-> & _ & _).
  destruct (same_but_next_fields _ _ (l_outer (hl s0 !!! l)) Hsame) as (_ & -> & _).
  rewrite Hhn. repeat split; [| |done|done].
  - by apply (same_but_next_is_Some _ _ _ Hsame).
  - by apply (same_but_next_is_Some _ _ _ Hsame).
Qed.

(** The rings of different nodes share no link. *)
Lemma rings_disjoint s0 sizes fuel n r ns rs p r' :
  node_ring_ok s0 sizes fuel n r →
  Forall2 (node_ring_ok s0 sizes fuel) ns rs → n ∉ ns →
  p ∈ ring_links r → r' ∈ rs → p ∉ ring_links r'.
Proof.
  intros (x & _ & _ & _ & Hown & _) Hall Hn Hp Hr' Hp'.
  apply list_elem_of_lookup in Hr' as [i Hi].
  destruct (Forall2_lookup_r _ _ _ _ _ Hall Hi) as (n' & Hn' & (x' & _ & _ & _ & Hown' & _)).
  rewrite Forall_forall in Hown, Hown'.
  apply Hn. rewrite <- (Hown p Hp), (Hown' p Hp').
  by eapply list_elem_of_lookup_2.
Qed.

Lemma ladderize_loop s0 sizes order fuel : ∀ ns rs,
  Forall2 (node_ring_ok s0 sizes fuel) ns rs →
  ∀ s, NoDup ns →
  hn s = hn s0 →
  same_but_next (hl s0) (hl s) →
  (∀ r p, r ∈ rs → p ∈ ring_links r → hl s !! p = hl s0 !! p) →
  ∃ h',
    for_each ns (ladderize_node fuel sizes order) s = Ok tt (set_hl (λ _, h') s) ∧
    same_but_next (hl s0) h' ∧
    (∀ p, (∀ r, r ∈ rs → p ∉ ring_links r) → h' !! p = hl s !! p) ∧
    Forall (λ r, ∃ rest', ring h' r.1 rest' ∧
                 ladderized order (child_size s0 sizes) r.2 rest') rs.
Proof.
  induction 1 as [|n r ns rs Hnr Hall IH]; intros s Hnd Hhn Hsame Hkeep;
    cbn [for_each].
  - exists (hl s). split; [by destruct s|]. split; [done|]. split; [done|constructor].
  - apply NoDup_cons in Hnd as [Hn Hnd].
    pose proof Hnr as (x & Hx & Hlink & Hring & Hown & Hok & Hf).
    assert (ring (hl s) (n_link x) r.2) as Hring'.
    { rewrite Hlink. eapply chain_frame; [|exact Hring].
      intros p Hp. apply (Hkeep r); [apply elem_of_cons; by left|done]. }
    assert (Forall (child_ok s sizes) r.2) as Hok'.
    { eapply Forall_impl; [exact Hok|]. intros l. by apply child_ok_same. }
    rewrite <- Hhn in Hx.
    destruct (ladderize_node_spec s sizes order n x r.2 fuel Hx Hring' Hok' Hf)
      as (h1 & rest' & Hrun & Hsame1 & Hframe1 & Hring1 & Hlad).
    rewrite Hlink in Hframe1, Hring1.
    rewrite (bind_Ok _ _ s tt _ Hrun).
    destruct (IH (set_hl (λ _, h1) s)) as (h2 & Hrun2 & Hsame2 & Hframe2 & Hrs).
    + done.
    + done.
    + cbn [set_hl hl]. by eapply same_but_next_trans.
    + intros r' p Hr' Hp. cbn [set_hl hl]. rewrite Hframe1.
      * apply (Hkeep r'); [apply elem_of_cons; by right|done].
      * intros Hp'. by eapply (rings_disjoint s0 sizes fuel n r ns rs p r').
    + exists h2. split; [exact Hrun2|]. split; [done|]. split.
      * intros p Hp. rewrite Hframe2.
        -- cbn [set_hl hl]. apply Hframe1. apply Hp. apply elem_of_cons. by left.
        -- intros r' Hr'. apply Hp. apply elem_of_cons. by right.
      * constructor; [|exact Hrs]. exists rest'. split.
        -- eapply chain_frame; [|exact Hring1]. intros p Hp.
           apply Hframe2. intros r' Hr'.
           eapply (rings_disjoint s0 sizes fuel n r ns rs p r'); try done.
           unfold ring_links. by rewrite <- (ladderized_Permutation _ _ _ _ Hlad).
        -- eapply ladderized_ext; [|exact Hlad].
           intros l _. by apply child_size_same.
Qed.

(** X16.  Let [ladderize] run on a tree whose node vector lists distinct
    nodes, the node at each position having the ring [r.1 :: r.2] with [r.1]
    its primary link, and let [sizes] be the vector [subtree_sizes]
    computes.  The primary link is the link facing the root at every node
    but the root node, where it is the root link and faces the first child.
    Then [ladderize] returns; it changes [next] fields of links and nothing
    else; and afterwards the ring of every node is [r.1 :: rest'], where
    [rest'] is a rearrangement of [r.2], the links after the primary link,
    in which the sizes at the outer-end nodes are non-decreasing for
    [kSmallFirst] and non-increasing for [kLargeFirst], and links of equal
    size are in the order they had in [r.2].  The primary link stays first,
    also at the root node. *)
Theorem ladderize_sorts_rings (subtree_sizes : State ND ED → list nat)
    (fuel : nat) (order : LadderizeOrder) s (rings : list (ptr * list ptr)) :
  NoDup (nodes_ s) →
  Forall2 (node_ring_ok s (subtree_sizes s) fuel) (nodes_ s) rings →
  ∃ s',
    ladderize subtree_sizes fuel order s = Ok tt s' ∧
    links_ s' = links_ s ∧ nodes_ s' = nodes_ s ∧ edges_ s' = edges_ s ∧
    root_link_index_ s' = root_link_index_ s ∧
    hn s' = hn s ∧ he s' = he s ∧ same_but_next (hl s) (hl s') ∧
    Forall (λ r, ∃ rest',
      ring (hl s') r.1 rest' ∧ rest' ≡ₚ r.2 ∧
      sizes_sorted order (map (child_size s' (subtree_sizes s)) rest') ∧
      keeps_order (child_size s' (subtree_sizes s)) r.2 rest') rings.
Proof.
  intros Hnd Hall.
  destruct (ladderize_loop s (subtree_sizes s) order fuel _ _ Hall s Hnd eq_refl
              (same_but_next_refl _) (λ _ _ _ _, eq_refl))
    as (h' & Hrun & Hsame & _ & Hrs).
  exists (set_hl (λ _, h') s). split; [exact Hrun|].
  cbn [set_hl links_ nodes_ edges_ root_link_index_ hn he hl].
  do 6 (split; [done|]). split; [done|].
  eapply Forall_impl; [exact Hrs|]. intros r (rest' & Hring & Hlad).
  assert (ladderized order (child_size (set_hl (λ _, h') s) (subtree_sizes s)) r.2 rest')
    as Hlad'.
  { eapply ladderized_ext; [|exact Hlad]. intros l _. symmetry.
    by apply child_size_same. }
  exists rest'. split; [done|]. split; [by eapply ladderized_Permutation|].
  split; [by eapply ladderized_sizes_sorted|by eapply ladderized_keeps_order].
Qed.

End Ladderize.


(** ** What an insertion leaves behind *)

Lemma chain_live h cur rest stop :
  chain h cur rest stop → ∀ p, p ∈ cur :: rest → is_Some (h !! p).
Proof.
  revert cur. induction rest as [|y rest IH]; intros cur Hc p Hp.
  - apply list_elem_of_singleton in Hp as ->. destruct Hc as (l & Hl & _). eauto.
  - apply elem_of_cons in Hp as [->|Hp].
    + destruct Hc as (l & Hl & _). eauto.
    + destruct Hc as (l & Hl & Hn & Hne & Hc). by eapply IH.
Qed.

(** Lookups in heaps built from [insert], [alter] and [delete]. *)
Ltac heap_simpl :=
  repeat (first
    [ rewrite lookup_insert_eq
    | rewrite lookup_insert_ne by (done || congruence)
    | rewrite lookup_alter_eq
    | rewrite lookup_alter_ne by (done || congruence)
    | rewrite lookup_delete_eq
    | rewrite lookup_delete_ne by (done || congruence)
    | match goal with
      | H : ?m !! ?p = _ |- context [?m !! ?p] => rewrite H
      end ];
  cbn [fmap option_fmap option_map]).

(** Equality of two heaps, decided key by key: the keys [ps] are looked at
    one by one, every other key in one go. *)
Ltac heap_eq_at k ps :=
  lazymatch ps with
  | @nil _ => heap_simpl; try done
  | @cons _ ?p ?ps' =>
      destruct (decide (k = p)) as [->|];
      [heap_simpl; try done|heap_eq_at k ps']
  end.
Ltac heap_eq ps :=
  let k := fresh "k" in apply map_eq; intros k; heap_eq_at k ps.

Section ChainEdits.

Lemma chain_set_last h stop' rest : ∀ cur stop,
  chain h cur rest stop → stop' ∉ rest →
  chain (alter (set_next stop') (chain_last cur rest) h) cur rest stop'.
Proof.
  induction rest as [|y rest IH]; intros cur stop Hc Hs; cbn [chain chain_last].
  - destruct Hc as (l & Hl & _). exists (set_next stop' l).
    by rewrite lookup_alter_eq, Hl.
  - pose proof (chain_NoDup _ _ _ _ Hc) as Hnd.
    destruct Hc as (l & Hl & Hn & Hne & Hc).
    apply not_elem_of_cons in Hs as [Hsy Hs].
    apply NoDup_cons in Hnd as [Hcur _].
    exists l. split; [|split; [done|split; [done|by eapply IH]]].
    rewrite lookup_alter_ne; [done|].
    intros E. apply Hcur. rewrite <- E. apply chain_last_elem.
Qed.

Lemma chain_snoc h c lc stop rest : ∀ cur,
  chain h cur rest c → h !! c = Some lc → l_next lc = stop →
  stop ∉ rest → c ≠ stop →
  chain h cur (rest ++ [c]) stop.
Proof.
  induction rest as [|y rest IH]; intros cur Hc Hlc Hn Hs Hcs; cbn [chain app].
  - destruct Hc as (l & Hl & Hnx). exists l. repeat (split; [done|]). by exists lc.
  - destruct Hc as (l & Hl & Hnx & Hne & Hc).
    apply not_elem_of_cons in Hs as [Hsy Hs].
    exists l. repeat (split; [done|]). by apply IH.
Qed.

(** A ring grows at its end: the last link is pointed at the new link [c],
    which closes the ring. *)
Lemma ring_extend h up rest c lc :
  ring h up rest → h !! c = None → l_next lc = up →
  ring (<[c:=lc]> (alter (set_next c) (chain_last up rest) h)) up (rest ++ [c]).
Proof.
  intros Hr Hc Hn. unfold ring.
  assert (c ∉ up :: rest) as Hnin.
  { intros Hin. pose proof (chain_live h up rest up Hr c Hin) as [? ?]. congruence. }
  apply not_elem_of_cons in Hnin as [Hcu Hcr].
  apply (chain_snoc _ c lc).
  - apply chain_insert_fresh.
    + rewrite lookup_alter_ne; [done|]. intros E.
      pose proof (chain_last_elem up rest) as Hin. rewrite E in Hin.
      apply elem_of_cons in Hin as [?|?]; done.
    + by eapply chain_set_last.
  - by rewrite lookup_insert_eq.
  - done.
  - by eapply chain_stop_notin.
  - done.
Qed.

End ChainEdits.

(** A vector whose elements carry their positions stays so when elements
    carrying the next positions are appended and the stored indices are not
    touched. *)
Lemma indexed_grow {A} (idx : A → nat) (v new : list ptr) (h h' : gmap ptr A) :
  (∀ i p, v !! i = Some p → ∃ a, h !! p = Some a ∧ idx a = i) →
  (∀ p a, h !! p = Some a → ∃ a', h' !! p = Some a' ∧ idx a' = idx a) →
  (∀ j p, new !! j = Some p → ∃ a, h' !! p = Some a ∧ idx a = length v + j) →
  ∀ i p, (v ++ new) !! i = Some p → ∃ a, h' !! p = Some a ∧ idx a = i.
Proof.
  intros Hv Hkeep Hnew i p Hp.
  destruct (decide (i < length v)) as [Hlt|Hge].
  - rewrite lookup_app_l in Hp by done.
    destruct (Hv i p Hp) as (a & Ha & <-). by apply (Hkeep p a).
  - rewrite lookup_app_r in Hp by lia.
    destruct (Hnew _ _ Hp) as (a & Ha & Hi). exists a. split; [done|lia].
Qed.

Section AddLeaf.
Context {ND ED : Type} {PN : Payload ND} {PE : Payload ED}.
Implicit Types s : State ND ED.

Lemma add_new_node_run s n x rest l erec dn de fuel :
  hn s !! n = Some x →
  nodes_ s !! n_index x = Some n →
  ring (hl s) (n_link x) rest →
  length rest < fuel →
  hl s !! n_link x = Some l →
  he s !! l_edge l = Some erec →
  n_data x = Some dn →
  e_data erec = Some de →
  add_new_node fuel n s
  = Ok (new_node1 s) (leaf_added s n (n_link x) (chain_last (n_link x) rest) dn de).
Proof.
  intros Hn Hb Hr Hf Hl He Hdn Hde.
  unfold add_new_node, leaf_added, new_link2, new_link1, new_node1, new_edge1.
  rewrite (bind_Ok _ _ s true s) by (by apply (belongs_to_node_true s n x)).
  cbn [negb].
  mstep_new con Hcon. mstep_new end_ Hend.
  apply lookup_insert_None in Hend as [Hend Hce].
  mstep_new en Hen. mstep_new ce Hce'.
  do 6 mstep.
  destruct (chain_last_live _ _ _ _ Hr) as (ll & Hll & Hlln).
  mstep_by ltac:(apply (ring_pred_chain _ _ rest); [|done]; cbn [hl];
    eapply chain_mono; [|exact Hr];
    apply map_subseteq_spec; intros q lq Hq; by lookup_simpl).
  remember (chain_last (n_link x) rest) as last eqn:Hlast. clear Hlast.
  destruct (decide (last = n_link x)) as [->|Hneq];
    [assert (ll = l) as -> by congruence; clear Hll|].
  all: repeat mstep.
  all: unfold ret; rewrite length_app, <- !app_assoc; cbn [length app].
  all: replace (length (links_ s) + 1) with (S (length (links_ s))) by lia.
  all: f_equal; f_equal.
  - heap_eq [end_; con; n_link x].
  - heap_eq [end_; con; last].
Qed.

(** The shape of the store [leaf_added]. *)
Lemma leaf_added_shape s n up rest dn de :
  ring (hl s) up rest →
  let s1 := leaf_added s n up (chain_last up rest) dn de in
  (hn s !! new_node1 s = None ∧ hl s !! new_link1 s = None ∧
   hl s !! new_link2 s = None ∧ he s !! new_edge1 s = None ∧
   new_link1 s ≠ new_link2 s) ∧
  hn s1 !! new_node1 s
    = Some (mkNode (length (nodes_ s)) (new_link2 s) (Some (recreate dn))) ∧
  ring (hl s1) (new_link2 s) [] ∧
  ring (hl s1) up (rest ++ [new_link1 s]) ∧
  (∀ p, p ≠ new_node1 s → hn s1 !! p = hn s !! p) ∧
  hl s1 !! new_link1 s
    = Some (mkLink (length (links_ s)) up (new_link2 s) n (new_edge1 s)) ∧
  hl s1 !! new_link2 s
    = Some (mkLink (S (length (links_ s))) (new_link2 s) (new_link1 s) (new_node1 s)
              (new_edge1 s)) ∧
  he s1 !! new_edge1 s
    = Some (mkEdge (length (edges_ s)) (new_link1 s) (new_link2 s) (Some (recreate de))).
Proof.
  intros Hr s1. subst s1.
  assert (hl s !! new_link1 s = None) as Hcon by apply fresh_ptr_None.
  assert (<[new_link1 s:=mkLink 0 nullptr nullptr nullptr nullptr]> (hl s)
            !! new_link2 s = None) as Hend by apply fresh_ptr_None.
  apply lookup_insert_None in Hend as [Hend Hce].
  assert (hn s !! new_node1 s = None) as Hen by apply fresh_ptr_None.
  assert (he s !! new_edge1 s = None) as Hed by apply fresh_ptr_None.
  split; [done|]. unfold leaf_added. cbn [hl hn he].
  split; [by rewrite lookup_insert_eq|]. split.
  { unfold ring. cbn [chain]. eexists. by rewrite lookup_insert_eq. }
  split.
  { apply chain_insert_fresh.
    - rewrite lookup_insert_ne by done. apply eq_None_not_Some.
      rewrite lookup_alter_is_Some. by rewrite Hend; intros [? ?].
    - by apply ring_extend. }
  split; [intros p Hp; by rewrite lookup_insert_ne|].
  split; [by rewrite lookup_insert_ne, lookup_insert_eq|].
  split; by rewrite lookup_insert_eq.
Qed.

(** X1.  [add_new_node] on a node [n] of the tree whose ring is closed and
    whose payloads are there returns a node that was not there before.  The
    new node is a leaf: its ring is its one link [end_link].  The ring of [n]
    is the old one with the new link [con_link] put last, before the ring
    returns to the primary link.  The two new links are each other's outer
    link and lie on the new edge, whose primary link is the one at [n]; the
    payloads are clones of those of [n] and of the edge at its primary
    link. *)
Theorem add_new_node_attaches_leaf s n x rest l erec dn de fuel :
  hn s !! n = Some x →
  nodes_ s !! n_index x = Some n →
  ring (hl s) (n_link x) rest →
  length rest < fuel →
  hl s !! n_link x = Some l →
  he s !! l_edge l = Some erec →
  n_data x = Some dn →
  e_data erec = Some de →
  ∃ s1 end_node con_link end_link con_edge,
    add_new_node fuel n s = Ok end_node s1 ∧
    (hn s !! end_node = None ∧ hl s !! con_link = None ∧ hl s !! end_link = None ∧
     he s !! con_edge = None ∧ con_link ≠ end_link) ∧
    hn s1 !! end_node
      = Some (mkNode (length (nodes_ s)) end_link (Some (recreate dn))) ∧
    ring (hl s1) end_link [] ∧
    ring (hl s1) (n_link x) (rest ++ [con_link]) ∧
    hn s1 !! n = Some x ∧
    hl s1 !! con_link
      = Some (mkLink (length (links_ s)) (n_link x) end_link n con_edge) ∧
    hl s1 !! end_link
      = Some (mkLink (S (length (links_ s))) end_link con_link end_node con_edge) ∧
    he s1 !! con_edge
      = Some (mkEdge (length (edges_ s)) con_link end_link (Some (recreate de))).
Proof.
  intros Hn Hb Hr Hf Hl He Hdn Hde.
  exists (leaf_added s n (n_link x) (chain_last (n_link x) rest) dn de),
    (new_node1 s), (new_link1 s), (new_link2 s), (new_edge1 s).
  split; [by eapply add_new_node_run|].
  destruct (leaf_added_shape s n (n_link x) rest dn de Hr)
    as (Hnew & Hnode & Hleaf & Hring & Hframe & Hcon & Hend & Hedge).
  repeat (split; [done|]). split; [|done].
  rewrite Hframe; [done|]. destruct Hnew as (? & _). congruence.
Qed.

(** X2.  The same call keeps the bookkeeping of the tree: there are one
    node, one edge and two links more, appended behind the old ones; stored
    indices still equal positions; the root link index is the old one; no
    old node or edge is touched, and old links differ from before in [next]
    fields at most. *)
Theorem add_new_node_keeps_indices s n x rest l erec dn de fuel :
  links_indexed s → nodes_indexed s → edges_indexed s →
  hn s !! n = Some x →
  nodes_ s !! n_index x = Some n →
  ring (hl s) (n_link x) rest →
  length rest < fuel →
  hl s !! n_link x = Some l →
  he s !! l_edge l = Some erec →
  n_data x = Some dn →
  e_data erec = Some de →
  ∃ s1 end_node con_link end_link con_edge,
    add_new_node fuel n s = Ok end_node s1 ∧
    links_ s1 = links_ s ++ [con_link; end_link] ∧
    nodes_ s1 = nodes_ s ++ [end_node] ∧
    edges_ s1 = edges_ s ++ [con_edge] ∧
    root_link_index_ s1 = root_link_index_ s ∧
    links_indexed s1 ∧ nodes_indexed s1 ∧ edges_indexed s1 ∧
    hn s ⊆ hn s1 ∧ he s ⊆ he s1 ∧
    (∀ p, is_Some (hl s !! p) →
          set_next nullptr <$> hl s1 !! p = set_next nullptr <$> hl s !! p).
Proof.
  intros Hil Hin Hie Hn Hb Hr Hf Hl He Hdn Hde.
  exists (leaf_added s n (n_link x) (chain_last (n_link x) rest) dn de),
    (new_node1 s), (new_link1 s), (new_link2 s), (new_edge1 s).
  split; [by eapply add_new_node_run|].
  assert (hl s !! new_link1 s = None) as Hcon by apply fresh_ptr_None.
  assert (<[new_link1 s:=mkLink 0 nullptr nullptr nullptr nullptr]> (hl s)
            !! new_link2 s = None) as Hend by apply fresh_ptr_None.
  apply lookup_insert_None in Hend as [Hend Hce].
  assert (hn s !! new_node1 s = None) as Hen by apply fresh_ptr_None.
  assert (he s !! new_edge1 s = None) as Hed by apply fresh_ptr_None.
  assert (∀ p a, hl s !! p = Some a →
    ∃ a', hl (leaf_added s n (n_link x) (chain_last (n_link x) rest) dn de) !! p
            = Some a' ∧ set_next nullptr a' = set_next nullptr a) as Hold.
  { intros p a Ha. unfold leaf_added. cbn [hl].
    rewrite !lookup_insert_ne by congruence.
    destruct (decide (chain_last (n_link x) rest = p)) as [->|Hne].
    - rewrite lookup_alter_eq, Ha. by eexists.
    - rewrite lookup_alter_ne by done. by eexists. }
  do 4 (split; [done|]). split; [|split; [|split; [|split; [|split]]]].
  - unfold links_indexed. cbn [links_].
    apply (indexed_grow l_index _ _ (hl s)); [done| |].
    + intros p a Ha. destruct (Hold p a Ha) as (a' & Ha' & Heq).
      exists a'. split; [done|]. by injection Heq.
    + intros j p Hj. unfold leaf_added. cbn [hl].
      destruct j as [|[|j]]; cbn in Hj; simplify_eq.
      * rewrite lookup_insert_ne, lookup_insert_eq by done.
        eexists. split; [done|]. cbn. lia.
      * rewrite lookup_insert_eq. eexists. split; [done|]. cbn. lia.
  - unfold nodes_indexed. cbn [nodes_ hn leaf_added].
    apply (indexed_grow n_index _ _ (hn s)); [done| |].
    + intros p a Ha. exists a. split; [|done].
      rewrite lookup_insert_ne; [done|congruence].
    + intros j p Hj. destruct j as [|j]; cbn in Hj; simplify_eq.
      rewrite lookup_insert_eq. eexists. split; [done|]. cbn. lia.
  - unfold edges_indexed. cbn [edges_ he leaf_added].
    apply (indexed_grow e_index _ _ (he s)); [done| |].
    + intros p a Ha. exists a. split; [|done].
      rewrite lookup_insert_ne; [done|congruence].
    + intros j p Hj. destruct j as [|j]; cbn in Hj; simplify_eq.
      rewrite lookup_insert_eq. eexists. split; [done|]. cbn. lia.
  - by apply insert_subseteq.
  - by apply insert_subseteq.
  - intros p [a Ha]. destruct (Hold p a Ha) as (a' & Ha' & Heq).
    rewrite Ha', Ha. cbn. by rewrite Heq.
Qed.

End AddLeaf.

Section SplitEdge.
Context {ND ED : Type} {PN : Payload ND} {PE : Payload ED}.
Implicit Types s : State ND ED.

Lemma add_new_node_edge_rewire_run s e te lp ls d pnx dn :
  he s !! e = Some te →
  hl s !! e_link_p te = Some lp →
  hl s !! e_link_s te = Some ls →
  e_link_p te ≠ e_link_s te →
  e_data te = Some d →
  hn s !! l_node lp = Some pnx →
  n_data pnx = Some dn →
  add_new_node_edge_rewire e s = Ok (new_node1 s, new_edge1 s) (edge_split s e te dn d).
Proof.
  intros He Hp Hs Hne Hd Hn Hdn.
  unfold add_new_node_edge_rewire, edge_split, new_link2, new_link1, new_node1, new_edge1.
  mstep_new pri Hpri. mstep_new sec Hsec.
  apply lookup_insert_None in Hsec as [Hsec Hps].
  mstep_new mid Hmid. mstep_new sede Hsede.
  repeat mstep.
  unfold ret; rewrite length_app, <- !app_assoc; cbn [length app].
  replace (length (links_ s) + 1) with (S (length (links_ s))) by lia.
  f_equal; f_equal.
  heap_eq [e_link_s te; e_link_p te; sec; pri].
Qed.

Lemma add_new_node_edge_run s e te lp ls d pnx dn :
  he s !! e = Some te →
  edges_ s !! e_index te = Some e →
  hl s !! e_link_p te = Some lp →
  hl s !! e_link_s te = Some ls →
  e_link_p te ≠ e_link_s te →
  e_data te = Some d →
  hn s !! l_node lp = Some pnx →
  n_data pnx = Some dn →
  add_new_node_edge e None s = Ok (new_node1 s) (edge_split s e te dn d).
Proof.
  intros He Hb Hp Hs Hne Hd Hn Hdn. unfold add_new_node_edge.
  rewrite (bind_Ok _ _ s true s) by by apply (belongs_to_edge_true s e te).
  cbn [negb].
  by rewrite (bind_Ok _ _ s _ _
    (add_new_node_edge_rewire_run s e te lp ls d pnx dn He Hp Hs Hne Hd Hn Hdn)).
Qed.


Lemma edge_split_old_links s e te lp ls dn d p a :
  hl s !! e_link_p te = Some lp →
  hl s !! e_link_s te = Some ls →
  hl s !! p = Some a →
  ∃ a', hl (edge_split s e te dn d) !! p = Some a' ∧
        l_index a' = l_index a ∧ l_next a' = l_next a ∧ l_node a' = l_node a.
Proof.
  intros Hp Hs Ha.
  assert (hl s !! new_link1 s = None) as Hpri by apply fresh_ptr_None.
  assert (<[new_link1 s:=mkLink 0 nullptr nullptr nullptr nullptr]> (hl s)
            !! new_link2 s = None) as Hsec by apply fresh_ptr_None.
  apply lookup_insert_None in Hsec as [Hsec Hps].
  unfold edge_split. cbn [hl].
  destruct (decide (p = e_link_s te)) as [->|Hns].
  { rewrite lookup_alter_eq.
    destruct (decide (e_link_s te = e_link_p te)) as [Heq|Hne].
    - rewrite Heq, lookup_alter_eq. heap_simpl. rewrite Heq in Ha.
      eexists. split; [done|]. by simplify_eq.
    - heap_simpl. eexists. split; [done|]. by simplify_eq. }
  rewrite lookup_alter_ne by done.
  destruct (decide (p = e_link_p te)) as [->|Hnp].
  { heap_simpl. eexists. split; [done|]. by simplify_eq. }
  heap_simpl. by eexists.
Qed.

(** X5.  The edge-splitting [add_new_node], called without callback, keeps
    the bookkeeping of the tree: one node, one edge and two links are
    appended behind the old ones; stored indices still equal positions; the
    root link index stays; the new node has exactly the two new links in its
    ring; no old node is touched, and every old link keeps its index, its
    node and its [next], so that no old ring changes. *)
Theorem add_new_node_edge_keeps_indices s e te lp ls d pnx dn :
  links_indexed s → nodes_indexed s → edges_indexed s →
  he s !! e = Some te →
  edges_ s !! e_index te = Some e →
  hl s !! e_link_p te = Some lp →
  hl s !! e_link_s te = Some ls →
  e_link_p te ≠ e_link_s te →
  e_data te = Some d →
  hn s !! l_node lp = Some pnx →
  n_data pnx = Some dn →
  ∃ s1 mid_node pri_link sec_link sec_edge,
    add_new_node_edge e None s = Ok mid_node s1 ∧
    links_ s1 = links_ s ++ [pri_link; sec_link] ∧
    nodes_ s1 = nodes_ s ++ [mid_node] ∧
    edges_ s1 = edges_ s ++ [sec_edge] ∧
    root_link_index_ s1 = root_link_index_ s ∧
    links_indexed s1 ∧ nodes_indexed s1 ∧ edges_indexed s1 ∧
    (∃ xm, hn s1 !! mid_node = Some xm ∧ n_link xm = pri_link) ∧
    ring (hl s1) pri_link [sec_link] ∧
    hn s ⊆ hn s1 ∧
    (∀ p a, hl s !! p = Some a →
       ∃ a', hl s1 !! p = Some a' ∧
             l_index a' = l_index a ∧ l_next a' = l_next a ∧ l_node a' = l_node a).
Proof.
  intros Hil Hin Hie He Hb Hp Hs Hne Hd Hn Hdn.
  exists (edge_split s e te dn d), (new_node1 s), (new_link1 s), (new_link2 s),
    (new_edge1 s).
  split; [by eapply add_new_node_edge_run|].
  assert (hl s !! new_link1 s = None) as Hpri by apply fresh_ptr_None.
  assert (<[new_link1 s:=mkLink 0 nullptr nullptr nullptr nullptr]> (hl s)
            !! new_link2 s = None) as Hsec by apply fresh_ptr_None.
  apply lookup_insert_None in Hsec as [Hsec Hps].
  assert (hn s !! new_node1 s = None) as Hmid by apply fresh_ptr_None.
  assert (he s !! new_edge1 s = None) as Hsede by apply fresh_ptr_None.
  assert (e_link_p te ≠ new_link1 s) by congruence.
  assert (e_link_p te ≠ new_link2 s) by congruence.
  assert (e_link_s te ≠ new_link1 s) by congruence.
  assert (e_link_s te ≠ new_link2 s) by congruence.
  do 4 (split; [done|]).
  split; [|split; [|split; [|split; [|split; [|split]]]]].
  - unfold links_indexed. cbn [links_ edge_split].
    apply (indexed_grow l_index _ _ (hl s)); [done| |].
    + intros p a Ha.
      destruct (edge_split_old_links s e te lp ls dn d p a Hp Hs Ha) as (a' & ? & ? & _).
      by exists a'.
    + intros j p Hj. unfold edge_split. cbn [hl].
      destruct j as [|[|j]]; cbn in Hj; simplify_eq.
      * heap_simpl. eexists. split; [done|]. cbn. lia.
      * heap_simpl. eexists. split; [done|]. cbn. lia.
  - unfold nodes_indexed. cbn [nodes_ hn edge_split].
    apply (indexed_grow n_index _ _ (hn s)); [done| |].
    + intros p a Ha. exists a. split; [|done].
      rewrite lookup_insert_ne; [done|congruence].
    + intros j p Hj. destruct j as [|j]; cbn in Hj; simplify_eq.
      rewrite lookup_insert_eq. eexists. split; [done|]. cbn. lia.
  - unfold edges_indexed. cbn [edges_ he edge_split].
    apply (indexed_grow e_index _ _ (he s)); [done| |].
    + intros p a Ha. destruct (decide (p = e)) as [->|Hpe].
      * rewrite lookup_insert_eq. eexists. split; [done|]. by simplify_eq.
      * rewrite lookup_insert_ne by done.
        rewrite lookup_insert_ne by congruence. by exists a.
    + intros j p Hj. destruct j as [|j]; cbn in Hj; simplify_eq.
      assert (e ≠ new_edge1 s) by congruence.
      heap_simpl. eexists. split; [done|]. cbn. lia.
  - eexists. cbn [hn edge_split]. by rewrite lookup_insert_eq.
  - unfold ring, edge_split. cbn [chain hl].
    eexists. split; [by heap_simpl|]. do 2 (split; [done|]).
    eexists. split; [by heap_simpl|done].
  - by apply insert_subseteq.
  - intros p a Ha. by eapply edge_split_old_links.
Qed.


Lemma edge_split_shape s e te lp ls dn d :
  hl s !! e_link_p te = Some lp →
  hl s !! e_link_s te = Some ls →
  e_link_p te ≠ e_link_s te →
  is_Some (he s !! e) →
  let s1 := edge_split s e te dn d in
  hn s1 !! new_node1 s
    = Some (mkNode (length (nodes_ s)) (new_link1 s) (Some (recreate dn))) ∧
  nodes_ s1 !! length (nodes_ s) = Some (new_node1 s) ∧
  hl s1 !! new_link1 s
    = Some (mkLink (length (links_ s)) (new_link2 s) (e_link_p te) (new_node1 s) e) ∧
  hl s1 !! new_link2 s
    = Some (mkLink (S (length (links_ s))) (new_link1 s) (e_link_s te) (new_node1 s)
              (new_edge1 s)) ∧
  ring (hl s1) (new_link1 s) [new_link2 s] ∧
  he s1 !! e = Some (mkEdge (e_index te) (e_link_p te) (new_link1 s) (e_data te)).
Proof.
  intros Hp Hs Hne [te0 He] s1. subst s1.
  assert (hl s !! new_link1 s = None) as Hpri by apply fresh_ptr_None.
  assert (<[new_link1 s:=mkLink 0 nullptr nullptr nullptr nullptr]> (hl s)
            !! new_link2 s = None) as Hsec by apply fresh_ptr_None.
  apply lookup_insert_None in Hsec as [Hsec Hps].
  assert (e_link_p te ≠ new_link1 s) by congruence.
  assert (e_link_p te ≠ new_link2 s) by congruence.
  assert (e_link_s te ≠ new_link1 s) by congruence.
  assert (e_link_s te ≠ new_link2 s) by congruence.
  unfold edge_split. cbn [hl hn he nodes_].
  split; [by rewrite lookup_insert_eq|].
  split; [by rewrite list_lookup_middle|].
  split; [by heap_simpl|]. split; [by heap_simpl|].
  split; [|by rewrite lookup_insert_eq].
  unfold ring. cbn [chain].
  eexists. split; [by heap_simpl|]. do 2 (split; [done|]).
  eexists. split; [by heap_simpl|done].
Qed.

(** X6.  [add_new_leaf_node] on an edge of the tree (no callback) first
    splits the edge by a new node and then hangs a new leaf on that node: two
    nodes are appended, the mid node first; there are two edges and four
    links more; the ring of the mid node is its link towards the primary end
    of the edge, its link towards the secondary end, and its link to the
    leaf, in this order; the leaf is the node returned, its payload is a
    clone of the mid node's payload, and the payload of its edge is a clone
    of the payload of the split edge. *)
Theorem add_new_leaf_node_hangs_leaf s e te lp ls d pnx dn fuel :
  he s !! e = Some te →
  edges_ s !! e_index te = Some e →
  hl s !! e_link_p te = Some lp →
  hl s !! e_link_s te = Some ls →
  e_link_p te ≠ e_link_s te →
  e_data te = Some d →
  hn s !! l_node lp = Some pnx →
  n_data pnx = Some dn →
  1 < fuel →
  ∃ s2 mid_node pri_link sec_link leaf con_link end_link con_edge,
    add_new_leaf_node fuel e None s = Ok leaf s2 ∧
    nodes_ s2 = nodes_ s ++ [mid_node; leaf] ∧
    length (edges_ s2) = length (edges_ s) + 2 ∧
    length (links_ s2) = length (links_ s) + 4 ∧
    n_link <$> hn s2 !! mid_node = Some pri_link ∧
    ring (hl s2) pri_link [sec_link; con_link] ∧
    outer_is (hl s2) pri_link (e_link_p te) ∧
    outer_is (hl s2) sec_link (e_link_s te) ∧
    outer_is (hl s2) con_link end_link ∧
    outer_is (hl s2) end_link con_link ∧
    ring (hl s2) end_link [] ∧
    hn s2 !! leaf
      = Some (mkNode (S (length (nodes_ s))) end_link (Some (recreate (recreate dn)))) ∧
    he s2 !! con_edge
      = Some (mkEdge (S (length (edges_ s))) con_link end_link (Some (recreate d))).
Proof.
  intros He Hb Hp Hs Hne Hd Hn Hdn Hf.
  set (s1 := edge_split s e te dn d).
  destruct (edge_split_shape s e te lp ls dn d Hp Hs Hne (ex_intro _ te He))
    as (Hmid & Hmidin & Hpri & Hsec & Hring & Hedge).
  fold s1 in Hmid, Hmidin, Hpri, Hsec, Hring, Hedge.
  assert (length (nodes_ s1) = S (length (nodes_ s))) as Hln
    by (cbn; rewrite length_app; cbn; lia).
  assert (length (edges_ s1) = S (length (edges_ s))) as Hle
    by (cbn; rewrite length_app; cbn; lia).
  assert (length (links_ s1) = S (S (length (links_ s)))) as Hll
    by (cbn; rewrite length_app; cbn; lia).
  pose proof (add_new_node_run s1 (new_node1 s) _ [new_link2 s] _ _ (recreate dn) d fuel
                Hmid Hmidin Hring Hf Hpri Hedge eq_refl Hd) as Hrun.
  cbn [n_link chain_last] in Hrun.
  destruct (leaf_added_shape s1 (new_node1 s) (new_link1 s) [new_link2 s] (recreate dn) d
              Hring) as (Hnew & Hleafn & Hleaf & Hring2 & Hframe & Hcon & Hend & Hce).
  cbn [chain_last] in Hleafn, Hleaf, Hring2, Hframe, Hcon, Hend, Hce.
  set (s2 := leaf_added s1 (new_node1 s) (new_link1 s) (new_link2 s) (recreate dn) d) in *.
  destruct Hnew as (Hnn & Hnc & Hne2 & Hnce & Hce2).
  exists s2, (new_node1 s), (new_link1 s), (new_link2 s), (new_node1 s1),
    (new_link1 s1), (new_link2 s1), (new_edge1 s1).
  split.
  { unfold add_new_leaf_node.
    rewrite (bind_Ok _ _ s _ _
      (add_new_node_edge_run s e te lp ls d pnx dn He Hb Hp Hs Hne Hd Hn Hdn)).
    exact Hrun. }
  split; [subst s2 s1; cbn; by rewrite <- app_assoc|].
  split; [subst s2; cbn [edges_ leaf_added]; rewrite length_app, Hle; cbn; lia|].
  split; [subst s2; cbn [links_ leaf_added]; rewrite length_app, Hll; cbn; lia|].
  split.
  { rewrite Hframe; [by rewrite Hmid|]. congruence. }
  split; [exact Hring2|].
  assert (new_link1 s ≠ new_link1 s1) by congruence.
  assert (new_link1 s ≠ new_link2 s1) by congruence.
  assert (new_link2 s ≠ new_link1 s1) by congruence.
  assert (new_link2 s ≠ new_link2 s1) by congruence.
  assert (new_link1 s ≠ new_link2 s).
  { intros E. unfold s1, edge_split in Hring. destruct Hring as (? & ? & ? & Hx & _).
    by apply Hx. }
  split.
  { unfold outer_is, s2, leaf_added. cbn [hl]. heap_simpl. by eexists. }
  split.
  { unfold outer_is, s2, leaf_added. cbn [hl]. heap_simpl. by eexists. }
  split; [by eexists|]. split; [by eexists|]. split; [done|].
  rewrite Hln, Hle, Hll in *. done.
Qed.

End SplitEdge.

(** ** Insertion undone by deletion *)

Section RoundTrips.
Context {ND ED : Type} {PN : Payload ND} {PE : Payload ED}.
Implicit Types s : State ND ED.

Lemma State_eq s l n e r (h1 : gmap ptr TreeLink) (h2 : gmap ptr (TreeNode ND))
    (h3 : gmap ptr (TreeEdge ED)) :
  l = links_ s → n = nodes_ s → e = edges_ s → r = root_link_index_ s →
  h1 = hl s → h2 = hn s → h3 = he s →
  mkState l n e r h1 h2 h3 = s.
Proof. intros. subst. by destruct s. Qed.

(** X3.  Attaching a leaf with [add_new_node] and deleting it again with
    [delete_leaf_node] gives back the store the first call started in: the
    vectors, every record and the root link index.  The tree has a root link
    that carries its own index and a root node of the tree. *)
Theorem add_new_node_then_delete_leaf s n x rest l erec dn de rl lr xr fuel :
  hn s !! n = Some x →
  nodes_ s !! n_index x = Some n →
  ring (hl s) (n_link x) rest →
  length rest < fuel →
  hl s !! n_link x = Some l →
  he s !! l_edge l = Some erec →
  n_data x = Some dn →
  e_data erec = Some de →
  links_ s !! root_link_index_ s = Some rl →
  hl s !! rl = Some lr →
  l_index lr = root_link_index_ s →
  hn s !! l_node lr = Some xr →
  n_index xr < length (nodes_ s) →
  ∃ s1 end_node,
    add_new_node fuel n s = Ok end_node s1 ∧
    delete_leaf_node fuel end_node s1 = Ok tt s.
Proof.
  intros Hn Hb Hr Hf Hl He Hdn Hde Hroot Hlr Hri Hxr Hxri.
  exists (leaf_added s n (n_link x) (chain_last (n_link x) rest) dn de), (new_node1 s).
  split; [by eapply add_new_node_run|].
  assert (hl s !! new_link1 s = None) as Hcon by apply fresh_ptr_None.
  assert (<[new_link1 s:=mkLink 0 nullptr nullptr nullptr nullptr]> (hl s)
            !! new_link2 s = None) as Hend by apply fresh_ptr_None.
  apply lookup_insert_None in Hend as [Hend Hce].
  assert (hn s !! new_node1 s = None) as Hen by apply fresh_ptr_None.
  assert (he s !! new_edge1 s = None) as Hed by apply fresh_ptr_None.
  destruct (chain_last_live _ _ _ _ Hr) as (ll & Hll & Hlln).
  pose proof (ring_extend (hl s) (n_link x) rest (new_link1 s)
    (mkLink (length (links_ s)) (n_link x) (new_link2 s) n (new_edge1 s)) Hr Hcon eq_refl)
    as Hring1.
  assert (chain (alter (set_next (new_link1 s)) (chain_last (n_link x) rest) (hl s))
            (n_link x) rest (new_link1 s)) as Hch.
  { eapply chain_set_last; [exact Hr|]. intros Hin.
    destruct (chain_live _ _ _ _ Hr (new_link1 s)) as [? ?]; [|congruence].
    apply elem_of_cons. by right. }
  unfold leaf_added.
  remember (chain_last (n_link x) rest) as last eqn:Hlast.
  remember (new_link1 s) as con eqn:Econ.
  remember (new_link2 s) as end_ eqn:Eend.
  remember (new_node1 s) as en eqn:Een.
  remember (new_edge1 s) as ce eqn:Ece.
  rewrite (alter_alt_Some _ _ _ ll Hll) in Hring1, Hch |- *.
  assert (set_next con ll = mkLink (l_index ll) con (l_outer ll) (l_node ll) (l_edge ll))
    as Hsn by done.
  rewrite Hsn in *. clear Hsn.
  assert (rl ≠ con) as Hrc by congruence.
  assert (rl ≠ end_) as Hre by congruence.
  assert (last ≠ con) as Hlc by congruence.
  assert (last ≠ end_) as Hle by congruence.
  assert (n_link x ≠ con) as Huc by congruence.
  assert (n_link x ≠ end_) as Hue by congruence.
  assert (l_node lr ≠ en) as Hrn by congruence.
  unfold delete_leaf_node.
  mstep_by ltac:(eapply belongs_to_node_true; cbn [hn nodes_ n_index];
    [by rewrite lookup_insert_eq|cbn [n_index]; by rewrite list_lookup_middle]).
  cbn [negb].
  mstep_by ltac:(eapply (degree_ring _ en _ []); cbn [hn hl n_link];
    [by rewrite lookup_insert_eq
    |unfold ring; cbn [chain]; eexists; by rewrite lookup_insert_eq
    |cbn; lia]).
  cbn [length]. rewrite bool_decide_eq_true_2 by done. cbn [negb].
  assert ((links_ s ++ [con; end_]) !! root_link_index_ s = Some rl) as Hroot1.
  { rewrite lookup_app_l; [done|by eapply lookup_lt_Some]. }
  assert ((edges_ s ++ [ce]) !! length (edges_ s) = Some ce) as Hel
    by by rewrite list_lookup_middle.
  assert ((nodes_ s ++ [en]) !! length (nodes_ s) = Some en) as Hnl
    by by rewrite list_lookup_middle.
  assert ((links_ s ++ [con; end_]) !! length (links_ s) = Some con) as Hll1
    by by rewrite list_lookup_middle.
  assert ((links_ s ++ [end_]) !! length (links_ s) = Some end_) as Hll2
    by by rewrite list_lookup_middle.
  clear Econ Eend Een Ece.
  destruct (decide (rl = last)) as [->|Hrll];
    [assert (lr = ll) as -> by congruence|].
  all: do 4 mstep.
  all: rewrite decide_False by lia.
  all: rewrite (bind_Ok (ret _) _ _ _ _ eq_refl).
  all: do 4 mstep.
  all: rewrite (delete_middle (edges_ s) [] ce), app_nil_r.
  all: mstep_by ltac:(unfold reindex_edges_from; mstep; rewrite Nat.sub_diag; reflexivity).
  all: do 3 mstep.
  all: mstep_by ltac:(apply (ring_pred_chain _ _ rest); [|done]; cbn [hl];
    do 2 (apply chain_insert_fresh; [by heap_simpl|]); exact Hch).
  all: rewrite <- Hlast.
  all: do 6 mstep.
  all: unfold minmax_value; rewrite Nat.min_l, Nat.max_r by lia.
  all: mstep_by ltac:(unfold erase_two_links; cbn [fst snd]; mstep;
    rewrite (delete_middle (links_ s) [end_] con); prim_run).
  all: cbn [fst snd]; rewrite (delete_middle (links_ s) [] end_), app_nil_r.
  all: mstep_by ltac:(unfold reindex_links_from; mstep; rewrite Nat.sub_diag; reflexivity).
  all: do 2 mstep.
  all: rewrite (delete_middle (nodes_ s) [] en), app_nil_r.
  all: mstep_by ltac:(unfold reindex_nodes_from; mstep; rewrite Nat.sub_diag; reflexivity).
  all: mstep.
  all: prim_run.
  all: f_equal; apply State_eq; try done.
  all: first
    [ solve [heap_eq [end_; con; last]; destruct ll; cbn in *; by subst]
    | solve [heap_eq [en]]
    | solve [heap_eq [ce]] ].
Qed.


(** X4.  Splitting an edge with [add_new_node] (no callback) and deleting
    the new node again with [delete_linear_node] (no callback) gives back the
    store the first call started in.  The edge joins its two links, which
    are each other's outer link. *)
Theorem add_new_node_edge_then_delete_linear s e te lp ls d pnx dn rl lr xr fuel :
  he s !! e = Some te →
  edges_ s !! e_index te = Some e →
  hl s !! e_link_p te = Some lp →
  hl s !! e_link_s te = Some ls →
  e_link_p te ≠ e_link_s te →
  l_edge lp = e → l_edge ls = e →
  l_outer lp = e_link_s te → l_outer ls = e_link_p te →
  e_data te = Some d →
  hn s !! l_node lp = Some pnx →
  n_data pnx = Some dn →
  links_ s !! root_link_index_ s = Some rl →
  hl s !! rl = Some lr →
  l_index lr = root_link_index_ s →
  hn s !! l_node lr = Some xr →
  n_index xr < length (nodes_ s) →
  1 < fuel →
  ∃ s1 mid_node,
    add_new_node_edge e None s = Ok mid_node s1 ∧
    delete_linear_node fuel mid_node None s1 = Ok tt s.
Proof.
  intros He Hb Hp Hs Hne Hep Hes Hop Hos Hd Hn Hdn Hroot Hlr Hri Hxr Hxri Hf.
  exists (edge_split s e te dn d), (new_node1 s).
  split; [by eapply add_new_node_edge_run|].
  assert (hl s !! new_link1 s = None) as Hpri by apply fresh_ptr_None.
  assert (<[new_link1 s:=mkLink 0 nullptr nullptr nullptr nullptr]> (hl s)
            !! new_link2 s = None) as Hsec by apply fresh_ptr_None.
  apply lookup_insert_None in Hsec as [Hsec Hps].
  assert (hn s !! new_node1 s = None) as Hmid by apply fresh_ptr_None.
  assert (he s !! new_edge1 s = None) as Hsede by apply fresh_ptr_None.
  unfold edge_split.
  remember (new_link1 s) as pri eqn:Epri.
  remember (new_link2 s) as sec eqn:Esec.
  remember (new_node1 s) as mid eqn:Emid.
  remember (new_edge1 s) as sede eqn:Esede.
  clear Epri Esec Emid Esede.
  remember (e_link_p te) as P eqn:EP.
  remember (e_link_s te) as S eqn:ES.
  assert (P ≠ pri) by congruence. assert (P ≠ sec) by congruence.
  assert (S ≠ pri) by congruence. assert (S ≠ sec) by congruence.
  assert (rl ≠ pri) by congruence. assert (rl ≠ sec) by congruence.
  assert (l_node lr ≠ mid) by congruence.
  assert (e ≠ sede) by congruence.
  rewrite (alter_alt_Some _ _ P lp) by by heap_simpl.
  rewrite (alter_alt_Some _ _ S ls) by by heap_simpl.
  unfold set_outer, set_outer_edge.
  assert ((links_ s ++ [pri; sec]) !! root_link_index_ s = Some rl) as Hroot1.
  { rewrite lookup_app_l; [done|by eapply lookup_lt_Some]. }
  assert ((edges_ s ++ [sede]) !! length (edges_ s) = Some sede) as Hel
    by by rewrite list_lookup_middle.
  assert ((nodes_ s ++ [mid]) !! length (nodes_ s) = Some mid) as Hnl
    by by rewrite list_lookup_middle.
  assert ((links_ s ++ [pri; sec]) !! length (links_ s) = Some pri) as Hll1
    by by rewrite list_lookup_middle.
  assert ((links_ s ++ [sec]) !! length (links_ s) = Some sec) as Hll2
    by by rewrite list_lookup_middle.
  unfold delete_linear_node.
  mstep_by ltac:(eapply belongs_to_node_true; cbn [hn nodes_ n_index];
    [by rewrite lookup_insert_eq|cbn [n_index]; by rewrite list_lookup_middle]).
  cbn [negb].
  mstep_by ltac:(eapply (degree_ring _ mid _ [sec]); cbn [hn hl n_link];
    [by rewrite lookup_insert_eq
    |unfold ring; cbn [chain]; eexists; split; [by heap_simpl|];
     split; [done|]; split; [done|]; eexists; split; [by heap_simpl|done]
    |cbn; lia]).
  cbn [length]. rewrite bool_decide_eq_true_2 by done. cbn [negb].
  rewrite (bind_Ok (ret _) _ _ _ _ eq_refl).
  destruct (decide (rl = S)) as [HrS|HrS]; [|destruct (decide (rl = P)) as [HrP|HrP]].
  1: assert (lr = ls) by congruence.
  2: assert (lr = lp) by congruence.
  all: subst.
  all: do 4 mstep.
  all: rewrite decide_False by lia.
  all: rewrite (bind_Ok (ret _) _ _ _ _ eq_refl).
  all: repeat mstep.
  all: rewrite (delete_middle (edges_ s) [] sede), app_nil_r.
  all: mstep_by ltac:(unfold reindex_edges_from; mstep; rewrite Nat.sub_diag; reflexivity).
  all: do 3 mstep.
  all: unfold minmax_value; rewrite Nat.min_l, Nat.max_r by lia.
  all: mstep_by ltac:(unfold erase_two_links; cbn [fst snd]; mstep;
    rewrite (delete_middle (links_ s) [sec] pri); prim_run).
  all: cbn [fst snd]; rewrite (delete_middle (links_ s) [] sec), app_nil_r.
  all: mstep_by ltac:(unfold reindex_links_from; mstep; rewrite Nat.sub_diag; reflexivity).
  all: do 2 mstep.
  all: rewrite (delete_middle (nodes_ s) [] mid), app_nil_r.
  all: mstep_by ltac:(unfold reindex_nodes_from; mstep; rewrite Nat.sub_diag; reflexivity).
  all: mstep.
  all: prim_run.
  all: f_equal; apply State_eq; try done.
  all: first
    [ solve [heap_eq [e_link_s te; e_link_p te; sec; pri];
             [destruct ls|destruct lp]; cbn in *; by subst]
    | solve [heap_eq [mid]]
    | solve [heap_eq [sede; l_edge lp]; destruct te; cbn in *; by subst] ].
Qed.

End RoundTrips.

(** ** What rerooting changes and what it leaves alone *)

Section RerootShape.
Context {ND ED : Type} {PN : Payload ND} {PE : Payload ED}.
Implicit Types s : State ND ED.

Lemma reroot_run s L lL R lR x0 xend lend hops fuel :
  links_ s !! root_link_index_ s = Some R →
  hl s !! R = Some lR →
  hn s !! l_node lR = Some xend →
  hl s !! n_link xend = Some lend →
  l_node lend = l_node lR →
  hl s !! L = Some lL →
  links_ s !! l_index lL = Some L →
  hn s !! l_node lL = Some x0 →
  path_up s (l_node lL) hops (l_node lR) →
  NoDup (l_node lL :: map h_to hops) →
  length hops < fuel →
  reroot fuel L s = Ok tt (rerooted s L lL hops).
Proof.
  intros Hroot HlR Hxend Hrend Hnend HlL HbL Hx0 Hpath Hnd Hf.
  unfold reroot, rerooted.
  mstep_by ltac:(by apply (belongs_to_link_true s L lL)).
  cbn [negb]. repeat mstep.
  change (mkNode (n_index x0) L (n_data x0)) with (set_primary L x0).
  rewrite <- (alter_alt_Some (set_primary L) (hn s) (l_node lL) x0) by done.
  rewrite (reroot_loop_spec hops _ (n_link x0) (l_node lR) fuel);
    [done| |by apply NoDup_cons in Hnd as [_ ?]|done].
  eapply (walk_up_frame s).
  - done.
  - done.
  - intros v Hv. cbn [hn]. apply lookup_alter_ne. intros <-.
    by apply NoDup_cons in Hnd as [? _].
  - by eapply (path_up_walk hops s (l_node lL) x0 _ xend lend).
Qed.

Lemma flip_hn_lookup hops : ∀ (m : gmap ptr (TreeNode ND)) h,
  NoDup (map h_to hops) → h ∈ hops →
  flip_hn hops m !! h_to h = set_primary (h_out h) <$> m !! h_to h.
Proof.
  induction hops as [|h0 hops IH]; intros m h Hnd Hin; [by apply elem_of_nil in Hin|].
  cbn [map] in Hnd. apply NoDup_cons in Hnd as [Hh0 Hnd].
  cbn [flip_hn foldl]. fold (flip_hn hops (alter (set_primary (h_out h0)) (h_to h0) m)).
  apply elem_of_cons in Hin as [->|Hin].
  - rewrite flip_hn_frame by done. by rewrite lookup_alter_eq.
  - rewrite IH by done. rewrite lookup_alter_ne; [done|].
    intros E. apply Hh0. rewrite E. apply list_elem_of_fmap. by exists h.
Qed.

Lemma flip_he_frame hops (m : gmap ptr (TreeEdge ED)) e :
  e ∉ map h_edge hops → flip_he hops m !! e = m !! e.
Proof.
  revert m. induction hops as [|h hops IH]; intros m He; [done|].
  cbn [flip_he foldl]. fold (flip_he hops (alter swap_links (h_edge h) m)).
  cbn [map] in He. apply not_elem_of_cons in He as [He1 He2].
  rewrite IH by done. by rewrite lookup_alter_ne.
Qed.

Lemma flip_he_lookup hops : ∀ (m : gmap ptr (TreeEdge ED)) h,
  NoDup (map h_edge hops) → h ∈ hops →
  flip_he hops m !! h_edge h = swap_links <$> m !! h_edge h.
Proof.
  induction hops as [|h0 hops IH]; intros m h Hnd Hin; [by apply elem_of_nil in Hin|].
  cbn [map] in Hnd. apply NoDup_cons in Hnd as [Hh0 Hnd].
  cbn [flip_he foldl]. fold (flip_he hops (alter swap_links (h_edge h0) m)).
  apply elem_of_cons in Hin as [->|Hin].
  - rewrite flip_he_frame by done. by rewrite lookup_alter_eq.
  - rewrite IH by done. rewrite lookup_alter_ne; [done|].
    intros E. apply Hh0. rewrite E. apply list_elem_of_fmap. by exists h.
Qed.

(** X7.  [reroot] at a link [L] of the tree, on a tree in which the hops
    [hops] lead from the node of [L] up to the root node along primary links
    over distinct nodes and edges, the primary link of the root node being a
    link of the root node: the call returns; no vector and no link record
    changes; the root link is [L] and [L] is the primary link of its node;
    across every hop the edge's two links have changed roles and the node
    arrived at has the link it was entered through as primary link; every
    other node and edge is as before. *)
Theorem reroot_reorients_path s L lL R lR x0 xend lend hops fuel :
  links_ s !! root_link_index_ s = Some R →
  hl s !! R = Some lR →
  hn s !! l_node lR = Some xend →
  hl s !! n_link xend = Some lend →
  l_node lend = l_node lR →
  hl s !! L = Some lL →
  links_ s !! l_index lL = Some L →
  hn s !! l_node lL = Some x0 →
  path_up s (l_node lL) hops (l_node lR) →
  NoDup (l_node lL :: map h_to hops) →
  NoDup (map h_edge hops) →
  length hops < fuel →
  ∃ s1,
    reroot fuel L s = Ok tt s1 ∧
    links_ s1 = links_ s ∧ nodes_ s1 = nodes_ s ∧ edges_ s1 = edges_ s ∧
    hl s1 = hl s ∧
    links_ s1 !! root_link_index_ s1 = Some L ∧
    hn s1 !! l_node lL = Some (set_primary L x0) ∧
    Forall (λ h,
      hn s1 !! h_to h = set_primary (h_out h) <$> hn s !! h_to h ∧
      he s1 !! h_edge h = swap_links <$> he s !! h_edge h) hops ∧
    (∀ v, v ∉ l_node lL :: map h_to hops → hn s1 !! v = hn s !! v) ∧
    (∀ e, e ∉ map h_edge hops → he s1 !! e = he s !! e).
Proof.
  intros Hroot HlR Hxend Hrend Hnend HlL HbL Hx0 Hpath Hnd Hnde Hf.
  exists (rerooted s L lL hops).
  split; [by eapply reroot_run|].
  apply NoDup_cons in Hnd as [Hv0 Hnd].
  unfold rerooted. cbn [links_ nodes_ edges_ root_link_index_ hl hn he].
  do 5 (split; [done|]). split; [|split; [|split]].
  - rewrite flip_hn_frame by done. by rewrite lookup_alter_eq, Hx0.
  - apply Forall_forall. intros h Hh. split.
    + rewrite flip_hn_lookup by done. rewrite lookup_alter_ne; [done|].
      intros E. apply Hv0. rewrite E. apply list_elem_of_fmap. by exists h.
    + by apply flip_he_lookup.
  - intros v Hv. apply not_elem_of_cons in Hv as [Hv1 Hv2].
    rewrite flip_hn_frame by done. by rewrite lookup_alter_ne.
  - intros e He. by apply flip_he_frame.
Qed.

(** X8.  [reroot] at a link [L] of the node that is the root already walks
    no edge: it sets the root link index to the index of [L] and makes [L]
    the primary link of the root node, and that is all; at the root link
    itself, when that is the primary link of the root node and carries its
    own index, the store is left as it was. *)
Theorem reroot_within_root_node s L lL R lR x0 l0 fuel :
  links_ s !! root_link_index_ s = Some R →
  hl s !! R = Some lR →
  hl s !! L = Some lL →
  links_ s !! l_index lL = Some L →
  l_node lL = l_node lR →
  hn s !! l_node lL = Some x0 →
  hl s !! n_link x0 = Some l0 →
  l_node l0 = l_node lL →
  0 < fuel →
  reroot fuel L s
    = Ok tt (set_root (l_index lL) (set_hn (insert (l_node lL) (set_primary L x0)) s)) ∧
  (L = R → l_index lR = root_link_index_ s → n_link x0 = R →
   reroot fuel L s = Ok tt s).
Proof.
  intros Hroot HlR HlL HbL Hsame Hx0 Hl0 Hn0 Hf.
  assert (reroot fuel L s
    = Ok tt (set_root (l_index lL) (set_hn (insert (l_node lL) (set_primary L x0)) s)))
    as Hrun.
  { unfold reroot.
    mstep_by ltac:(by apply (belongs_to_link_true s L lL)).
    cbn [negb]. repeat mstep.
    destruct fuel as [|fuel]; [lia|]. cbn [reroot_loop].
    mstep. rewrite Hn0, Hsame, decide_True by done. reflexivity. }
  split; [done|].
  intros -> Hi Hp. rewrite Hrun. f_equal.
  assert (lL = lR) as -> by congruence.
  unfold set_root, set_hn. cbn. rewrite Hi.
  rewrite insert_id; [by destruct s|].
  rewrite Hx0. f_equal. destruct x0. cbn in *. by subst.
Qed.

(** X9.  [reroot_at_node] checks its index against the node count: an index
    that is too large makes it throw, in the store of the call; an index of
    the tree, whose node carries this index, makes it reroot at the primary
    link of that node. *)
Theorem reroot_at_node_bounds s fuel i :
  (length (nodes_ s) ≤ i → ∃ msg, reroot_at_node fuel i s = Throw msg s) ∧
  (∀ n x, nodes_ s !! i = Some n → hn s !! n = Some x → n_index x = i →
     reroot_at_node fuel i s = reroot fuel (n_link x) s).
Proof.
  split.
  - intros Hi. eexists. unfold reroot_at_node. mstep. by rewrite decide_True.
  - intros n x Hn Hx Hxi. unfold reroot_at_node. mstep.
    rewrite decide_False by (apply lookup_lt_Some in Hn; lia).
    mstep. unfold reroot_node.
    mstep_by ltac:(apply (belongs_to_node_true s n x); [done|by rewrite Hxi]).
    cbn [negb]. by mstep.
Qed.

End RerootShape.

(** ** A new root in the middle of an edge *)

Section AddRoot.
Context {ND ED : Type} {PN : Payload ND} {PE : Payload ED}.
Implicit Types s : State ND ED.

(** The nodes a path arrives at are live when its end is. *)
Lemma path_up_live s hops : ∀ v vend,
  path_up s v hops vend → is_Some (hn s !! vend) →
  ∀ u, u ∈ map h_to hops → is_Some (hn s !! u).
Proof.
  induction hops as [|h hops IH]; intros v vend (Hpn & Hok & Hprim) Hend u Hu.
  - by apply elem_of_nil in Hu.
  - cbn [path_nodes] in Hpn. destruct Hpn as [Hfrom Hpn].
    apply Forall_cons in Hok as [_ Hok]. apply Forall_cons in Hprim as [_ Hprim].
    cbn [map] in Hu. apply elem_of_cons in Hu as [->|Hu].
    + destruct hops as [|h' hops].
      * cbn [path_nodes] in Hpn. by rewrite Hpn.
      * cbn [path_nodes] in Hpn. destruct Hpn as [Hfrom' _].
        apply Forall_cons in Hprim as [(x & Hx & _) _]. rewrite <- Hfrom'. eauto.
    + by apply (IH (h_to h) vend).
Qed.

(** X10.  [add_root_node] on an edge [e] of the tree splits [e] by a new
    node and makes that node the root.  The tree is given by the hops that
    lead from the primary node of [e] up to the old root without crossing
    [e].  Afterwards the root link is the new node's link towards the former
    primary end of [e]; it is the primary link of the new node and of [e],
    whose secondary link is now its former primary link; the former primary
    node of [e] has that link as its primary link; one node is appended. *)
Theorem add_root_node_roots_at_mid s e te lp ls d pnx dn R lR xend lend hops fuel :
  he s !! e = Some te →
  edges_ s !! e_index te = Some e →
  hl s !! e_link_p te = Some lp →
  hl s !! e_link_s te = Some ls →
  e_link_p te ≠ e_link_s te →
  l_edge lp = e → l_edge ls = e →
  e_data te = Some d →
  hn s !! l_node lp = Some pnx →
  n_data pnx = Some dn →
  links_ s !! root_link_index_ s = Some R →
  hl s !! R = Some lR →
  hn s !! l_node lR = Some xend →
  hl s !! n_link xend = Some lend →
  l_node lend = l_node lR →
  path_up s (l_node lp) hops (l_node lR) →
  NoDup (l_node lp :: map h_to hops) →
  Forall (λ h, h_edge h ≠ e) hops →
  S (length hops) < fuel →
  ∃ s2 mid_node pri_link,
    add_root_node fuel e s = Ok mid_node s2 ∧
    hn s !! mid_node = None ∧ hl s !! pri_link = None ∧
    nodes_ s2 = nodes_ s ++ [mid_node] ∧
    links_ s2 !! root_link_index_ s2 = Some pri_link ∧
    l_node <$> hl s2 !! pri_link = Some mid_node ∧
    n_link <$> hn s2 !! mid_node = Some pri_link ∧
    he s2 !! e = Some (mkEdge (e_index te) pri_link (e_link_p te) (e_data te)) ∧
    n_link <$> hn s2 !! l_node lp = Some (e_link_p te).
Proof.
  intros He Hb Hp Hs Hne Hep Hes Hd Hn Hdn Hroot HlR Hxend Hlend Hnend Hpath Hnd
    Hcross Hf.
  set (s1 := edge_split s e te dn d).
  destruct (edge_split_shape s e te lp ls dn d Hp Hs Hne (ex_intro _ te He))
    as (Hmid & Hmidin & Hpri & Hsec & Hring & Hedge).
  fold s1 in Hmid, Hmidin, Hpri, Hsec, Hring, Hedge.
  assert (hl s !! new_link1 s = None) as Hfpri by apply fresh_ptr_None.
  assert (<[new_link1 s:=mkLink 0 nullptr nullptr nullptr nullptr]> (hl s)
            !! new_link2 s = None) as Hfsec by apply fresh_ptr_None.
  apply lookup_insert_None in Hfsec as [Hfsec Hps].
  assert (hn s !! new_node1 s = None) as Hfmid by apply fresh_ptr_None.
  assert (he s !! new_edge1 s = None) as Hfsede by apply fresh_ptr_None.
  set (hop0 := mkHop (new_node1 s) (new_link1 s) e (e_link_p te) (l_node lp)).
  (* old links keep their node *)
  destruct (edge_split_old_links s e te lp ls dn d R lR Hp Hs HlR)
    as (lR' & HlR' & _ & _ & HnR').
  destruct (edge_split_old_links s e te lp ls dn d _ lend Hp Hs Hlend)
    as (lend' & Hlend' & _ & _ & Hnend').
  fold s1 in HlR', Hlend'.
  assert (∀ v, v ≠ new_node1 s → hn s1 !! v = hn s !! v) as Hhn1.
  { intros v Hv. unfold s1, edge_split. cbn [hn]. by rewrite lookup_insert_ne. }
  assert (hl s1 !! e_link_p te
            = Some (mkLink (l_index lp) (l_next lp) (new_link1 s) (l_node lp) (l_edge lp)))
    as HP1.
  { unfold s1, edge_split. cbn [hl].
    rewrite lookup_alter_ne by done. rewrite lookup_alter_eq.
    rewrite !lookup_insert_ne by congruence. by rewrite Hp. }
  (* the path in the split store *)
  assert (path_up s1 (new_node1 s) (hop0 :: hops) (l_node lR)) as Hpath1.
  { destruct Hpath as (Hpn & Hok & Hprim). split; [|split].
    - cbn [path_nodes hop0 h_from h_to]. done.
    - apply Forall_cons. split.
      + unfold hop_ok. cbn [hop0 h_cur h_from h_edge h_out h_to].
        eexists _, _. split; [exact Hpri|]. do 3 (split; [done|]).
        split; [exact HP1|]. cbn [l_node l_edge l_outer].
        do 3 (split; [done|]). by rewrite Hedge.
      + rewrite Forall_forall in Hok, Hcross. apply Forall_forall. intros h Hh.
        destruct (Hok h Hh) as (l & lo & Hl & Hln & Hle & Hlo & Hlo' & Hlon & Hloe & Hloo & Hhe).
        pose proof (Hcross h Hh) as Hx. cbv beta in Hx.
        assert (h_cur h ≠ e_link_p te) by (intros E; rewrite E in Hl; congruence).
        assert (h_cur h ≠ e_link_s te) by (intros E; rewrite E in Hl; congruence).
        assert (h_out h ≠ e_link_p te) by (intros E; rewrite E in Hlo'; congruence).
        assert (h_out h ≠ e_link_s te) by (intros E; rewrite E in Hlo'; congruence).
        destruct Hhe as [erec Herec].
        exists l, lo. unfold s1, edge_split. cbn [hl he].
        rewrite !lookup_alter_ne by done.
        rewrite !lookup_insert_ne by congruence.
        repeat (split; [done|]). eauto.
    - apply Forall_cons. split.
      + cbn [hop0 h_from h_cur]. rewrite Hmid. by eexists.
      + eapply Forall_impl; [exact Hprim|]. intros h (x & Hx & Hxl).
        exists x. split; [|done]. rewrite Hhn1; [done|congruence]. }
  assert (NoDup (new_node1 s :: map h_to (hop0 :: hops))) as Hnd1.
  { apply NoDup_cons. split; [|done].
    cbn [map hop0 h_to]. intros Hin. apply elem_of_cons in Hin as [E|Hin].
    - rewrite <- E in Hn. congruence.
    - destruct (path_up_live s hops _ _ Hpath (ex_intro _ _ Hxend) _ Hin) as [? ?].
      congruence. }
  pose proof (reroot_run s1 (new_link1 s)
                (mkLink (length (links_ s)) (new_link2 s) (e_link_p te) (new_node1 s) e)
                R lR' (mkNode (length (nodes_ s)) (new_link1 s) (Some (recreate dn)))
                xend lend' (hop0 :: hops) fuel) as Hrun.
  cbn [l_node l_index] in Hrun.
  rewrite HnR', Hnend' in Hrun.
  specialize (Hrun ltac:(cbn; rewrite lookup_app_l; [done|by eapply lookup_lt_Some])
                HlR' ltac:(rewrite Hhn1; [done|congruence]) Hlend' Hnend Hpri
                ltac:(cbn; by rewrite list_lookup_middle) Hmid Hpath1 Hnd1
                ltac:(cbn; lia)).
  eexists _, (new_node1 s), (new_link1 s). split.
  { unfold add_root_node.
    rewrite (bind_Ok _ _ s _ _
      (add_new_node_edge_run s e te lp ls d pnx dn He Hb Hp Hs Hne Hd Hn Hdn)).
    fold s1.
    assert (reroot_node fuel (new_node1 s) s1 = Ok tt
      (rerooted s1 (new_link1 s)
         (mkLink (length (links_ s)) (new_link2 s) (e_link_p te) (new_node1 s) e)
         (hop0 :: hops))) as Hrn.
    { unfold reroot_node.
      mstep_by ltac:(apply (belongs_to_node_true s1 _ _ Hmid); exact Hmidin).
      cbn [negb]. mstep. exact Hrun. }
    rewrite (bind_Ok _ _ _ _ _ Hrn). reflexivity. }
  apply NoDup_cons in Hnd as [Hlp0 Hnd].
  unfold rerooted. cbn [links_ nodes_ edges_ root_link_index_ hl hn he l_index l_node].
  do 3 (split; [done|]).
  split; [unfold s1, edge_split; cbn [links_]; by rewrite list_lookup_middle|].
  split; [by rewrite Hpri|].
  split.
  { rewrite flip_hn_frame.
    - by rewrite lookup_alter_eq, Hmid.
    - cbn [map hop0 h_to]. by apply NoDup_cons in Hnd1 as [? _]. }
  split.
  { cbn [flip_he foldl hop0 h_edge].
    fold (flip_he hops (alter swap_links e (he s1))).
    rewrite flip_he_frame.
    - by rewrite lookup_alter_eq, Hedge.
    - intros Hin. apply list_elem_of_fmap in Hin as (h & Heq & Hh).
      rewrite Forall_forall in Hcross. by apply (Hcross h Hh). }
  cbn [flip_hn foldl hop0 h_to h_out].
  fold (flip_hn hops (alter (set_primary (e_link_p te)) (l_node lp)
          (alter (set_primary (new_link1 s)) (new_node1 s) (hn s1)))).
  rewrite flip_hn_frame by done.
  rewrite lookup_alter_eq, lookup_alter_ne by congruence.
  rewrite Hhn1 by congruence. by rewrite Hn.
Qed.

End AddRoot.

(** ** Deleting a single node *)

Section ReindexPure.
Context {A : Type}.
Variable set_idx : nat → A → A.
Variable idx : A → nat.
Hypothesis idx_set : ∀ j a, idx (set_idx j a) = j.

Lemma reindex_pure_step v i n (h : gmap ptr A) :
  reindex_pure set_idx v i (S n) h
  = reindex_pure set_idx v (S i) n
      (match v !! i with Some p => alter (set_idx i) p h | None => h end).
Proof. reflexivity. Qed.

Lemma reindex_pure_frame v q : ∀ n i (h : gmap ptr A),
  (∀ j, i ≤ j < i + n → v !! j ≠ Some q) →
  reindex_pure set_idx v i n h !! q = h !! q.
Proof using Type.
  induction n as [|n IH]; intros i h Hq; [done|].
  rewrite reindex_pure_step, IH by (intros j Hj; apply Hq; lia).
  destruct (v !! i) as [p|] eqn:Hp; [|done].
  rewrite lookup_alter_ne; [done|]. intros ->. by apply (Hq i); [lia|].
Qed.

Lemma reindex_pure_is_Some v q : ∀ n i (h : gmap ptr A),
  is_Some (reindex_pure set_idx v i n h !! q) ↔ is_Some (h !! q).
Proof using Type.
  induction n as [|n IH]; intros i h; [done|].
  rewrite reindex_pure_step, IH.
  destruct (v !! i) as [p|]; [|done]. apply lookup_alter_is_Some.
Qed.

Lemma reindex_pure_at v : ∀ n i (h : gmap ptr A) j p,
  NoDup v → i ≤ j < i + n → v !! j = Some p →
  reindex_pure set_idx v i n h !! p = set_idx j <$> h !! p.
Proof using Type.
  induction n as [|n IH]; intros i h j p Hnd Hj Hp; [lia|].
  rewrite reindex_pure_step.
  destruct (decide (j = i)) as [->|Hne].
  - rewrite Hp. rewrite reindex_pure_frame.
    + by rewrite lookup_alter_eq.
    + intros j' Hj' Hp'. assert (j' = i) by by eapply NoDup_lookup. lia.
  - rewrite (IH (S i) _ j p) by (done || lia).
    destruct (v !! i) as [p'|] eqn:Hp'; [|done].
    rewrite lookup_alter_ne; [done|]. intros ->.
    apply Hne. by eapply NoDup_lookup.
Qed.

(** The loop changes stored indices and nothing else. *)
Lemma reindex_pure_clear {B} (clr : A → B) v q : ∀ n i (h : gmap ptr A),
  (∀ j a, clr (set_idx j a) = clr a) →
  clr <$> reindex_pure set_idx v i n h !! q = clr <$> h !! q.
Proof using Type.
  induction n as [|n IH]; intros i h Hclr; [done|].
  rewrite reindex_pure_step, IH by done.
  destruct (v !! i) as [p|]; [|done].
  destruct (decide (p = q)) as [->|Hne].
  - rewrite lookup_alter_eq. destruct (h !! q); cbn; [by rewrite Hclr|done].
  - by rewrite lookup_alter_ne.
Qed.

(** After the loop from position [i] to the end, a vector whose elements
    before position [i] carry their positions carries them throughout. *)
Lemma reindex_pure_indexed v i (h : gmap ptr A) :
  NoDup v →
  (∀ p, p ∈ v → is_Some (h !! p)) →
  (∀ j p, j < i → v !! j = Some p → idx <$> h !! p = Some j) →
  indexed_in idx v (reindex_pure set_idx v i (length v - i) h).
Proof using idx_set.
  intros Hnd Hlive Hlow j p Hp.
  destruct (Hlive p) as [a Ha]; [by eapply list_elem_of_lookup_2|].
  destruct (decide (j < i)) as [Hlt|Hge].
  - rewrite reindex_pure_frame.
    + specialize (Hlow j p Hlt Hp). rewrite Ha in Hlow |- *. cbn in Hlow.
      exists a. split; [done|congruence].
    + intros j' Hj' Hp'. assert (j' = j) by by eapply NoDup_lookup. lia.
  - rewrite (reindex_pure_at v _ i h j p); [|done| |done].
    + rewrite Ha. cbn. eauto.
    + apply lookup_lt_Some in Hp. lia.
Qed.

End ReindexPure.

(** The index fix-up loop, for any of the three element classes. *)
Section ReindexLoop.
Context {ND ED : Type} {PN : Payload ND} {PE : Payload ED}.
Implicit Types s : State ND ED.
Context {A : Type}.
Variable get : State ND ED → gmap ptr A.
Variable put : gmap ptr A → State ND ED → State ND ED.
Variable vec : State ND ED → list ptr.
Variable set_idx : nat → A → A.
Variable at_ : nat → M ND ED ptr.
Variable reset : ptr → nat → M ND ED unit.
Hypothesis get_put : ∀ h s, get (put h s) = h.
Hypothesis put_put : ∀ h h' s, put h (put h' s) = put h s.
Hypothesis put_get : ∀ s, put (get s) s = s.
Hypothesis vec_put : ∀ h s, vec (put h s) = vec s.
Hypothesis at_ok : ∀ s j p, vec s !! j = Some p → at_ j s = Ok p s.
Hypothesis reset_ok : ∀ s p j a,
  get s !! p = Some a → reset p j s = Ok tt (put (<[p:=set_idx j a]> (get s)) s).

Lemma reindex_loop_ok : ∀ n i s,
  i + n ≤ length (vec s) →
  (∀ p, p ∈ vec s → is_Some (get s !! p)) →
  for_range i n (λ j, bind (at_ j) (λ x, reset x j)) s
  = Ok tt (put (reindex_pure set_idx (vec s) i n (get s)) s).
Proof using get_put put_put put_get vec_put at_ok reset_ok.
  induction n as [|n IH]; intros i s Hlen Hlive.
  - cbn [for_range]. unfold reindex_pure. cbn. by rewrite put_get.
  - cbn [for_range]. rewrite reindex_pure_step.
    destruct (lookup_lt_is_Some_2 (vec s) i) as [p Hp]; [lia|]. rewrite Hp.
    destruct (Hlive p) as [a Ha]; [by eapply list_elem_of_lookup_2|].
    rewrite (bind_Ok _ _ s tt (put (<[p:=set_idx i a]> (get s)) s)).
    2:{ rewrite (bind_Ok _ _ s p s) by by apply at_ok. by apply reset_ok. }
    rewrite IH.
    + rewrite get_put, vec_put, put_put. by rewrite (alter_alt_Some _ _ _ a Ha).
    + rewrite vec_put. lia.
    + intros q Hq. rewrite get_put. rewrite vec_put in Hq.
      apply lookup_insert_is_Some'. right. by apply Hlive.
Qed.

End ReindexLoop.

Section ReindexVectors.
Context {ND ED : Type} {PN : Payload ND} {PE : Payload ED}.
Implicit Types s : State ND ED.

Lemma reindex_links_from_ok s i :
  i ≤ length (links_ s) →
  (∀ p, p ∈ links_ s → is_Some (hl s !! p)) →
  reindex_links_from i s
  = Ok tt (set_hl (λ _, reindex_pure set_lindex (links_ s) i (length (links_ s) - i) (hl s)) s).
Proof.
  intros Hi Hlive. unfold reindex_links_from.
  rewrite (bind_Ok _ _ s (length (links_ s)) s) by done.
  apply (reindex_loop_ok (ND:=ND) (ED:=ED) hl (λ h, set_hl (λ _, h)) links_ set_lindex
           link_at link_reset_index); try done.
  - by intros [].
  - intros s0 j p Hp. unfold link_at. by rewrite Hp.
  - intros s0 p j a Ha. by prim_run.
  - lia.
Qed.

Lemma reindex_nodes_from_ok s i :
  i ≤ length (nodes_ s) →
  (∀ p, p ∈ nodes_ s → is_Some (hn s !! p)) →
  reindex_nodes_from i s
  = Ok tt (set_hn (λ _, reindex_pure set_nindex (nodes_ s) i (length (nodes_ s) - i) (hn s)) s).
Proof.
  intros Hi Hlive. unfold reindex_nodes_from.
  rewrite (bind_Ok _ _ s (length (nodes_ s)) s) by done.
  apply (reindex_loop_ok (ND:=ND) (ED:=ED) hn (λ h, set_hn (λ _, h)) nodes_ set_nindex
           node_at node_reset_index); try done.
  - by intros [].
  - intros s0 j p Hp. unfold node_at. by rewrite Hp.
  - intros s0 p j a Ha. by prim_run.
  - lia.
Qed.

Lemma reindex_edges_from_ok s i :
  i ≤ length (edges_ s) →
  (∀ p, p ∈ edges_ s → is_Some (he s !! p)) →
  reindex_edges_from i s
  = Ok tt (set_he (λ _, reindex_pure set_eindex (edges_ s) i (length (edges_ s) - i) (he s)) s).
Proof.
  intros Hi Hlive. unfold reindex_edges_from.
  rewrite (bind_Ok _ _ s (length (edges_ s)) s) by done.
  apply (reindex_loop_ok (ND:=ND) (ED:=ED) he (λ h, set_he (λ _, h)) edges_ set_eindex
           edge_at edge_reset_index); try done.
  - by intros [].
  - intros s0 j p Hp. unfold edge_at. by rewrite Hp.
  - intros s0 p j a Ha. by prim_run.
  - lia.
Qed.

(** [links.erase( first ); links.erase( second - 1 )] removes the links at
    the two positions, whichever is the smaller. *)
Lemma erase_two_links_ok s a b pa pb :
  a ≠ b → links_ s !! a = Some pa → links_ s !! b = Some pb →
  erase_two_links (minmax_value a b) s
  = Ok tt (set_hl (λ h, delete pb (delete pa h))
             (set_links (λ v, delete (a `max` b - 1) (delete (a `min` b) v)) s)).
Proof.
  intros Hab Ha Hb. unfold erase_two_links, minmax_value. cbn [fst snd].
  destruct (decide (a < b)) as [Hlt|Hge].
  - rewrite Nat.min_l, Nat.max_r by lia.
    mstep. destruct b as [|b]; [lia|].
    assert (delete a (links_ s) !! b = Some pb) as Hb'
      by (rewrite list_lookup_delete_ge by lia; done).
    replace (S b - 1) with b by lia. by prim_run.
  - rewrite Nat.min_r, Nat.max_l by lia.
    mstep. destruct a as [|a]; [lia|].
    assert (delete b (links_ s) !! a = Some pa) as Ha'
      by (rewrite list_lookup_delete_ge by lia; done).
    replace (S a - 1) with a by lia. rewrite (delete_delete _ pb pa). by prim_run.
Qed.

End ReindexVectors.

Section IndexedVectors.
Context {A : Type}.
Variable set_idx : nat → A → A.
Variable idx : A → nat.
Hypothesis idx_set : ∀ j a, idx (set_idx j a) = j.

Lemma indexed_in_NoDup v (h : gmap ptr A) : indexed_in idx v h → NoDup v.
Proof using Type.
  intros Hi. apply NoDup_alt. intros i j p Hp Hq.
  destruct (Hi i p Hp) as (a & Ha & <-). destruct (Hi j p Hq) as (a' & Ha' & <-).
  congruence.
Qed.

(** A vector [v'] that agrees with the indexed vector [v] before position
    [i] and holds elements of [v] whose indices were not touched is indexed
    after the fix-up loop from [i]. *)
Lemma indexed_reindex_sub v v' (h h' : gmap ptr A) i :
  indexed_in idx v h → NoDup v' →
  (∀ j, j < i → v' !! j = v !! j) →
  (∀ q, q ∈ v' → ∃ a', h' !! q = Some a' ∧ idx <$> h !! q = Some (idx a')) →
  indexed_in idx v' (reindex_pure set_idx v' i (length v' - i) h').
Proof using idx_set.
  intros Hi Hnd Hlow Hsub. apply (reindex_pure_indexed set_idx idx idx_set); [done| |].
  - intros q Hq. destruct (Hsub q Hq) as (a' & -> & _). eauto.
  - intros j q Hj Hq. rewrite (Hlow j Hj) in Hq.
    destruct (Hi j q Hq) as (a & Ha & Hia).
    destruct (Hsub q) as (a' & Ha' & Hidx).
    { apply list_elem_of_lookup. exists j. by rewrite Hlow. }
    rewrite Ha' . cbn. rewrite Ha in Hidx. cbn in Hidx. congruence.
Qed.

Lemma indexed_after_erase v (h : gmap ptr A) i p :
  indexed_in idx v h → v !! i = Some p →
  indexed_in idx (delete i v)
    (reindex_pure set_idx (delete i v) i (length (delete i v) - i) (delete p h)).
Proof using idx_set.
  intros Hi Hp. pose proof (indexed_in_NoDup v h Hi) as Hnd.
  apply (indexed_reindex_sub v _ h); [done| | |].
  - eapply sublist_NoDup; [exact Hnd|apply sublist_delete].
  - intros j Hj. by apply list_lookup_delete_lt.
  - intros q Hq. apply list_elem_of_lookup in Hq as [j Hj].
    assert (∃ j', v !! j' = Some q ∧ j' ≠ i) as (j' & Hj' & Hne).
    { destruct (decide (j < i)).
      - exists j. rewrite list_lookup_delete_lt in Hj by done. split; [done|lia].
      - exists (S j). rewrite list_lookup_delete_ge in Hj by lia. split; [done|lia]. }
    destruct (Hi j' q Hj') as (a & Ha & Hia).
    assert (q ≠ p) by (intros ->; apply Hne; by eapply NoDup_lookup).
    exists a. rewrite lookup_delete_ne by done. split; [done|]. by rewrite Ha.
Qed.


Lemma erased_once v (h : gmap ptr A) i p :
  indexed_in idx v h → v !! i = Some p →
  i ≤ length (delete i v) ∧ S (length (delete i v)) = length v ∧
  (∀ q, q ∈ delete i v ↔ q ∈ v ∧ q ≠ p).
Proof using Type.
  intros Hi Hp. pose proof (indexed_in_NoDup v h Hi) as Hnd.
  pose proof (lookup_lt_Some _ _ _ Hp) as Hlt.
  rewrite length_delete by eauto. split; [lia|]. split; [lia|].
  intros q. split.
  - intros Hq. split; [by eapply list_elem_of_delete_inv|].
    apply list_elem_of_lookup in Hq as [j Hj]. intros ->.
    destruct (decide (j < i)).
    + rewrite list_lookup_delete_lt in Hj by done.
      assert (j = i) by by eapply NoDup_lookup. lia.
    + rewrite list_lookup_delete_ge in Hj by lia.
      assert (S j = i) by by eapply NoDup_lookup. lia.
  - intros [Hq Hne]. apply list_elem_of_lookup in Hq as [j Hj].
    apply list_elem_of_lookup. destruct (decide (j < i)).
    + exists j. by rewrite list_lookup_delete_lt.
    + destruct j as [|j]; [assert (i = 0) by lia; congruence|].
      exists j. rewrite list_lookup_delete_ge; [done|].
      assert (S j ≠ i) by congruence. lia.
Qed.

Lemma erased_twice v (h : gmap ptr A) a b pa pb :
  indexed_in idx v h → a ≠ b → v !! a = Some pa → v !! b = Some pb →
  let v2 := delete (a `max` b - 1) (delete (a `min` b) v) in
  NoDup v2 ∧ a `min` b ≤ length v2 ∧ S (S (length v2)) = length v ∧
  (∀ j, j < a `min` b → v2 !! j = v !! j) ∧
  (∀ q, q ∈ v2 ↔ q ∈ v ∧ q ≠ pa ∧ q ≠ pb).
Proof using Type.
  intros Hi Hab Ha Hb v2.
  pose proof (indexed_in_NoDup v h Hi) as Hnd.
  assert (∀ lo hi plo phi, lo < hi → v !! lo = Some plo → v !! hi = Some phi →
    let w := delete (hi - 1) (delete lo v) in
    NoDup w ∧ lo ≤ length w ∧ S (S (length w)) = length v ∧
    (∀ j, j < lo → w !! j = v !! j) ∧
    (∀ q, q ∈ w ↔ q ∈ v ∧ q ≠ plo ∧ q ≠ phi)) as Hgen.
  { intros lo hi plo phi Hlh Hlo Hhi w.
    destruct (erased_once v h lo plo Hi Hlo) as (Hl1 & Hl2 & Hm1).
    assert (delete lo v !! (hi - 1) = Some phi) as Hhi'.
    { rewrite list_lookup_delete_ge by lia. by replace (S (hi - 1)) with hi by lia. }
    assert (NoDup (delete lo v)) as Hnd1
      by (eapply sublist_NoDup; [exact Hnd|apply sublist_delete]).
    pose proof (lookup_lt_Some _ _ _ Hhi') as Hlt'.
    split; [eapply sublist_NoDup; [exact Hnd1|apply sublist_delete]|].
    subst w. rewrite length_delete by eauto.
    split; [lia|]. split; [lia|]. split.
    - intros j Hj. rewrite list_lookup_delete_lt by lia.
      by rewrite list_lookup_delete_lt.
    - intros q. split.
      + intros Hq.
        assert (q ∈ delete lo v ∧ q ≠ phi) as [Hq1 Hq2].
        { split; [by eapply list_elem_of_delete_inv|].
          apply list_elem_of_lookup in Hq as [j Hj]. intros ->.
          destruct (decide (j < hi - 1)).
          - rewrite list_lookup_delete_lt in Hj by done.
            assert (j = hi - 1) by by eapply NoDup_lookup. lia.
          - rewrite list_lookup_delete_ge in Hj by lia.
            assert (S j = hi - 1) by by eapply NoDup_lookup. lia. }
        apply Hm1 in Hq1 as [? ?]. done.
      + intros (Hq & Hn1 & Hn2).
        assert (q ∈ delete lo v) as Hq1 by by apply Hm1.
        apply list_elem_of_lookup in Hq1 as [j Hj].
        apply list_elem_of_lookup. destruct (decide (j < hi - 1)).
        * exists j. by rewrite list_lookup_delete_lt.
        * destruct j as [|j]; [assert (hi - 1 = 0) by lia; congruence|].
          exists j. rewrite list_lookup_delete_ge; [done|].
          assert (S j ≠ hi - 1) by congruence. lia. }
  subst v2. destruct (decide (a < b)) as [Hlt|Hge].
  - rewrite Nat.min_l, Nat.max_r by lia. by apply Hgen.
  - rewrite Nat.min_r, Nat.max_l by lia.
    destruct (Hgen b a pb pa) as (? & ? & ? & ? & Hm); [lia|done|done|].
    repeat (split; [done|]). intros q. rewrite Hm. tauto.
Qed.

End IndexedVectors.

Section DeleteLeaf.
Context {ND ED : Type} {PN : Payload ND} {PE : Payload ED}.
Implicit Types s : State ND ED.

Lemma indexed_live {A} (idx : A → nat) v (h : gmap ptr A) :
  indexed_in idx v h → ∀ p, p ∈ v → is_Some (h !! p).
Proof.
  intros Hi p Hp. apply list_elem_of_lookup in Hp as [i Hp].
  destruct (Hi i p Hp) as (a & Ha & _). eauto.
Qed.

(** An element of a chain whose [next] is itself is the link the chain
    stops at. *)
Lemma chain_self_loop h stop rest : ∀ cur p lp,
  chain h cur rest stop → p ∈ cur :: rest →
  h !! p = Some lp → l_next lp = p → p = stop.
Proof.
  induction rest as [|y rest IH]; intros cur p lp Hc Hp Hlp Hn.
  - apply list_elem_of_singleton in Hp as ->.
    destruct Hc as (l & Hl & Hnx). congruence.
  - pose proof (chain_NoDup _ _ _ _ Hc) as Hnd.
    destruct Hc as (l & Hl & Hnx & Hne & Hc).
    apply elem_of_cons in Hp as [->|Hp].
    + apply NoDup_cons in Hnd as [Hnin _]. exfalso. apply Hnin.
      assert (l = lp) as -> by congruence. rewrite <- Hn at 1. rewrite Hnx.
      apply elem_of_cons. by left.
    + by eapply IH.
Qed.

Lemma chain_next_eq h h' stop rest : ∀ cur,
  (∀ p, p ∈ cur :: rest → l_next <$> h' !! p = l_next <$> h !! p) →
  chain h cur rest stop → chain h' cur rest stop.
Proof.
  induction rest as [|y rest IH]; intros cur Heq; cbn [chain].
  - intros (l & Hl & Hn).
    specialize (Heq cur ltac:(apply elem_of_cons; by left)). rewrite Hl in Heq.
    destruct (h' !! cur) as [l'|]; [|done]. cbn in Heq. exists l'. split; [done|congruence].
  - intros (l & Hl & Hn & Hne & Hc).
    pose proof (Heq cur ltac:(apply elem_of_cons; by left)) as Hcur. rewrite Hl in Hcur.
    destruct (h' !! cur) as [l'|]; [|done]. cbn in Hcur. exists l'.
    split; [done|]. split; [congruence|]. split; [done|].
    apply IH; [|done]. intros p Hp. apply Heq. apply elem_of_cons. by right.
Qed.

(** What the store [node_removed] is like, whatever the rewiring before the
    erasures was, as long as it kept every stored index. *)
Lemma node_removed_props s n x E erec p1 p2 r1 r2 hl1 he1 rl :
  links_indexed s → nodes_indexed s → edges_indexed s →
  hn s !! n = Some x → nodes_ s !! n_index x = Some n →
  he s !! E = Some erec → edges_ s !! e_index erec = Some E →
  hl s !! p1 = Some r1 → links_ s !! l_index r1 = Some p1 →
  hl s !! p2 = Some r2 → links_ s !! l_index r2 = Some p2 →
  p1 ≠ p2 →
  (∀ q, l_index <$> hl1 !! q = l_index <$> hl s !! q) →
  (∀ q, e_index <$> he1 !! q = e_index <$> he s !! q) →
  rl ∈ links_ s → rl ≠ p1 → rl ≠ p2 →
  ∃ j,
    let s' := node_removed s n (n_index x) E (e_index erec) p1 p2 (l_index r1) (l_index r2)
                hl1 he1 j in
    (∃ lrf, hl s' !! rl = Some lrf ∧ l_index lrf = j) ∧
    links_ s' !! j = Some rl ∧
    S (length (nodes_ s')) = length (nodes_ s) ∧
    S (length (edges_ s')) = length (edges_ s) ∧
    S (S (length (links_ s'))) = length (links_ s) ∧
    links_indexed s' ∧ nodes_indexed s' ∧ edges_indexed s' ∧
    hn s' !! n = None ∧ he s' !! E = None ∧ hl s' !! p1 = None ∧ hl s' !! p2 = None ∧
    (∀ q, q ∈ links_ s' ↔ q ∈ links_ s ∧ q ≠ p1 ∧ q ≠ p2) ∧
    (∀ q, q ∈ nodes_ s' ↔ q ∈ nodes_ s ∧ q ≠ n) ∧
    (∀ q, q ∈ edges_ s' ↔ q ∈ edges_ s ∧ q ≠ E).
Proof.
  intros Hil Hin Hie Hn Hnb He Heb Hp1 Hb1 Hp2 Hb2 Hne Hli Hei Hroot Hr1 Hr2.
  assert (indexed_in e_index (edges_ s) (he s)) as Hie' by exact Hie.
  assert (indexed_in n_index (nodes_ s) (hn s)) as Hin' by exact Hin.
  assert (indexed_in l_index (links_ s) (hl s)) as Hil' by exact Hil.
  assert (l_index r1 ≠ l_index r2) as Hidx by (intros E'; congruence).
  destruct (erased_once e_index _ _ _ _ Hie' Heb) as (Hle1 & Hle2 & Hme).
  destruct (erased_once n_index _ _ _ _ Hin' Hnb) as (Hln1 & Hln2 & Hmn).
  destruct (erased_twice l_index _ _ _ _ p1 p2 Hil' Hidx Hb1 Hb2)
    as (Hnd2 & Hll1 & Hll2 & Hlow2 & Hm2).
  cbv zeta in Hnd2, Hll1, Hll2, Hlow2, Hm2.
  assert (∀ q, q ∈ delete (l_index r1 `max` l_index r2 - 1)
                     (delete (l_index r1 `min` l_index r2) (links_ s)) →
    ∃ a', delete p2 (delete p1 hl1) !! q = Some a' ∧
          l_index <$> hl s !! q = Some (l_index a')) as Hsub.
  { intros q Hq. apply Hm2 in Hq as (Hq & Hq1 & Hq2).
    rewrite !lookup_delete_ne by done.
    destruct (indexed_live _ _ _ Hil' q Hq) as [a Ha'].
    pose proof (Hli q) as Hq'. rewrite Ha' in Hq' |- *.
    destruct (hl1 !! q) as [a'|]; [|done]. cbn in Hq'. exists a'. split; [done|].
    cbn. congruence. }
  assert (∀ q, q ∈ delete (e_index erec) (edges_ s) →
    ∃ a', delete E he1 !! q = Some a' ∧
          e_index <$> he s !! q = Some (e_index a')) as Hsube.
  { intros q Hq. apply Hme in Hq as (Hq & Hq1).
    rewrite lookup_delete_ne by done.
    destruct (indexed_live _ _ _ Hie' q Hq) as [a Ha'].
    pose proof (Hei q) as Hq'. rewrite Ha' in Hq' |- *.
    destruct (he1 !! q) as [a'|]; [|done]. cbn in Hq'. exists a'. split; [done|].
    cbn. congruence. }
  pose proof (indexed_reindex_sub set_lindex l_index (λ _ _, eq_refl) _ _ _ _ _
                Hil' Hnd2 Hlow2 Hsub) as Hilf.
  pose proof (indexed_after_erase set_nindex n_index (λ _ _, eq_refl) _ _ _ _ Hin' Hnb)
    as Hinf.
  assert (NoDup (delete (e_index erec) (edges_ s))) as Hnde.
  { eapply sublist_NoDup; [exact (indexed_in_NoDup e_index _ _ Hie')|apply sublist_delete]. }
  pose proof (indexed_reindex_sub set_eindex e_index (λ _ _, eq_refl) _ _ _ _
                (e_index erec) Hie' Hnde
                (λ j Hj, list_lookup_delete_lt _ _ _ Hj) Hsube) as Hief.
  assert (rl ∈ delete (l_index r1 `max` l_index r2 - 1)
                 (delete (l_index r1 `min` l_index r2) (links_ s))) as Hrl2.
  { by apply Hm2. }
  apply list_elem_of_lookup in Hrl2 as [j Hj].
  destruct (Hilf j rl Hj) as (lrf & Hlrf & Hlrfi).
  exists j. cbv zeta. unfold node_removed.
  cbn [links_ nodes_ edges_ root_link_index_ hl hn he].
  split; [by exists lrf|]. split; [done|].
  split; [done|]. split; [done|]. split; [done|].
  split; [exact Hilf|]. split; [exact Hinf|]. split; [exact Hief|].
  split.
  { apply eq_None_not_Some. rewrite reindex_pure_is_Some.
    rewrite lookup_delete_eq. by intros [? ?]. }
  split.
  { apply eq_None_not_Some. rewrite reindex_pure_is_Some.
    rewrite lookup_delete_eq. by intros [? ?]. }
  split.
  { apply eq_None_not_Some. rewrite reindex_pure_is_Some.
    rewrite lookup_delete_ne, lookup_delete_eq by done. by intros [? ?]. }
  split.
  { apply eq_None_not_Some. rewrite reindex_pure_is_Some.
    rewrite lookup_delete_eq. by intros [? ?]. }
  done.
Qed.

(** [delete_leaf_node] up to its last statement, which reads the index of
    the link kept as root link in the store after the erasures. *)
Lemma delete_leaf_node_prefix s n x tlr arec erec r rl lr xr fuel :
  links_indexed s → nodes_indexed s → edges_indexed s →
  hn s !! n = Some x →
  nodes_ s !! n_index x = Some n →
  hl s !! n_link x = Some tlr →
  l_next tlr = n_link x →
  links_ s !! l_index tlr = Some (n_link x) →
  he s !! l_edge tlr = Some erec →
  edges_ s !! e_index erec = Some (l_edge tlr) →
  hl s !! l_outer tlr = Some arec →
  l_outer arec = n_link x →
  l_outer tlr ≠ n_link x →
  links_ s !! l_index arec = Some (l_outer tlr) →
  ring (hl s) (l_outer tlr) r →
  links_ s !! root_link_index_ s = Some rl →
  hl s !! rl = Some lr →
  hn s !! l_node lr = Some xr →
  length r < fuel →
  delete_leaf_node fuel n s
  = bind (link_index (if decide (n_index xr = n_index x) then l_outer tlr else rl))
         reset_root_link_index
      (node_removed s n (n_index x) (l_edge tlr) (e_index erec)
         (l_outer tlr) (n_link x) (l_index arec) (l_index tlr)
         (alter (set_next (l_next arec)) (chain_last (l_outer tlr) r) (hl s))
         (he s) (root_link_index_ s)).
Proof.
  intros Hil Hin Hie Hn Hnb Htl Htln Htlb He Heb Ha Hao Hane Hab Hring
    Hroot Hlr Hxr Hf.
  destruct x as [ni tl nd], tlr as [ti tnx A tn E], arec as [ai anx ao an ae].
  cbn [n_index n_link n_data l_index l_next l_outer l_node l_edge] in *. subst tnx ao.
  destruct (ring_next _ _ _ Hring) as (arec' & Harec' & Hchain & Hlast).
  assert (arec' = mkLink ai anx tl an ae) as -> by congruence. clear Harec'.
  cbn [l_next] in Hchain, Hlast.
  destruct (chain_last_live _ _ _ _ Hring) as (prec & Hprec & Hpnext).
  remember (chain_last A r) as pred eqn:Hpred.
  assert (tl ≠ pred) as Htp.
  { intros E'. apply Hane. symmetry.
    apply (chain_self_loop (hl s) A r A tl (mkLink ti tl A tn E) Hring); [|done|done].
    rewrite E', Hpred. apply chain_last_elem. }
  assert (ai ≠ ti) as Hidx by (intros E'; congruence).
  destruct prec as [pi pnx po pn pe]. cbn [l_next] in Hpnext. subst pnx.
  assert (indexed_in e_index (edges_ s) (he s)) as Hie' by exact Hie.
  assert (indexed_in n_index (nodes_ s) (hn s)) as Hin' by exact Hin.
  assert (indexed_in l_index (links_ s) (hl s)) as Hil' by exact Hil.
  destruct (erased_once e_index _ _ _ _ Hie' Heb) as (Hle1 & Hle2 & Hme).
  destruct (erased_once n_index _ _ _ _ Hin' Hnb) as (Hln1 & Hln2 & Hmn).
  destruct (erased_twice l_index _ _ ai ti A tl Hil' Hidx Hab Htlb)
    as (Hnd2 & Hll1 & Hll2 & Hlow2 & Hm2).
  unfold node_removed.
  rewrite (alter_alt_Some _ _ _ _ Hprec).
  assert (set_next anx (mkLink pi A po pn pe) = mkLink pi anx po pn pe) as Esn by done.
  rewrite Esn. clear Esn.
  assert (∀ q, q ∈ delete (ai `max` ti - 1) (delete (ai `min` ti) (links_ s)) →
    is_Some (delete tl (delete A (<[pred:=mkLink pi anx po pn pe]> (hl s))) !! q)) as Hsub.
  { intros q Hq. apply Hm2 in Hq as (Hq & HqA & Hqt).
    rewrite !lookup_delete_ne by done. apply lookup_insert_is_Some'. right.
    by eapply indexed_live. }
  destruct (decide (pred = A)) as [Hpa|Hpa];
    [subst A; assert (pi = ai ∧ anx = pred ∧ po = tl ∧ pn = an ∧ pe = ae)
       as (-> & -> & -> & -> & ->) by (split_and!; congruence)|].
  all: unfold delete_leaf_node.
  all: mstep_by ltac:(by apply (belongs_to_node_true s n (mkNode ni tl nd))).
  all: cbn [negb].
  all: mstep_by ltac:(apply (degree_ring s n (mkNode ni tl nd) []); [done| |cbn; lia];
    unfold ring; cbn [chain]; by eexists).
  all: cbn [length]; rewrite bool_decide_eq_true_2 by done; cbn [negb].
  all: do 4 mstep.
  all: destruct (decide (n_index xr = ni)) as [Hri|Hri];
    [mstep|rewrite (bind_Ok (ret _) _ _ _ _ eq_refl)].
  all: do 4 mstep.
  all: mstep_by ltac:(apply reindex_edges_from_ok; cbn [edges_ he];
    [done|intros q Hq; apply Hme in Hq as [Hq Hqne];
          rewrite lookup_delete_ne by done; by eapply indexed_live]).
  all: do 3 mstep.
  all: mstep_by ltac:(apply (ring_pred_chain _ _ (tail r)); [exact Hchain|];
    destruct r; cbn in Hf |- *; lia).
  all: rewrite Hlast.
  all: do 6 mstep.
  all: mstep_by ltac:(eapply (erase_two_links_ok _ ai ti); cbn [links_]; done).
  all: unfold minmax_value; cbn [fst snd].
  all: mstep_by ltac:(apply reindex_links_from_ok; cbn [links_ hl]; [done|exact Hsub]).
  all: do 2 mstep.
  all: mstep_by ltac:(apply reindex_nodes_from_ok; cbn [nodes_ hn];
    [done|intros q Hq; apply Hmn in Hq as [Hq Hqne];
          rewrite lookup_delete_ne by done; by eapply indexed_live]).
  all: reflexivity.
Qed.

Lemma delete_leaf_node_run s n x tlr arec erec r rl lr xr j fuel :
  links_indexed s → nodes_indexed s → edges_indexed s →
  hn s !! n = Some x →
  nodes_ s !! n_index x = Some n →
  hl s !! n_link x = Some tlr →
  l_next tlr = n_link x →
  links_ s !! l_index tlr = Some (n_link x) →
  he s !! l_edge tlr = Some erec →
  edges_ s !! e_index erec = Some (l_edge tlr) →
  hl s !! l_outer tlr = Some arec →
  l_outer arec = n_link x →
  l_outer tlr ≠ n_link x →
  links_ s !! l_index arec = Some (l_outer tlr) →
  ring (hl s) (l_outer tlr) r →
  links_ s !! root_link_index_ s = Some rl →
  hl s !! rl = Some lr →
  hn s !! l_node lr = Some xr →
  n_index xr ≠ n_index x →
  length r < fuel →
  let s' := node_removed s n (n_index x) (l_edge tlr) (e_index erec)
              (l_outer tlr) (n_link x) (l_index arec) (l_index tlr)
              (alter (set_next (l_next arec)) (chain_last (l_outer tlr) r) (hl s))
              (he s) j in
  (∃ lrf, hl s' !! rl = Some lrf ∧ l_index lrf = j) →
  delete_leaf_node fuel n s = Ok tt s'.
Proof.
  intros Hil Hin Hie Hn Hnb Htl Htln Htlb He Heb Ha Hao Hane Hab Hring
    Hroot Hlr Hxr Hxri Hf s' (lrf & Hlrf & Hlrfi). subst s'.
  rewrite (delete_leaf_node_prefix s n x tlr arec erec r rl lr xr fuel) by done.
  rewrite decide_False by done.
  unfold node_removed in *. cbn [hl] in Hlrf.
  mstep_by ltac:(unfold link_index, deref_link, bind, ret; cbn [hl];
    rewrite Hlrf; reflexivity).
  rewrite Hlrfi. reflexivity.
Qed.

(** X12.  [delete_leaf_node] on a leaf whose edge carries the root link:
    when the leaf is the root node the link kept as root link is the
    attachment link, otherwise it is the root link itself, and in both cases
    that link is one of the two that are erased before its index is read.
    On every such tree the call ends in undefined behaviour. *)
Theorem delete_leaf_node_at_root_edge_faults s n x tlr arec erec r rl lr xr fuel :
  links_indexed s → nodes_indexed s → edges_indexed s →
  hn s !! n = Some x →
  nodes_ s !! n_index x = Some n →
  hl s !! n_link x = Some tlr →
  l_next tlr = n_link x →
  links_ s !! l_index tlr = Some (n_link x) →
  he s !! l_edge tlr = Some erec →
  edges_ s !! e_index erec = Some (l_edge tlr) →
  hl s !! l_outer tlr = Some arec →
  l_outer arec = n_link x →
  l_outer tlr ≠ n_link x →
  links_ s !! l_index arec = Some (l_outer tlr) →
  ring (hl s) (l_outer tlr) r →
  links_ s !! root_link_index_ s = Some rl →
  hl s !! rl = Some lr →
  hn s !! l_node lr = Some xr →
  length r < fuel →
  n_index xr = n_index x ∨ rl = l_outer tlr →
  delete_leaf_node fuel n s = Fault.
Proof.
  intros Hil Hin Hie Hn Hnb Htl Htln Htlb He Heb Ha Hao Hane Hab Hring
    Hroot Hlr Hxr Hf Hcase.
  rewrite (delete_leaf_node_prefix s n x tlr arec erec r rl lr xr fuel) by done.
  assert ((if decide (n_index xr = n_index x) then l_outer tlr else rl) = l_outer tlr)
    as ->.
  { case_decide; [done|]. by destruct Hcase. }
  apply bind_Fault. unfold link_index, deref_link, bind, node_removed. cbn [hl].
  assert (reindex_pure set_lindex
    (delete (l_index arec `max` l_index tlr - 1)
       (delete (l_index arec `min` l_index tlr) (links_ s)))
    (l_index arec `min` l_index tlr)
    (length (delete (l_index arec `max` l_index tlr - 1)
               (delete (l_index arec `min` l_index tlr) (links_ s)))
     - l_index arec `min` l_index tlr)
    (delete (n_link x) (delete (l_outer tlr)
       (alter (set_next (l_next arec)) (chain_last (l_outer tlr) r) (hl s))))
    !! l_outer tlr = None) as ->; [|done].
  apply eq_None_not_Some. rewrite reindex_pure_is_Some.
  rewrite lookup_delete_ne, lookup_delete_eq by done. by intros [? ?].
Qed.

(** X11.  [delete_leaf_node] on a leaf [n] of a tree whose vectors are
    indexed, when the root link is neither the link of [n] nor the link
    [n] is attached at: the call returns; the node, its edge and the two
    links of that edge are gone, from the vectors and from the free store,
    and nothing else is; stored indices equal positions again; the root link
    index denotes the same link as before; and the ring of the node [n] was
    attached to is the old ring without the attachment link. *)
Theorem delete_leaf_node_removes_leaf s n x tlr arec erec r rl lr xr fuel :
  links_indexed s → nodes_indexed s → edges_indexed s →
  hn s !! n = Some x →
  nodes_ s !! n_index x = Some n →
  hl s !! n_link x = Some tlr →
  l_next tlr = n_link x →
  links_ s !! l_index tlr = Some (n_link x) →
  he s !! l_edge tlr = Some erec →
  edges_ s !! e_index erec = Some (l_edge tlr) →
  hl s !! l_outer tlr = Some arec →
  l_outer arec = n_link x →
  l_outer tlr ≠ n_link x →
  links_ s !! l_index arec = Some (l_outer tlr) →
  ring (hl s) (l_outer tlr) r →
  links_ s !! root_link_index_ s = Some rl →
  hl s !! rl = Some lr →
  rl ≠ n_link x → rl ≠ l_outer tlr →
  hn s !! l_node lr = Some xr →
  n_index xr ≠ n_index x →
  length r < fuel →
  ∃ s',
    delete_leaf_node fuel n s = Ok tt s' ∧
    S (length (nodes_ s')) = length (nodes_ s) ∧
    S (length (edges_ s')) = length (edges_ s) ∧
    S (S (length (links_ s'))) = length (links_ s) ∧
    links_indexed s' ∧ nodes_indexed s' ∧ edges_indexed s' ∧
    links_ s' !! root_link_index_ s' = Some rl ∧
    hn s' !! n = None ∧ he s' !! l_edge tlr = None ∧
    hl s' !! l_outer tlr = None ∧ hl s' !! n_link x = None ∧
    (∀ q, q ∈ links_ s' ↔ q ∈ links_ s ∧ q ≠ l_outer tlr ∧ q ≠ n_link x) ∧
    (∀ q, q ∈ nodes_ s' ↔ q ∈ nodes_ s ∧ q ≠ n) ∧
    (∀ q, q ∈ edges_ s' ↔ q ∈ edges_ s ∧ q ≠ l_edge tlr) ∧
    (∀ r1 r', r = r1 :: r' → ring (hl s') r1 r').
Proof.
  intros Hil Hin Hie Hn Hnb Htl Htln Htlb He Heb Ha Hao Hane Hab Hring
    Hroot Hlr Hrt Hra Hxr Hxri Hf.
  set (hl1 := alter (set_next (l_next arec)) (chain_last (l_outer tlr) r) (hl s)).
  assert (∀ q, l_index <$> hl1 !! q = l_index <$> hl s !! q) as Hli.
  { intros q. unfold hl1.
    destruct (decide (chain_last (l_outer tlr) r = q)) as [->|Hq].
    - rewrite lookup_alter_eq. by destruct (hl s !! q).
    - by rewrite lookup_alter_ne. }
  destruct (node_removed_props s n x (l_edge tlr) erec (l_outer tlr) (n_link x)
              arec tlr hl1 (he s) rl)
    as (j & Hrlf & Hj & Hcn & Hce & Hcl & Hil' & Hin' & Hie' & Hgn & Hge & Hg1 & Hg2
        & Hml & Hmn & Hme); try done.
  { by eapply list_elem_of_lookup_2. }
  cbv zeta in *.
  eexists. split.
  { eapply (delete_leaf_node_run s n x tlr arec erec r rl lr xr j fuel); try done. }
  do 6 (split; [done|]). split; [exact Hj|].
  do 7 (split; [done|]).
  intros r1 r' ->.
  destruct Hring as (arec' & Ha' & Hnx & Hr1 & Hchain).
  assert (arec' = arec) as -> by congruence.
  pose proof (chain_NoDup _ _ _ _ Hchain) as Hnd.
  pose proof (chain_stop_notin _ _ _ _ Hchain) as Hstop.
  assert (chain hl1 r1 r' r1) as Hc1.
  { unfold hl1. cbn [chain_last]. rewrite Hnx.
    eapply chain_set_last; [exact Hchain|]. by apply NoDup_cons in Hnd as [? _]. }
  unfold ring, node_removed. cbn [hl]. fold hl1.
  eapply chain_next_eq; [|exact Hc1].
  intros p Hp.
  rewrite (reindex_pure_clear set_lindex l_next) by done.
  assert (p ≠ l_outer tlr) as HpA.
  { intros ->. apply elem_of_cons in Hp as [?|?]; done. }
  assert (p ≠ n_link x) as Hpt.
  { intros ->. apply Hane. symmetry.
    eapply (chain_self_loop (hl s) (l_outer tlr) (r1 :: r') (l_outer tlr) (n_link x) tlr);
      [|apply elem_of_cons; by right|done|done].
    cbn [chain]. exists arec. done. }
  by rewrite !lookup_delete_ne.
Qed.

End DeleteLeaf.

Section DeleteLinear.
Context {ND ED : Type} {PN : Payload ND} {PE : Payload ED}.
Implicit Types s : State ND ED.

(** [delete_linear_node] without callback, up to its last statement. *)
Lemma delete_linear_node_prefix s n x prr nxr Pr Dr e1r e2r rl lr xr fuel :
  links_indexed s → nodes_indexed s → edges_indexed s →
  hn s !! n = Some x →
  nodes_ s !! n_index x = Some n →
  hl s !! n_link x = Some prr →
  hl s !! l_next prr = Some nxr →
  l_next nxr = n_link x →
  l_next prr ≠ n_link x →
  links_ s !! l_index prr = Some (n_link x) →
  links_ s !! l_index nxr = Some (l_next prr) →
  hl s !! l_outer prr = Some Pr →
  hl s !! l_outer nxr = Some Dr →
  l_outer prr ≠ l_outer nxr →
  l_outer prr ≠ n_link x → l_outer prr ≠ l_next prr →
  l_outer nxr ≠ n_link x → l_outer nxr ≠ l_next prr →
  l_edge Pr = l_edge prr → l_edge Dr = l_edge nxr →
  l_edge prr ≠ l_edge nxr →
  he s !! l_edge prr = Some e1r →
  he s !! l_edge nxr = Some e2r →
  edges_ s !! e_index e2r = Some (l_edge nxr) →
  links_ s !! root_link_index_ s = Some rl →
  hl s !! rl = Some lr →
  hn s !! l_node lr = Some xr →
  1 < fuel →
  delete_linear_node fuel n None s
  = bind (link_index (if decide (n_index xr = n_index x) then l_outer prr else rl))
         reset_root_link_index
      (node_removed s n (n_index x) (l_edge nxr) (e_index e2r)
         (n_link x) (l_next prr) (l_index prr) (l_index nxr)
         (<[l_outer nxr:=mkLink (l_index Dr) (l_next Dr) (l_outer prr) (l_node Dr)
                           (l_edge prr)]>
          (<[l_outer prr:=mkLink (l_index Pr) (l_next Pr) (l_outer nxr) (l_node Pr)
                            (l_edge Pr)]> (hl s)))
         (<[l_edge nxr:=mkEdge (e_index e2r) (l_outer prr) (e_link_s e2r) (e_data e2r)]>
          (<[l_edge prr:=mkEdge (e_index e1r) (e_link_p e1r) (l_outer nxr) (e_data e1r)]>
           (he s)))
         (root_link_index_ s)).
Proof.
  intros Hil Hin Hie Hn Hnb Hpr Hnx Hnxn Hnxne Hprb Hnxb HP HD HPD HPpr HPnx HDpr HDnx
    HPe HDe HE He1 He2 He2b Hroot Hlr Hxr Hf.
  destruct x as [ni pr nd], prr as [ipr nx P prn E1], nxr as [inx nxn D nxnode E2],
    Pr as [iP Pn Po Pnode Pe], Dr as [iD Dn Do Dnode De].
  cbn [n_index n_link n_data l_index l_next l_outer l_node l_edge] in *.
  subst nxn Pe De.
  assert (indexed_in e_index (edges_ s) (he s)) as Hie' by exact Hie.
  assert (indexed_in n_index (nodes_ s) (hn s)) as Hin' by exact Hin.
  assert (indexed_in l_index (links_ s) (hl s)) as Hil' by exact Hil.
  assert (ipr ≠ inx) as Hidx by (intros E'; congruence).
  destruct (erased_once e_index _ _ _ _ Hie' He2b) as (Hle1 & Hle2 & Hme).
  destruct (erased_once n_index _ _ _ _ Hin' Hnb) as (Hln1 & Hln2 & Hmn).
  destruct (erased_twice l_index _ _ ipr inx pr nx Hil' Hidx Hprb Hnxb)
    as (Hnd2 & Hll1 & Hll2 & Hlow2 & Hm2).
  unfold node_removed.
  assert (∀ q, q ∈ delete (ipr `max` inx - 1) (delete (ipr `min` inx) (links_ s)) →
    is_Some (delete nx (delete pr
      (<[D:=mkLink iD Dn P Dnode E1]> (<[P:=mkLink iP Pn D Pnode E1]> (hl s)))) !! q))
    as Hsub.
  { intros q Hq. apply Hm2 in Hq as (Hq & Hq1 & Hq2).
    rewrite !lookup_delete_ne by done.
    do 2 (apply lookup_insert_is_Some'; right). by eapply indexed_live. }
  assert (∀ q, q ∈ delete (e_index e2r) (edges_ s) →
    is_Some (delete E2
      (<[E2:=mkEdge (e_index e2r) P (e_link_s e2r) (e_data e2r)]>
         (<[E1:=mkEdge (e_index e1r) (e_link_p e1r) D (e_data e1r)]> (he s))) !! q))
    as Hsube.
  { intros q Hq. apply Hme in Hq as (Hq & Hq1).
    rewrite !lookup_delete_ne by done.
    do 2 (apply lookup_insert_is_Some'; right). by eapply indexed_live. }
  assert (ring (hl s) pr [nx]) as Hring.
  { unfold ring. cbn [chain]. eexists. split; [exact Hpr|]. do 2 (split; [done|]).
    eexists. split; [exact Hnx|done]. }
  unfold delete_linear_node.
  mstep_by ltac:(by apply (belongs_to_node_true s n (mkNode ni pr nd))).
  cbn [negb].
  mstep_by ltac:(apply (degree_ring s n (mkNode ni pr nd) [nx]); [done|done|cbn; lia]).
  cbn [length]. rewrite bool_decide_eq_true_2 by done. cbn [negb].
  rewrite (bind_Ok (ret _) _ _ _ _ eq_refl).
  do 4 mstep.
  destruct (decide (n_index xr = ni)) as [Hri|Hri];
    [mstep|rewrite (bind_Ok (ret _) _ _ _ _ eq_refl)].
  all: repeat mstep.
  all: mstep_by ltac:(apply reindex_edges_from_ok; cbn [edges_ he]; [done|exact Hsube]).
  all: do 3 mstep.
  all: mstep_by ltac:(eapply (erase_two_links_ok _ ipr inx); cbn [links_]; done).
  all: unfold minmax_value; cbn [fst snd].
  all: mstep_by ltac:(apply reindex_links_from_ok; cbn [links_ hl]; [done|exact Hsub]).
  all: do 2 mstep.
  all: mstep_by ltac:(apply reindex_nodes_from_ok; cbn [nodes_ hn];
    [done|intros q Hq; apply Hmn in Hq as [Hq Hqne];
          rewrite lookup_delete_ne by done; by eapply indexed_live]).
  all: reflexivity.
Qed.


(** What [delete_linear_node] (no callback) does on a node [n] with exactly
    two links, whichever link is kept as root link: the outer link of the
    primary link of [n] when [n] carries the index of the root node, the
    root link otherwise. *)
Lemma delete_linear_node_run_props s n x prr nxr Pr Dr e1r e2r rl lr xr fuel :
  links_indexed s → nodes_indexed s → edges_indexed s →
  hn s !! n = Some x →
  nodes_ s !! n_index x = Some n →
  hl s !! n_link x = Some prr →
  hl s !! l_next prr = Some nxr →
  l_next nxr = n_link x →
  l_next prr ≠ n_link x →
  links_ s !! l_index prr = Some (n_link x) →
  links_ s !! l_index nxr = Some (l_next prr) →
  hl s !! l_outer prr = Some Pr →
  hl s !! l_outer nxr = Some Dr →
  l_outer prr ≠ l_outer nxr →
  l_outer prr ≠ n_link x → l_outer prr ≠ l_next prr →
  l_outer nxr ≠ n_link x → l_outer nxr ≠ l_next prr →
  l_edge Pr = l_edge prr → l_edge Dr = l_edge nxr →
  l_edge prr ≠ l_edge nxr →
  he s !! l_edge prr = Some e1r →
  he s !! l_edge nxr = Some e2r →
  edges_ s !! e_index e2r = Some (l_edge nxr) →
  links_ s !! root_link_index_ s = Some rl →
  hl s !! rl = Some lr →
  hn s !! l_node lr = Some xr →
  1 < fuel →
  let kept := if decide (n_index xr = n_index x) then l_outer prr else rl in
  kept ∈ links_ s → kept ≠ n_link x → kept ≠ l_next prr →
  ∃ s',
    delete_linear_node fuel n None s = Ok tt s' ∧
    S (length (nodes_ s')) = length (nodes_ s) ∧
    S (length (edges_ s')) = length (edges_ s) ∧
    S (S (length (links_ s'))) = length (links_ s) ∧
    links_indexed s' ∧ nodes_indexed s' ∧ edges_indexed s' ∧
    links_ s' !! root_link_index_ s' = Some kept ∧
    hn s' !! n = None ∧ he s' !! l_edge nxr = None ∧
    hl s' !! n_link x = None ∧ hl s' !! l_next prr = None ∧
    (∀ q, q ∈ links_ s' ↔ q ∈ links_ s ∧ q ≠ n_link x ∧ q ≠ l_next prr) ∧
    (∀ q, q ∈ nodes_ s' ↔ q ∈ nodes_ s ∧ q ≠ n) ∧
    (∀ q, q ∈ edges_ s' ↔ q ∈ edges_ s ∧ q ≠ l_edge nxr) ∧
    outer_is (hl s') (l_outer prr) (l_outer nxr) ∧
    outer_is (hl s') (l_outer nxr) (l_outer prr) ∧
    l_edge <$> hl s' !! l_outer prr = Some (l_edge prr) ∧
    l_edge <$> hl s' !! l_outer nxr = Some (l_edge prr) ∧
    e_link_p <$> he s' !! l_edge prr = Some (e_link_p e1r) ∧
    e_link_s <$> he s' !! l_edge prr = Some (l_outer nxr) ∧
    (∀ q, q ≠ n_link x → q ≠ l_next prr → l_next <$> hl s' !! q = l_next <$> hl s !! q).
Proof.
  intros Hil Hin Hie Hn Hnb Hpr Hnx Hnxn Hnxne Hprb Hnxb HP HD HPD HPpr HPnx HDpr HDnx
    HPe HDe HE He1 He2 He2b Hroot Hlr Hxr Hf kept Hkin Hk1 Hk2.
  set (hl1 := <[l_outer nxr:=mkLink (l_index Dr) (l_next Dr) (l_outer prr) (l_node Dr)
                             (l_edge prr)]>
              (<[l_outer prr:=mkLink (l_index Pr) (l_next Pr) (l_outer nxr) (l_node Pr)
                                (l_edge Pr)]> (hl s))).
  set (he1 := <[l_edge nxr:=mkEdge (e_index e2r) (l_outer prr) (e_link_s e2r) (e_data e2r)]>
              (<[l_edge prr:=mkEdge (e_index e1r) (e_link_p e1r) (l_outer nxr) (e_data e1r)]>
               (he s))).
  assert (∀ q, l_index <$> hl1 !! q = l_index <$> hl s !! q) as Hli.
  { intros q. unfold hl1.
    destruct (decide (q = l_outer nxr)) as [->|?]; [by rewrite lookup_insert_eq, HD|].
    rewrite lookup_insert_ne by done.
    destruct (decide (q = l_outer prr)) as [->|?]; [by rewrite lookup_insert_eq, HP|].
    by rewrite lookup_insert_ne. }
  assert (∀ q, e_index <$> he1 !! q = e_index <$> he s !! q) as Hei.
  { intros q. unfold he1.
    destruct (decide (q = l_edge nxr)) as [->|?]; [by rewrite lookup_insert_eq, He2|].
    rewrite lookup_insert_ne by done.
    destruct (decide (q = l_edge prr)) as [->|?]; [by rewrite lookup_insert_eq, He1|].
    by rewrite lookup_insert_ne. }
  destruct (node_removed_props s n x (l_edge nxr) e2r (n_link x) (l_next prr)
              prr nxr hl1 he1 kept)
    as (j & (lrf & Hlrf & Hlrfi) & Hj & Hcn & Hce & Hcl & Hil' & Hin' & Hie' & Hgn & Hge
        & Hg1 & Hg2 & Hml & Hmn & Hme); try done.
  cbv zeta in *.
  eexists. split.
  { rewrite (delete_linear_node_prefix s n x prr nxr Pr Dr e1r e2r rl lr xr fuel) by done.
    fold hl1 he1 kept. unfold node_removed in Hlrf |- *. cbn [hl] in Hlrf.
    mstep_by ltac:(unfold link_index, deref_link, bind, ret; cbn [hl];
      rewrite Hlrf; reflexivity).
    rewrite Hlrfi. reflexivity. }
  do 6 (split; [done|]). split; [exact Hj|].
  do 7 (split; [done|]).
  unfold outer_is, node_removed. cbn [hl he].
  assert (∀ q, q ≠ n_link x → q ≠ l_next prr →
    ∀ {B} (f : TreeLink → B), (∀ j a, f (set_lindex j a) = f a) →
    f <$> reindex_pure set_lindex
            (delete (l_index prr `max` l_index nxr - 1)
               (delete (l_index prr `min` l_index nxr) (links_ s)))
            (l_index prr `min` l_index nxr)
            (length (delete (l_index prr `max` l_index nxr - 1)
                       (delete (l_index prr `min` l_index nxr) (links_ s)))
             - l_index prr `min` l_index nxr)
            (delete (l_next prr) (delete (n_link x) hl1)) !! q
    = f <$> hl1 !! q) as Hread.
  { intros q Hq1 Hq2 B f Hf'. rewrite (reindex_pure_clear set_lindex f) by done.
    by rewrite !lookup_delete_ne. }
  assert (∀ {B} (f : TreeEdge ED → B), (∀ j a, f (set_eindex j a) = f a) →
    f <$> reindex_pure set_eindex (delete (e_index e2r) (edges_ s)) (e_index e2r)
            (length (delete (e_index e2r) (edges_ s)) - e_index e2r)
            (delete (l_edge nxr) he1) !! l_edge prr
    = f <$> he1 !! l_edge prr) as Hreade.
  { intros B f Hf'. rewrite (reindex_pure_clear set_eindex f) by done.
    by rewrite !lookup_delete_ne. }
  assert (hl1 !! l_outer prr
    = Some (mkLink (l_index Pr) (l_next Pr) (l_outer nxr) (l_node Pr) (l_edge Pr))) as HP1.
  { unfold hl1. rewrite lookup_insert_ne by done. by rewrite lookup_insert_eq. }
  assert (hl1 !! l_outer nxr
    = Some (mkLink (l_index Dr) (l_next Dr) (l_outer prr) (l_node Dr) (l_edge prr))) as HD1.
  { unfold hl1. by rewrite lookup_insert_eq. }
  assert (he1 !! l_edge prr
    = Some (mkEdge (e_index e1r) (e_link_p e1r) (l_outer nxr) (e_data e1r))) as HE1.
  { unfold he1. rewrite lookup_insert_ne by done. by rewrite lookup_insert_eq. }
  split.
  { pose proof (Hread (l_outer prr) HPpr HPnx _ l_outer (λ _ _, eq_refl)) as Ho.
    rewrite HP1 in Ho. cbn in Ho. apply fmap_Some in Ho as (a & Ha' & Hfa).
    exists a. split; [exact Ha'|done]. }
  split.
  { pose proof (Hread (l_outer nxr) HDpr HDnx _ l_outer (λ _ _, eq_refl)) as Ho.
    rewrite HD1 in Ho. cbn in Ho. apply fmap_Some in Ho as (a & Ha' & Hfa).
    exists a. split; [exact Ha'|done]. }
  split.
  { etrans; [exact (Hread (l_outer prr) HPpr HPnx _ l_edge (λ _ _, eq_refl))|].
    rewrite HP1. cbn. by rewrite HPe. }
  split.
  { etrans; [exact (Hread (l_outer nxr) HDpr HDnx _ l_edge (λ _ _, eq_refl))|].
    by rewrite HD1. }
  split; [etrans; [exact (Hreade _ e_link_p (λ _ _, eq_refl))|by rewrite HE1]|].
  split; [etrans; [exact (Hreade _ e_link_s (λ _ _, eq_refl))|by rewrite HE1]|].
  intros q Hq1 Hq2.
  etrans; [exact (Hread q Hq1 Hq2 _ l_next (λ _ _, eq_refl))|].
  unfold hl1.
  destruct (decide (q = l_outer nxr)) as [->|?]; [by rewrite lookup_insert_eq, HD|].
  rewrite lookup_insert_ne by done.
  destruct (decide (q = l_outer prr)) as [->|?]; [by rewrite lookup_insert_eq, HP|].
  by rewrite lookup_insert_ne.
Qed.


(** X13.  [delete_linear_node] (no callback) on a node [n] that is not the
    root node and has exactly two links, on a tree whose vectors are indexed
    and in which, as the source asserts, both links of [n] face links that
    lead back to them, the edge at the primary link of [n] joins the
    neighbour on the root side to [n], and the edge at the other link
    starts at [n].  The call returns; [n], its two links and the edge at its
    second link are gone and nothing else is; stored indices equal positions
    again; the root link index denotes the root link as before; the two
    neighbouring links are each other's outer link and both lie on the edge
    that stays, whose primary link is the neighbouring link on the root side
    and whose secondary link is the far one; no ring of another node
    changes. *)
Theorem delete_linear_node_joins_neighbours s n x prr nxr Pr Dr e1r e2r rl lr xr fuel :
  links_indexed s → nodes_indexed s → edges_indexed s →
  hn s !! n = Some x →
  nodes_ s !! n_index x = Some n →
  hl s !! n_link x = Some prr →
  hl s !! l_next prr = Some nxr →
  l_next nxr = n_link x →
  l_next prr ≠ n_link x →
  l_node prr = n → l_node nxr = n →
  links_ s !! l_index prr = Some (n_link x) →
  links_ s !! l_index nxr = Some (l_next prr) →
  hl s !! l_outer prr = Some Pr →
  hl s !! l_outer nxr = Some Dr →
  l_outer Pr = n_link x → l_outer Dr = l_next prr →
  l_outer prr ≠ l_outer nxr →
  l_outer prr ≠ n_link x → l_outer prr ≠ l_next prr →
  l_outer nxr ≠ n_link x → l_outer nxr ≠ l_next prr →
  l_edge Pr = l_edge prr → l_edge Dr = l_edge nxr →
  l_edge prr ≠ l_edge nxr →
  he s !! l_edge prr = Some e1r →
  he s !! l_edge nxr = Some e2r →
  e_link_p e1r = l_outer prr → e_link_s e1r = n_link x →
  e_link_p e2r = l_next prr → e_link_s e2r = l_outer nxr →
  edges_ s !! e_index e2r = Some (l_edge nxr) →
  links_ s !! root_link_index_ s = Some rl →
  hl s !! rl = Some lr →
  hn s !! l_node lr = Some xr →
  n_index xr ≠ n_index x →
  1 < fuel →
  ∃ s',
    delete_linear_node fuel n None s = Ok tt s' ∧
    S (length (nodes_ s')) = length (nodes_ s) ∧
    S (length (edges_ s')) = length (edges_ s) ∧
    S (S (length (links_ s'))) = length (links_ s) ∧
    links_indexed s' ∧ nodes_indexed s' ∧ edges_indexed s' ∧
    links_ s' !! root_link_index_ s' = Some rl ∧
    hn s' !! n = None ∧ he s' !! l_edge nxr = None ∧
    hl s' !! n_link x = None ∧ hl s' !! l_next prr = None ∧
    (∀ q, q ∈ links_ s' ↔ q ∈ links_ s ∧ q ≠ n_link x ∧ q ≠ l_next prr) ∧
    (∀ q, q ∈ nodes_ s' ↔ q ∈ nodes_ s ∧ q ≠ n) ∧
    (∀ q, q ∈ edges_ s' ↔ q ∈ edges_ s ∧ q ≠ l_edge nxr) ∧
    outer_is (hl s') (l_outer prr) (l_outer nxr) ∧
    outer_is (hl s') (l_outer nxr) (l_outer prr) ∧
    l_edge <$> hl s' !! l_outer prr = Some (l_edge prr) ∧
    l_edge <$> hl s' !! l_outer nxr = Some (l_edge prr) ∧
    e_link_p <$> he s' !! l_edge prr = Some (l_outer prr) ∧
    e_link_s <$> he s' !! l_edge prr = Some (l_outer nxr) ∧
    (∀ q, q ≠ n_link x → q ≠ l_next prr → l_next <$> hl s' !! q = l_next <$> hl s !! q).
Proof.
  intros Hil Hin Hie Hn Hb Hpr Hnx Hnxn Hne Hprn Hnxnode Hipr Hinx HP HD HPo HDo
    Hpd HPpr HPnx HDpr HDnx HPe HDe Hee He1 He2 He1p He1s He2p He2s Hie2
    Hroot Hlr Hxr Hnotroot Hf.
  assert (l_node lr ≠ n) as Hrn.
  { intros Heq. rewrite Heq, Hn in Hxr. by injection Hxr as ->. }
  assert (rl ≠ n_link x) as Hr1.
  { intros ->. rewrite Hpr in Hlr. injection Hlr as <-. done. }
  assert (rl ≠ l_next prr) as Hr2.
  { intros ->. rewrite Hnx in Hlr. injection Hlr as <-. done. }
  destruct (delete_linear_node_run_props s n x prr nxr Pr Dr e1r e2r rl lr xr fuel)
    as (s' & Hrun & Hcn & Hce & Hcl & Hil' & Hin' & Hie' & Hroot' & Hgn & Hge & Hg1 & Hg2
        & Hml & Hmn & Hme & Ho1 & Ho2 & Hle1 & Hle2 & Hep & Hes & Hnext); try done.
  - destruct (decide (n_index xr = n_index x)) as [?|_]; [done|].
    by eapply list_elem_of_lookup_2.
  - by destruct (decide (n_index xr = n_index x)).
  - by destruct (decide (n_index xr = n_index x)).
  - exists s'. split; [exact Hrun|].
    do 6 (split; [done|]).
    split. { by destruct (decide (n_index xr = n_index x)). }
    do 11 (split; [done|]).
    split; [by rewrite Hep, He1p|]. done.
Qed.

(** X14.  The callback of [delete_linear_node] runs once, after the two
    checks and before anything is changed, on the edge at the primary link
    of the node (the edge that stays) and the edge at its other link (the
    edge that goes).  What it throws is thrown by the call, in the store the
    callback left; when it returns and the node is still a node of the tree
    with its two links, the call goes on as the call without callback
    does. *)
Theorem delete_linear_node_callback s n x nx prr nxr
    (f : ptr → ptr → M ND ED unit) fuel :
  hn s !! n = Some x →
  nodes_ s !! n_index x = Some n →
  ring (hl s) (n_link x) [nx] →
  hl s !! n_link x = Some prr →
  hl s !! nx = Some nxr →
  1 < fuel →
  (∀ msg s1, f (l_edge prr) (l_edge nxr) s = Throw msg s1 →
     delete_linear_node fuel n (Some f) s = Throw msg s1) ∧
  (∀ s1 x1 nx1, f (l_edge prr) (l_edge nxr) s = Ok tt s1 →
     hn s1 !! n = Some x1 →
     nodes_ s1 !! n_index x1 = Some n →
     ring (hl s1) (n_link x1) [nx1] →
     delete_linear_node fuel n (Some f) s = delete_linear_node fuel n None s1).
Proof.
  intros Hn Hnb Hring Hpr Hnx Hf.
  assert (l_next prr = nx) as Hnext.
  { destruct Hring as (l & Hl & Hnx' & _). congruence. }
  split.
  - intros msg s1 Hthrow. unfold delete_linear_node.
    mstep_by ltac:(by apply (belongs_to_node_true s n x)).
    cbn [negb].
    mstep_by ltac:(by apply (degree_ring s n x [nx])).
    cbn [length]. rewrite bool_decide_eq_true_2 by done. cbn [negb].
    apply bind_Throw. do 4 mstep. rewrite Hnext. mstep. exact Hthrow.
  - intros s1 x1 nx1 Hok Hn1 Hnb1 Hring1. unfold delete_linear_node.
    mstep_by ltac:(by apply (belongs_to_node_true s n x)).
    cbn [negb].
    mstep_by ltac:(by apply (degree_ring s n x [nx])).
    cbn [length]. rewrite bool_decide_eq_true_2 by done. cbn [negb].
    rewrite (bind_Ok _ _ s tt s1).
    2:{ do 4 mstep. rewrite Hnext. mstep. exact Hok. }
    symmetry.
    mstep_by ltac:(by apply (belongs_to_node_true s1 n x1)).
    cbn [negb].
    mstep_by ltac:(by apply (degree_ring s1 n x1 [nx1])).
    cbn [length]. rewrite bool_decide_eq_true_2 by done. cbn [negb].
    by rewrite (bind_Ok (ret _) _ _ _ _ eq_refl).
Qed.

End DeleteLinear.

(** ** What [delete_subtree] leaves behind *)

Section SplitMembers.

Lemma split_positions_members del old : ∀ i p,
  (p ∈ (split_positions del i old).1 ↔ ∃ j, old !! j = Some p ∧ i + j ∉ del) ∧
  (p ∈ (split_positions del i old).2 ↔ ∃ j, old !! j = Some p ∧ i + j ∈ del).
Proof.
  induction old as [|q old IH]; intros i p; cbn [split_positions fst snd].
  - split; (split; [by intros ?%elem_of_nil|by intros (j & ? & _)]).
  - destruct (IH (S i) p) as [IH1 IH2].
    assert (∀ P : nat → Prop,
      (∃ j, (q :: old) !! j = Some p ∧ P (i + j))
      ↔ (q = p ∧ P i) ∨ ∃ j, old !! j = Some p ∧ P (S i + j)) as Hsplit.
    { intros P. split.
      - intros ([|j] & Hj & HP); cbn in Hj.
        + left. rewrite Nat.add_0_r in HP. split; [congruence|done].
        + right. exists j. split; [done|]. by replace (S i + j) with (i + S j) by lia.
      - intros [[-> HP]|(j & Hj & HP)].
        + exists 0. rewrite Nat.add_0_r. done.
        + exists (S j). split; [done|]. by replace (i + S j) with (S i + j) by lia. }
    rewrite (Hsplit (λ k, k ∉ del)), (Hsplit (λ k, k ∈ del)).
    case_bool_decide; cbn [fst snd]; rewrite ?elem_of_cons, IH1, IH2; naive_solver.
Qed.

End SplitMembers.

Section CompactSplit.
Context {ND ED : Type} {PN : Payload ND} {PE : Payload ED}.
Implicit Types s : State ND ED.

(** The three compactions, with the vectors they produce spelled out. *)
Lemma compact_nodes_split s raw :
  (∀ p, p ∈ nodes_ s → is_Some (hn s !! p)) →
  NoDup (nodes_ s) → NoDup raw →
  Forall (λ d, d < length (nodes_ s)) raw →
  ∃ h',
    compact_nodes (merge_sort (≤) raw) s
    = Ok (split_positions (merge_sort (≤) raw) 0 (nodes_ s)).2
         (set_nodes (λ _, (split_positions (merge_sort (≤) raw) 0 (nodes_ s)).1)
            (set_hn (λ _, h') s)) ∧
    (∀ j p, (split_positions (merge_sort (≤) raw) 0 (nodes_ s)).1 !! j = Some p →
            n_index <$> h' !! p = Some j) ∧
    (∀ q, q ∉ (split_positions (merge_sort (≤) raw) 0 (nodes_ s)).1 →
          n_index <$> h' !! q = n_index <$> hn s !! q).
Proof.
  intros Hlive Hnd Hraw Hrange.
  destruct (compact_pure_merge_sort (nodes_ s) raw Hraw Hrange) as (Heq & _).
  cbv zeta in Heq.
  destruct (compact_loop_ok (ND:=ND) (ED:=ED) hn (λ h, set_hn (λ _, h))
              (λ h p, n_index <$> h !! p) node_reset_index) with (old := nodes_ s) (i := 0)
              (del := merge_sort (≤) raw) (di := 0) (new := @nil ptr)
              (behind := @nil ptr) (s := s)
    as (h' & Hrun & Hidx & Hframe); try done.
  - by intros [].
  - intros s0 p j [i Hi]. destruct (hn s0 !! p) as [x|] eqn:Hx; [|done].
    eexists. split; [prim_run|]. split.
    + by rewrite lookup_insert_eq.
    + intros q Hq. by rewrite lookup_insert_ne.
  - intros p Hp. destruct (Hlive p Hp) as [x ->]. by eexists.
  - intros p Hp. by apply elem_of_nil in Hp.
  - rewrite Heq in Hrun, Hidx, Hframe. exists h'. split; [|done].
    unfold compact_nodes. rewrite (bind_Ok _ _ s (nodes_ s) s) by done.
    rewrite (bind_Ok _ _ s _ _ Hrun). reflexivity.
Qed.

Lemma compact_edges_split s raw :
  (∀ p, p ∈ edges_ s → is_Some (he s !! p)) →
  NoDup (edges_ s) → NoDup raw →
  Forall (λ d, d < length (edges_ s)) raw →
  ∃ h',
    compact_edges (merge_sort (≤) raw) s
    = Ok (split_positions (merge_sort (≤) raw) 0 (edges_ s)).2
         (set_edges (λ _, (split_positions (merge_sort (≤) raw) 0 (edges_ s)).1)
            (set_he (λ _, h') s)) ∧
    (∀ j p, (split_positions (merge_sort (≤) raw) 0 (edges_ s)).1 !! j = Some p →
            e_index <$> h' !! p = Some j) ∧
    (∀ q, q ∉ (split_positions (merge_sort (≤) raw) 0 (edges_ s)).1 →
          e_index <$> h' !! q = e_index <$> he s !! q).
Proof.
  intros Hlive Hnd Hraw Hrange.
  destruct (compact_pure_merge_sort (edges_ s) raw Hraw Hrange) as (Heq & _).
  cbv zeta in Heq.
  destruct (compact_loop_ok (ND:=ND) (ED:=ED) he (λ h, set_he (λ _, h))
              (λ h p, e_index <$> h !! p) edge_reset_index) with (old := edges_ s) (i := 0)
              (del := merge_sort (≤) raw) (di := 0) (new := @nil ptr)
              (behind := @nil ptr) (s := s)
    as (h' & Hrun & Hidx & Hframe); try done.
  - by intros [].
  - intros s0 p j [i Hi]. destruct (he s0 !! p) as [x|] eqn:Hx; [|done].
    eexists. split; [prim_run|]. split.
    + by rewrite lookup_insert_eq.
    + intros q Hq. by rewrite lookup_insert_ne.
  - intros p Hp. destruct (Hlive p Hp) as [x ->]. by eexists.
  - intros p Hp. by apply elem_of_nil in Hp.
  - rewrite Heq in Hrun, Hidx, Hframe. exists h'. split; [|done].
    unfold compact_edges. rewrite (bind_Ok _ _ s (edges_ s) s) by done.
    rewrite (bind_Ok _ _ s _ _ Hrun). reflexivity.
Qed.

Lemma compact_links_split s raw :
  (∀ p, p ∈ links_ s → is_Some (hl s !! p)) →
  NoDup (links_ s) → NoDup raw →
  Forall (λ d, d < length (links_ s)) raw →
  ∃ h',
    compact_links (merge_sort (≤) raw) s
    = Ok (split_positions (merge_sort (≤) raw) 0 (links_ s)).2
         (set_links (λ _, (split_positions (merge_sort (≤) raw) 0 (links_ s)).1)
            (set_hl (λ _, h') s)) ∧
    (∀ j p, (split_positions (merge_sort (≤) raw) 0 (links_ s)).1 !! j = Some p →
            l_index <$> h' !! p = Some j) ∧
    (∀ q, q ∉ (split_positions (merge_sort (≤) raw) 0 (links_ s)).1 →
          l_index <$> h' !! q = l_index <$> hl s !! q).
Proof.
  intros Hlive Hnd Hraw Hrange.
  destruct (compact_pure_merge_sort (links_ s) raw Hraw Hrange) as (Heq & _).
  cbv zeta in Heq.
  destruct (compact_loop_ok (ND:=ND) (ED:=ED) hl (λ h, set_hl (λ _, h))
              (λ h p, l_index <$> h !! p) link_reset_index) with (old := links_ s) (i := 0)
              (del := merge_sort (≤) raw) (di := 0) (new := @nil ptr)
              (behind := @nil ptr) (s := s)
    as (h' & Hrun & Hidx & Hframe); try done.
  - by intros [].
  - intros s0 p j [i Hi]. destruct (hl s0 !! p) as [x|] eqn:Hx; [|done].
    eexists. split; [prim_run|]. split.
    + by rewrite lookup_insert_eq.
    + intros q Hq. by rewrite lookup_insert_ne.
  - intros p Hp. destruct (Hlive p Hp) as [x ->]. by eexists.
  - intros p Hp. by apply elem_of_nil in Hp.
  - rewrite Heq in Hrun, Hidx, Hframe. exists h'. split; [|done].
    unfold compact_links. rewrite (bind_Ok _ _ s (links_ s) s) by done.
    rewrite (bind_Ok _ _ s _ _ Hrun). reflexivity.
Qed.

(** A compacted vector with the elements left behind destroyed: what stays
    carries its position, what was left behind is gone. *)
Lemma compacted_indexed {A} (idx : A → nat) (old : list ptr) (raw : list nat)
    (h' : gmap ptr A) :
  NoDup old →
  (∀ j p, (split_positions (merge_sort (≤) raw) 0 old).1 !! j = Some p →
          idx <$> h' !! p = Some j) →
  indexed_in idx (split_positions (merge_sort (≤) raw) 0 old).1
    (foldr delete h' (split_positions (merge_sort (≤) raw) 0 old).2) ∧
  (∀ p, p ∈ (split_positions (merge_sort (≤) raw) 0 old).1
        ↔ ∃ j, old !! j = Some p ∧ j ∉ raw) ∧
  (∀ j p, old !! j = Some p → j ∈ raw →
     foldr delete h' (split_positions (merge_sort (≤) raw) 0 old).2 !! p = None).
Proof.
  intros Hnd Hidx.
  assert (∀ j, j ∈ merge_sort (≤) raw ↔ j ∈ raw) as Hperm.
  { intros j. by rewrite merge_sort_Permutation. }
  assert (∀ p, p ∈ (split_positions (merge_sort (≤) raw) 0 old).1
               ↔ ∃ j, old !! j = Some p ∧ j ∉ raw) as Hm1.
  { intros p. destruct (split_positions_members (merge_sort (≤) raw) old 0 p) as [-> _].
    cbn. by setoid_rewrite Hperm. }
  assert (∀ p, p ∈ (split_positions (merge_sort (≤) raw) 0 old).2
               ↔ ∃ j, old !! j = Some p ∧ j ∈ raw) as Hm2.
  { intros p. destruct (split_positions_members (merge_sort (≤) raw) old 0 p) as [_ ->].
    cbn. by setoid_rewrite Hperm. }
  split; [|split; [done|]].
  - intros j p Hp. pose proof (Hidx j p Hp) as Hi.
    apply fmap_Some in Hi as (a & Ha & Hia). exists a. split; [|done].
    rewrite lookup_foldr_delete_not_elem_of; [done|].
    intros Hin. apply Hm2 in Hin as (j2 & Hj2 & Hin2).
    assert (p ∈ (split_positions (merge_sort (≤) raw) 0 old).1) as Hp1
      by by eapply list_elem_of_lookup_2.
    apply Hm1 in Hp1 as (j1 & Hj1 & Hnin1).
    assert (j1 = j2) by by eapply NoDup_lookup. by subst.
  - intros j p Hj Hin. apply lookup_foldr_delete. apply Hm2. eauto.
Qed.

End CompactSplit.

Section SubtreeGone.
Context {ND ED : Type} {PN : Payload ND} {PE : Payload ED}.
Implicit Types s : State ND ED.

(** The second half of [delete_subtree], with what it leaves behind. *)
Lemma delete_subtree_tail_indexed s rawn rawe rawl rlp :
  (∀ p, p ∈ nodes_ s → is_Some (hn s !! p)) → NoDup (nodes_ s) →
  NoDup rawn → Forall (λ d, d < length (nodes_ s)) rawn →
  (∀ p, p ∈ edges_ s → is_Some (he s !! p)) → NoDup (edges_ s) →
  NoDup rawe → Forall (λ d, d < length (edges_ s)) rawe →
  (∀ p, p ∈ links_ s → is_Some (hl s !! p)) → NoDup (links_ s) →
  NoDup rawl → Forall (λ d, d < length (links_ s)) rawl →
  is_Some (hl s !! rlp) →
  ∃ s',
    bind (compact_nodes (merge_sort (≤) rawn)) (λ behind_nodes,
    bind (compact_edges (merge_sort (≤) rawe)) (λ behind_edges,
    bind (compact_links (merge_sort (≤) rawl)) (λ behind_links,
    bind (link_index rlp) (λ ri,
    bind (reset_root_link_index ri) (λ _,
    bind (destroy_links behind_links) (λ _,
    bind (destroy_edges behind_edges) (λ _,
    destroy_nodes behind_nodes))))))) s = Ok tt s' ∧
    nodes_indexed s' ∧ edges_indexed s' ∧ links_indexed s' ∧
    (∀ p, p ∈ nodes_ s' ↔ ∃ j, nodes_ s !! j = Some p ∧ j ∉ rawn) ∧
    (∀ p, p ∈ edges_ s' ↔ ∃ j, edges_ s !! j = Some p ∧ j ∉ rawe) ∧
    (∀ p, p ∈ links_ s' ↔ ∃ j, links_ s !! j = Some p ∧ j ∉ rawl) ∧
    (∀ j p, nodes_ s !! j = Some p → j ∈ rawn → hn s' !! p = None) ∧
    (∀ j p, edges_ s !! j = Some p → j ∈ rawe → he s' !! p = None) ∧
    (∀ j p, links_ s !! j = Some p → j ∈ rawl → hl s' !! p = None).
Proof.
  intros Hln Hnn Hrn Hgn Hle Hne Hre Hge Hll Hnl Hrl Hgl Hrlp.
  destruct (compact_nodes_split s rawn Hln Hnn Hrn Hgn) as (hn' & Hrunn & Hidxn & _).
  rewrite (bind_Ok _ _ _ _ _ Hrunn).
  destruct (compact_edges_split
              (set_nodes (λ _, (split_positions (merge_sort (≤) rawn) 0 (nodes_ s)).1)
                 (set_hn (λ _, hn') s)) rawe Hle Hne Hre Hge)
    as (he' & Hrune & Hidxe & _).
  rewrite (bind_Ok _ _ _ _ _ Hrune).
  destruct (compact_links_split
              (set_edges (λ _, (split_positions (merge_sort (≤) rawe) 0 (edges_ s)).1)
                 (set_he (λ _, he')
                    (set_nodes (λ _, (split_positions (merge_sort (≤) rawn) 0 (nodes_ s)).1)
                       (set_hn (λ _, hn') s)))) rawl Hll Hnl Hrl Hgl)
    as (hl' & Hrunl & Hidxl & Hframel).
  rewrite (bind_Ok _ _ _ _ _ Hrunl).
  cbn [links_ nodes_ edges_ hl hn he set_links set_nodes set_edges set_hl set_hn set_he]
    in *.
  assert (is_Some (hl' !! rlp)) as [rec' Hrec'].
  { destruct (decide (rlp ∈ (split_positions (merge_sort (≤) rawl) 0 (links_ s)).1))
      as [Hin|Hnin].
    - apply list_elem_of_lookup in Hin as [j Hj]. specialize (Hidxl j rlp Hj).
      apply fmap_Some in Hidxl as (a & -> & _). eauto.
    - specialize (Hframel rlp Hnin). destruct Hrlp as [rec Hrec]. rewrite Hrec in Hframel.
      cbn in Hframel. apply fmap_Some in Hframel as (a & -> & _). eauto. }
  destruct (compacted_indexed n_index (nodes_ s) rawn hn' Hnn Hidxn) as (Hin' & Hmn & Hgn').
  destruct (compacted_indexed e_index (edges_ s) rawe he' Hne Hidxe) as (Hie' & Hme & Hge').
  destruct (compacted_indexed l_index (links_ s) rawl hl' Hnl Hidxl) as (Hil' & Hml & Hgl').
  eexists. split.
  { st_simpl. mstep. repeat mstep. reflexivity. }
  cbn [links_ nodes_ edges_ root_link_index_ hl hn he].
  unfold nodes_indexed, edges_indexed, links_indexed.
  cbn [links_ nodes_ edges_ root_link_index_ hl hn he].
  done.
Qed.


(** Positions outside the index list of [ps] are the positions of the
    elements outside [ps]. *)
Lemma index_list_members (vec : list ptr) (f : ptr → nat) (ps : list ptr) p :
  NoDup vec →
  (∀ q, q ∈ ps → vec !! f q = Some q) →
  (∃ j, vec !! j = Some p ∧ j ∉ map f ps) ↔ p ∈ vec ∧ p ∉ ps.
Proof.
  intros Hnd Hmem. split.
  - intros (j & Hj & Hnin). split; [by eapply list_elem_of_lookup_2|].
    intros Hp. apply Hnin. apply list_elem_of_fmap. exists p. split; [|done].
    eapply NoDup_lookup; [done|done|by apply Hmem].
  - intros [Hin Hnp]. apply list_elem_of_lookup in Hin as [j Hj]. exists j.
    split; [done|]. intros Hjin. apply list_elem_of_fmap in Hjin as (q & -> & Hq).
    rewrite (Hmem q Hq) in Hj. congruence.
Qed.

(** The elements met on a visit are stored at their indices. *)
Lemma visit_ok_members s its :
  Forall (visit_ok s) its →
  (∀ p, p ∈ map (node_of s) its → nodes_ s !! node_index_of s p = Some p) ∧
  (∀ p, p ∈ map (edge_of s) its → edges_ s !! edge_index_of s p = Some p) ∧
  (∀ p, p ∈ removed_links s its → links_ s !! link_index_of s p = Some p).
Proof.
  intros Hok. rewrite Forall_forall in Hok. split; [|split].
  - intros p Hp. apply list_elem_of_fmap in Hp as (l & -> & Hl).
    by destruct (Hok l Hl) as (_&_&_&_&_&?&_).
  - intros p Hp. apply list_elem_of_fmap in Hp as (l & -> & Hl).
    by destruct (Hok l Hl) as (_&_&_&_&_&_&_&?&_).
  - intros p Hp. apply list_elem_of_In, in_flat_map in Hp as (l & Hl & Hp).
    apply list_elem_of_In in Hl.
    destruct (Hok l Hl) as (_&?&_&?&_).
    destruct Hp as [<-|[<-|[]]]; done.
Qed.

(** The whole run of [delete_subtree] on a subtree given by its visit, in
    terms of the positions it collects. *)
Lemma delete_subtree_run_raw s start its rl r fuel :
  links_indexed s → nodes_indexed s → edges_indexed s →
  links_ s !! root_link_index_ s = Some rl →
  visits (hl s) [start] its →
  Forall (visit_ok s) its →
  NoDup (map (node_of s) its) →
  NoDup (map (edge_of s) its) →
  NoDup (removed_links s its) →
  ring (hl s) (outer_of s start) r →
  links_ s !! link_index_of s (chain_last (outer_of s start) r)
    = Some (chain_last (outer_of s start) r) →
  is_Some (hn s !! node_of s (chain_last (outer_of s start) r)) →
  length its < fuel →
  length r < fuel →
  ∃ s',
    delete_subtree fuel (mkSubtree start) s = Ok tt s' ∧
    nodes_indexed s' ∧ edges_indexed s' ∧ links_indexed s' ∧
    (∀ p, p ∈ nodes_ s' ↔
       ∃ j, nodes_ s !! j = Some p ∧ j ∉ map (node_index_of s) (map (node_of s) its)) ∧
    (∀ p, p ∈ edges_ s' ↔
       ∃ j, edges_ s !! j = Some p ∧ j ∉ map (edge_index_of s) (map (edge_of s) its)) ∧
    (∀ p, p ∈ links_ s' ↔
       ∃ j, links_ s !! j = Some p ∧ j ∉ map (link_index_of s) (removed_links s its)) ∧
    (∀ j p, nodes_ s !! j = Some p →
       j ∈ map (node_index_of s) (map (node_of s) its) → hn s' !! p = None) ∧
    (∀ j p, edges_ s !! j = Some p →
       j ∈ map (edge_index_of s) (map (edge_of s) its) → he s' !! p = None) ∧
    (∀ j p, links_ s !! j = Some p →
       j ∈ map (link_index_of s) (removed_links s its) → hl s' !! p = None).
Proof.
  intros Hil Hin Hie Hroot Hv Hok Hndn Hnde Hndl Hring Hpredin Hprednode Hf Hfr.
  assert (∃ its', its = start :: its') as [its' Hits].
  { inversion Hv; subst. eauto. }
  assert (visit_ok s start) as Hstart.
  { rewrite Hits in Hok. by apply Forall_cons in Hok as [? _]. }
  destruct Hstart as ([srec Hsrec] & Hsin & [orec Horec] & _).
  destruct (visit_ok_members s its Hok) as (Hmemn & Hmeme & Hmeml).
  destruct (index_list_facts (nodes_ s) (node_index_of s) (map (node_of s) its))
    as (Hrn & Hgn & _); [done|done|].
  destruct (index_list_facts (edges_ s) (edge_index_of s) (map (edge_of s) its))
    as (Hre & Hge & _); [done|done|].
  destruct (index_list_facts (links_ s) (link_index_of s) (removed_links s its))
    as (Hrl & Hgl & Hnotin); [done|done|].
  pose proof (nodes_indexed_NoDup s Hin) as Hnn.
  pose proof (edges_indexed_NoDup s Hie) as Hne.
  pose proof (links_indexed_NoDup s Hil) as Hnl.
  (* the attachment ring *)
  destruct (ring_next _ _ _ Hring) as (arec & Harec & Hchain & Hlast).
  destruct (chain_last_live _ _ _ _ Hring) as (prec & Hprec & Hpnext).
  set (pred := chain_last (outer_of s start) r) in *.
  destruct Hprednode as [pn Hpn].
  unfold outer_of, link_index_of, node_of in Hpredin, Hpn, Harec, Hchain, Hlast, Hpnext.
  rewrite (lookup_total_correct _ _ _ Hsrec) in *.
  rewrite (lookup_total_correct _ _ _ Hprec) in *.
  destruct prec as [pidx pnext pouter pnode pedge].
  cbn [l_index l_next l_outer l_node l_edge] in Hpredin, Hpn, Hpnext. subst pnext.
  unfold link_index_of in Hsin. rewrite (lookup_total_correct _ _ _ Hsrec) in Hsin.
  assert (∃ rlp,
    (if existsb (λ l, is_root_of s (node_of s l)) its
     then bind (link_outer start) (λ o, link_next o) else root_link) s = Ok rlp s ∧
    is_Some (hl s !! rlp)) as (rlp & Hrlp & Hrlplive).
  { destruct (existsb _ its).
    - exists (l_next arec). split; [mstep; by prim_run|]. by eapply chain_first_live.
    - exists rl. split; [by prim_run|].
      destruct (Hil _ _ Hroot) as (? & ? & _). eauto. }
  assert (∃ s2,
    links_ s2 = links_ s ∧ nodes_ s2 = nodes_ s ∧ edges_ s2 = edges_ s ∧
    (∀ p, is_Some (hl s !! p) → is_Some (hl s2 !! p)) ∧
    (∀ p, is_Some (hn s !! p) → is_Some (hn s2 !! p)) ∧
    he s2 = he s ∧
    delete_subtree fuel (mkSubtree start) s =
      bind (compact_nodes (merge_sort (≤) (map (node_index_of s) (map (node_of s) its))))
        (λ behind_nodes,
      bind (compact_edges (merge_sort (≤) (map (edge_index_of s) (map (edge_of s) its))))
        (λ behind_edges,
      bind (compact_links (merge_sort (≤) (map (link_index_of s) (removed_links s its))))
        (λ behind_links,
      bind (link_index rlp) (λ ri,
      bind (reset_root_link_index ri) (λ _,
      bind (destroy_links behind_links) (λ _,
      bind (destroy_edges behind_edges) (λ _,
      destroy_nodes behind_nodes))))))) s2)
    as (s2 & Hl2 & Hn2 & He2 & Hlive2 & Hnlive2 & Hhe2 & Hrun).
  { set (sB := set_hl (insert pred (mkLink pidx (l_next arec) pouter pnode pedge)) s).
    exists (if decide (n_link pn = l_outer srec)
            then set_hn (insert pnode (mkNode (n_index pn) (l_next arec) (n_data pn))) sB
            else sB).
    split; [by case_decide|]. split; [by case_decide|]. split; [by case_decide|].
    split; [|split; [|split; [by case_decide|]]].
    - intros p Hp. case_decide; cbn [hl set_hl set_hn sB];
        (destruct (decide (pred = p)) as [->|];
         [by rewrite lookup_insert_eq|by rewrite lookup_insert_ne]).
    - intros p Hp. case_decide; cbn [hn set_hl set_hn sB]; [|done].
      destruct (decide (pnode = p)) as [->|];
        [by rewrite lookup_insert_eq|by rewrite lookup_insert_ne].
    - unfold delete_subtree. cbn [subtree_link].
      mstep_by ltac:(by apply (belongs_to_link_true s start srec)).
      cbn [negb].
      mstep_by ltac:(
        rewrite (preorder_subtree_visits s collect_subtree start its _ fuel Hv Hf);
        [ by apply collect_subtree_fold
        | intros a l Hl; eexists; apply collect_subtree_ok;
          rewrite Forall_forall in Hok; by apply Hok ]).
      cbn [del_nodes del_edges del_links contains_root app orb].
      rewrite (bind_Ok _ _ s rlp s Hrlp).
      do 2 mstep.
      mstep_by ltac:(apply (ring_pred_chain s _ (tail r));
                     [done|destruct r; cbn in Hfr |- *; lia]).
      rewrite Hlast. repeat mstep.
      rewrite !map_map.
      destruct (decide (n_link pn = l_outer srec)) as [Heq|Hneq].
      + repeat mstep. reflexivity.
      + rewrite (bind_Ok _ _ s tt s) by done.
        repeat mstep. reflexivity. }
  destruct (delete_subtree_tail_indexed s2
              (map (node_index_of s) (map (node_of s) its))
              (map (edge_index_of s) (map (edge_of s) its))
              (map (link_index_of s) (removed_links s its)) rlp)
    as (s' & Htail & Hin' & Hie' & Hil' & Hmn & Hme & Hml & Hgn' & Hge' & Hgl').
  - intros p Hp. apply Hnlive2. rewrite Hn2 in Hp.
    apply list_elem_of_lookup in Hp as [i Hp]. destruct (Hin i p Hp) as (? & ? & _). eauto.
  - by rewrite Hn2.
  - done.
  - by rewrite Hn2.
  - intros p Hp. rewrite Hhe2. rewrite He2 in Hp.
    apply list_elem_of_lookup in Hp as [i Hp]. destruct (Hie i p Hp) as (? & ? & _). eauto.
  - by rewrite He2.
  - done.
  - by rewrite He2.
  - intros p Hp. apply Hlive2. rewrite Hl2 in Hp.
    apply list_elem_of_lookup in Hp as [i Hp]. destruct (Hil i p Hp) as (? & ? & _). eauto.
  - by rewrite Hl2.
  - done.
  - by rewrite Hl2.
  - by apply Hlive2.
  - exists s'. rewrite Hrun. split; [done|].
    rewrite Hn2 in Hmn, Hgn'. rewrite He2 in Hme, Hge'. rewrite Hl2 in Hml, Hgl'.
    done.
Qed.

(** X15.  [delete_subtree], on the trees of C4: afterwards stored indices
    equal positions in all three vectors; the vectors hold what they held
    before except the visited nodes, their edges, and the visited links with
    their outer links; and those elements are destroyed. *)
Theorem delete_subtree_keeps_indices s start its rl r fuel :
  links_indexed s → nodes_indexed s → edges_indexed s →
  links_ s !! root_link_index_ s = Some rl →
  visits (hl s) [start] its →
  Forall (visit_ok s) its →
  NoDup (map (node_of s) its) →
  NoDup (map (edge_of s) its) →
  NoDup (removed_links s its) →
  ring (hl s) (outer_of s start) r →
  links_ s !! link_index_of s (chain_last (outer_of s start) r)
    = Some (chain_last (outer_of s start) r) →
  is_Some (hn s !! node_of s (chain_last (outer_of s start) r)) →
  length its < fuel →
  length r < fuel →
  ∃ s',
    delete_subtree fuel (mkSubtree start) s = Ok tt s' ∧
    links_indexed s' ∧ nodes_indexed s' ∧ edges_indexed s' ∧
    (∀ p, p ∈ nodes_ s' ↔ p ∈ nodes_ s ∧ p ∉ map (node_of s) its) ∧
    (∀ p, p ∈ edges_ s' ↔ p ∈ edges_ s ∧ p ∉ map (edge_of s) its) ∧
    (∀ p, p ∈ links_ s' ↔ p ∈ links_ s ∧ p ∉ removed_links s its) ∧
    (∀ p, p ∈ map (node_of s) its → hn s' !! p = None) ∧
    (∀ p, p ∈ map (edge_of s) its → he s' !! p = None) ∧
    (∀ p, p ∈ removed_links s its → hl s' !! p = None).
Proof.
  intros Hil Hin Hie Hroot Hv Hok Hndn Hnde Hndl Hring Hpredin Hprednode Hf Hfr.
  destruct (visit_ok_members s its Hok) as (Hmemn & Hmeme & Hmeml).
  pose proof (nodes_indexed_NoDup s Hin) as Hnn.
  pose proof (edges_indexed_NoDup s Hie) as Hne.
  pose proof (links_indexed_NoDup s Hil) as Hnl.
  destruct (delete_subtree_run_raw s start its rl r fuel)
    as (s' & Hrun & Hin' & Hie' & Hil' & Hmn & Hme & Hml & Hgn' & Hge' & Hgl');
    [done..|].
  exists s'. split; [done|].
  do 3 (split; [done|]).
  split; [intros p; rewrite Hmn; by apply index_list_members|].
  split; [intros p; rewrite Hme; by apply index_list_members|].
  split; [intros p; rewrite Hml; by apply index_list_members|].
  split; [|split].
  - intros p Hp. apply (Hgn' (node_index_of s p)); [by apply Hmemn|].
    apply list_elem_of_fmap. by exists p.
  - intros p Hp. apply (Hge' (edge_index_of s p)); [by apply Hmeme|].
    apply list_elem_of_fmap. by exists p.
  - intros p Hp. apply (Hgl' (link_index_of s p)); [by apply Hmeml|].
    apply list_elem_of_fmap. by exists p.
Qed.

End SubtreeGone.

(** ** [delete_node] on a node of degree three or more *)

Section DeleteInner.
Context {ND ED : Type} {PN : Payload ND} {PE : Payload ED}.
Implicit Types s : State ND ED.

(** Every link on the stack of the pre-order iterator gets visited. *)
Lemma visits_stack_visited (h : gmap ptr TreeLink) st its :
  visits h st its → ∀ l, l ∈ st → l ∈ its.
Proof.
  induction 1 as [|l st r os its Hring Hos Hv IH]; intros l' Hl'.
  - by apply elem_of_nil in Hl'.
  - apply elem_of_cons in Hl' as [->|Hl']; [by left|right].
    apply IH, elem_of_app. by right.
Qed.

(** The visit that starts at a link of a node goes through the far end of
    every other link of that node. *)
Lemma visits_children s l rest its :
  visits (hl s) [l] its → ring (hl s) l rest →
  ∀ c, c ∈ rest → outer_of s c ∈ its.
Proof.
  intros Hv Hring c Hc.
  inversion Hv as [|l0 st r os its' Hring' Hos Hv']; subst.
  assert (r = rest) as -> by (by eapply chain_det).
  apply list_elem_of_lookup in Hc as [i Hi].
  destruct (Forall2_lookup_l _ _ _ _ _ Hos Hi) as (o & Ho & (lc & Hlc & Hout)).
  right. apply (visits_stack_visited _ _ _ Hv').
  apply elem_of_app. left.
  unfold outer_of. rewrite (lookup_total_correct _ _ _ Hlc), Hout.
  by eapply list_elem_of_lookup_2.
Qed.

(** C1.  For every node [n] of the tree, [delete_node] dispatches on the
    degree of [n] alone: degree 1 runs [delete_leaf_node], degree 2 runs
    [delete_linear_node] (without callback), and any degree from 3 on runs
    [delete_subtree] on the subtree view at the primary link of [n].  That
    view is [n] and everything reached from [n] without crossing the edge at
    its primary link; [its] is its pre-order visit.  For a node [n] that is
    not the root node the primary link faces the root, so the view is [n]
    and everything on its non-root side, and all of it is deleted: the nodes
    that remain are the nodes outside the view, likewise the edges and the
    links; [n] is gone, and so is the neighbour across every link of [n]
    other than its primary link, which a splice of the single node would have
    kept; what remains is indexed again. *)
Theorem delete_node_dispatch s n x rest fuel :
  hn s !! n = Some x →
  nodes_ s !! n_index x = Some n →
  ring (hl s) (n_link x) rest →
  length rest < fuel →
  let deg := S (length rest) in
  degree fuel n s = Ok deg s ∧
  (deg = 1 → delete_node fuel n s = delete_leaf_node fuel n s) ∧
  (deg = 2 → delete_node fuel n s = delete_linear_node fuel n None s) ∧
  (3 ≤ deg →
   delete_node fuel n s = delete_subtree fuel (mkSubtree (n_link x)) s ∧
   ∀ its rl r,
     is_root_of s n = false →
     node_of s (n_link x) = n →
     links_indexed s → nodes_indexed s → edges_indexed s →
     links_ s !! root_link_index_ s = Some rl →
     visits (hl s) [n_link x] its →
     Forall (visit_ok s) its →
     NoDup (map (node_of s) its) →
     NoDup (map (edge_of s) its) →
     NoDup (removed_links s its) →
     ring (hl s) (outer_of s (n_link x)) r →
     links_ s !! link_index_of s (chain_last (outer_of s (n_link x)) r)
       = Some (chain_last (outer_of s (n_link x)) r) →
     is_Some (hn s !! node_of s (chain_last (outer_of s (n_link x)) r)) →
     length its < fuel →
     length r < fuel →
     ∃ s',
       delete_node fuel n s = Ok tt s' ∧
       (∀ p, p ∈ nodes_ s' ↔ p ∈ nodes_ s ∧ p ∉ map (node_of s) its) ∧
       (∀ p, p ∈ edges_ s' ↔ p ∈ edges_ s ∧ p ∉ map (edge_of s) its) ∧
       (∀ p, p ∈ links_ s' ↔ p ∈ links_ s ∧ p ∉ removed_links s its) ∧
       n ∉ nodes_ s' ∧ hn s' !! n = None ∧
       Forall (λ c, node_of s (outer_of s c) ∉ nodes_ s' ∧
                    hn s' !! node_of s (outer_of s c) = None) rest ∧
       links_indexed s' ∧ nodes_indexed s' ∧ edges_indexed s').
Proof.
  intros Hn Hb Hr Hf deg.
  destruct (delete_node_by_degree s n x rest fuel Hn Hb Hr Hf) as (Hdeg & H1 & H2 & H3).
  split; [exact Hdeg|]. split; [exact H1|]. split; [exact H2|].
  intros Hk. split; [by apply H3|].
  intros its rl r _ Hnode Hil Hin Hie Hroot Hv Hok Hndn Hnde Hndl Hring Hpredin Hprednode
    Hfi Hfr.
  destruct (visit_ok_members s its Hok) as (Hmemn & Hmeme & Hmeml).
  pose proof (nodes_indexed_NoDup s Hin) as Hnn.
  pose proof (edges_indexed_NoDup s Hie) as Hne.
  pose proof (links_indexed_NoDup s Hil) as Hnl.
  destruct (delete_subtree_run_raw s (n_link x) its rl r fuel)
    as (s' & Hrun & Hin' & Hie' & Hil' & Hmn & Hme & Hml & Hgn' & _);
    [done..|].
  assert (∀ p, p ∈ nodes_ s' ↔ p ∈ nodes_ s ∧ p ∉ map (node_of s) its) as Hnodes.
  { intros p. rewrite Hmn. by apply index_list_members. }
  assert (∀ p, p ∈ map (node_of s) its → p ∉ nodes_ s' ∧ hn s' !! p = None) as Hgone.
  { intros p Hp. split.
    - rewrite Hnodes. by intros [_ ?].
    - apply (Hgn' (node_index_of s p)); [by apply Hmemn|].
      apply list_elem_of_fmap. by exists p. }
  assert (n_link x ∈ its) as Hstart.
  { inversion Hv; subst. by left. }
  exists s'. split; [by rewrite (H3 Hk)|].
  split; [exact Hnodes|].
  split; [intros p; rewrite Hme; by apply index_list_members|].
  split; [intros p; rewrite Hml; by apply index_list_members|].
  assert (n ∈ map (node_of s) its) as Hnin.
  { rewrite <- Hnode. apply list_elem_of_fmap. by exists (n_link x). }
  split; [by apply Hgone|]. split; [by apply Hgone|].
  split; [|done].
  apply Forall_forall. intros c Hc. apply Hgone.
  apply list_elem_of_fmap. exists (outer_of s c). split; [done|].
  by apply (visits_children s (n_link x) rest).
Qed.

End DeleteInner.

(** ** The properties at concrete trees *)

Ltac by_eval := vm_compute; first [reflexivity | done | lia].
Ltac by_decide := apply (bool_decide_unpack _); vm_compute; exact I.
Ltac live_eval := eexists; vm_compute; reflexivity.

(** An indexed vector of a concrete tree, position by position. *)
Ltac solve_indexed :=
  let i := fresh "i" in let p := fresh "p" in let Hp := fresh "Hp" in
  intros i p Hp;
  do 12 (destruct i as [|i];
         [vm_compute in Hp;
          first [discriminate Hp
                |injection Hp as <-; eexists; split; vm_compute; reflexivity]|]);
  vm_compute in Hp; discriminate Hp.
Ltac solve_chain :=
  repeat first
    [ by_eval
    | split
    | eexists ].

Lemma delete_node_dispatch_witness :
  ∃ s',
    delete_node 10 2 tree5_at_b = Ok tt s' ∧
    nodes_ tree5_at_b = [1; 2; 3; 4; 5] ∧
    2 ∉ nodes_ s' ∧ 4 ∉ nodes_ s' ∧ 5 ∉ nodes_ s' ∧
    1 ∈ nodes_ s' ∧ 3 ∈ nodes_ s'.
Proof.
  destruct (delete_node_dispatch tree5_at_b 2 (mkNode 1 3 (Some 11)) [4; 5] 10)
    as (_ & _ & _ & Hsub).
  - by_eval.
  - by_eval.
  - unfold ring. cbn [chain]. solve_chain.
  - cbn. lia.
  - destruct Hsub as [_ Hall]; [cbn; lia|].
    destruct (Hall [3; 7; 8] 2 [2])
      as (s' & Hrun & Hnodes & _ & _ & Hn & _ & Hrest & _).
    + by_eval.
    + by_eval.
    + solve_indexed.
    + solve_indexed.
    + solve_indexed.
    + by_eval.
    + apply (visits_cons _ 3 [] [4; 5] [7; 8]).
      * unfold ring. cbn [chain]. solve_chain.
      * repeat (constructor; [eexists; split; vm_compute; reflexivity|]).
        constructor.
      * apply (visits_cons _ 7 [8] [] []).
        -- unfold ring. cbn [chain]. solve_chain.
        -- constructor.
        -- apply (visits_cons _ 8 [] [] []).
           ++ unfold ring. cbn [chain]. solve_chain.
           ++ constructor.
           ++ constructor.
    + repeat constructor; first [live_eval | by_eval].
    + by_decide.
    + by_decide.
    + by_decide.
    + unfold ring. cbn [chain]. solve_chain.
    + by_eval.
    + live_eval.
    + cbn. lia.
    + cbn. lia.
    + exists s'. split; [exact Hrun|]. split; [reflexivity|].
      split; [exact Hn|].
      apply Forall_cons in Hrest as [[HC _] Hrest].
      apply Forall_cons in Hrest as [[HD _] _].
      split; [exact HC|]. split; [exact HD|].
      split; apply Hnodes; (split; [clear; by_decide|clear; by_decide]).
Defined.

(** At the root node the primary link faces the first child, and the
    subtree view at it leaves that child's side out: [delete_node] at the
    root [R] of [tree_tri], a node of degree three, removes [R], [B] and [E]
    and keeps [A], [C] and [D], with [A] as the new root. *)
Lemma delete_node_root_keeps_first_child :
  ∃ s',
    bind root_node ret tree_tri = Ok 1 tree_tri ∧
    degree 10 1 tree_tri = Ok 3 tree_tri ∧
    delete_node 10 1 tree_tri = Ok tt s' ∧
    nodes_ tree_tri = [1; 2; 3; 4; 5; 6] ∧
    nodes_ s' = [2; 5; 6] ∧
    bind root_node ret s' = Ok 2 s'.
Proof.
  eexists. split; [vm_compute; reflexivity|]. split; [vm_compute; reflexivity|].
  split; [vm_compute; reflexivity|]. repeat split; vm_compute; reflexivity.
Qed.

Lemma precondition_failure_keeps_tree_witness :
  (∃ msg, delete_node 10 100 (with_stray_elements tree5) = Throw msg (with_stray_elements tree5)) ∧
  (∃ msg, delete_leaf_node 10 2 tree5 = Throw msg tree5).
Proof.
  pose proof (precondition_failure_keeps_tree tree5) as (_ & _ & _ & _ & _ & _ & _ & _ & Hleaf & _).
  pose proof (precondition_failure_keeps_tree (with_stray_elements tree5)) as (_ & _ & Hnode & _).
  split.
  - apply Hnode. exists (mkNode 0 100 None). split; by_eval.
  - apply (Hleaf 10 2 [4; 5]).
    + exists (mkNode 1 3 (Some 11)). split; [by_eval|]. split; [by_eval|].
      unfold ring. cbn [chain]. solve_chain.
    + cbn. lia.
    + cbn. lia.
Defined.

Lemma add_new_node_edge_split_witness :
  ∃ s1 pri_link mid_node,
    he s1 !! 1 = Some (mkEdge 0 1 pri_link (Some 20)) ∧
    add_new_node_edge 1 None path3 = Ok mid_node s1.
Proof.
  destruct (add_new_node_edge_split path3 1 (mkEdge 0 1 2 (Some 20))
              (mkLink 0 1 2 1 1) (mkLink 1 3 1 2 1) 20 (mkNode 0 1 (Some 10)) 10 None)
    as (s1 & pri & sec & mid & ne & _ & _ & _ & _ & _ & _ & _ & He & Hrun);
    [by_eval..|].
  exists s1, pri, mid. split; [exact He | exact Hrun].
Defined.

Lemma add_new_node_needs_payload_witness :
  add_new_node 10 2 path3_bare = Fault ∧
  add_new_node_edge 1 None path3_bare = Fault.
Proof.
  pose proof (add_new_node_needs_payload path3_bare) as [Hnode Hedge].
  split.
  - apply (Hnode 10 2 (mkNode 1 2 None) [3] (mkLink 1 3 1 2 1) (mkEdge 0 1 2 None));
      try by_eval.
    + unfold ring. cbn [chain]. solve_chain.
    + by left.
  - apply (Hedge 1 (mkEdge 0 1 2 None) (mkLink 0 1 2 1 1) (mkLink 1 3 1 2 1)
             (mkNode 0 1 None) None); try by_eval.
    by left.
Defined.

Lemma reroot_roundtrip_witness :
  ∃ s1, reroot 10 7 tree5 = Ok tt s1 ∧ reroot 10 1 s1 = Ok tt tree5.
Proof.
  destruct (reroot_roundtrip tree5 7 (mkLink 6 7 4 4 3) 1 (mkLink 0 2 3 1 1)
              (mkNode 3 7 (Some 13)) (mkNode 0 1 (Some 10))
              [mkHop 4 7 3 4 2; mkHop 2 3 1 1 1] 10)
    as (s1 & s2 & H1 & _ & H2 & _ & _ & ->).
  1-8: by_eval.
  - split; [cbn; done|]. split.
    + repeat constructor; do 2 eexists; repeat split; try by_eval; by eexists.
    + repeat constructor; eexists; split; by_eval.
  - by_decide.
  - cbn. lia.
  - exists s1. split; [exact H1|exact H2].
Defined.

Lemma delete_subtree_counts_witness :
  ∃ s', delete_subtree 10 (mkSubtree 3) tree5_at_b = Ok tt s' ∧
        length (nodes_ s') + 3 = 5 ∧
        length (edges_ s') + 3 = 4 ∧
        length (links_ s') + 6 = 8 ∧
        links_ tree5_at_b !! root_link_index_ tree5_at_b = Some 2 ∧
        links_ s' !! root_link_index_ s' = Some 2.
Proof.
  destruct (delete_subtree_counts tree5_at_b 3 [3; 7; 8] 2 [2] 10)
    as (s' & Hrun & Hn & He & Hl & Hroot).
  - solve_indexed.
  - solve_indexed.
  - solve_indexed.
  - by_eval.
  - apply (visits_cons _ 3 [] [4; 5] [7; 8]).
    + unfold ring. cbn [chain]. solve_chain.
    + repeat (constructor; [eexists; split; vm_compute; reflexivity|]).
      constructor.
    + apply (visits_cons _ 7 [8] [] []).
      * unfold ring. cbn [chain]. solve_chain.
      * constructor.
      * apply (visits_cons _ 8 [] [] []).
        -- unfold ring. cbn [chain]. solve_chain.
        -- constructor.
        -- constructor.
  - repeat constructor; first [live_eval | by_eval].
  - by_decide.
  - by_decide.
  - by_decide.
  - unfold ring. cbn [chain]. solve_chain.
  - by_eval.
  - live_eval.
  - cbn. lia.
  - cbn. lia.
  - exists s'. repeat split; try done.
    apply Hroot.
    + by_decide.
    + repeat constructor.
Defined.

(** The stored index of the root link is not refreshed when the root link
    itself is the attachment link of the deleted subtree: the root node [R]
    stays, but the root link index ends up at a link of the node [A]. *)
Lemma delete_subtree_root_link_lost :
  ∃ s', delete_subtree 10 (mkSubtree 6) tree5_at_b = Ok tt s' ∧
        (* the root node is not removed *)
        (bind root_node node_index tree5_at_b = Ok 0 tree5_at_b ∧ 1 ∈ nodes_ s') ∧
        (* the root link before and after *)
        links_ tree5_at_b !! root_link_index_ tree5_at_b = Some 2 ∧
        links_ s' !! root_link_index_ s' = Some 3 ∧
        bind root_node ret s' = Ok 2 s'.
Proof.
  eexists. split; [vm_compute; reflexivity|].
  repeat split; try by_eval. by_decide.
Qed.

Lemma ladderize_sorts_rings_witness :
  ∃ s', ladderize (λ _, tree6_sizes) 10 kSmallFirst tree6 = Ok tt s' ∧
        ring (hl tree6) 3 [4; 5] ∧ ring (hl s') 3 [5; 4].
Proof.
  destruct (ladderize_sorts_rings (λ _, tree6_sizes) 10 kSmallFirst tree6
              [(1, [2]); (3, [4; 5]); (6, []); (7, [9]); (8, []); (10, [])])
    as (s' & Hrun & _).
  - by_decide.
  - repeat constructor.
    all: eexists; split; [by_eval|]; split; [by_eval|]; split;
      [unfold ring; cbn [chain fst snd]; solve_chain|]; split;
      [repeat constructor; by_eval|]; split; [|cbn; lia].
    all: repeat constructor; live_eval.
  - exists s'. split; [exact Hrun|].
    vm_compute in Hrun. injection Hrun as <-.
    split; unfold ring; cbn [chain]; solve_chain.
Defined.

(** ** Insertion, deletion and rerooting at concrete trees *)

Lemma add_new_node_attaches_leaf_witness :
  ∃ s1 end_node con_link end_link,
    add_new_node 10 2 tree5 = Ok end_node s1 ∧
    ring (hl tree5) 3 [4; 5] ∧
    ring (hl s1) 3 [4; 5; con_link] ∧
    ring (hl s1) end_link [].
Proof.
  destruct (add_new_node_attaches_leaf tree5 2 (mkNode 1 3 (Some 11)) [4; 5]
              (mkLink 2 4 1 2 1) (mkEdge 0 1 3 (Some 20)) 11 20 10)
    as (s1 & en & cl & el & ce & Hrun & _ & _ & Hleaf & Hring & _).
  - by_eval.
  - by_eval.
  - unfold ring. cbn [chain]. solve_chain.
  - cbn. lia.
  - by_eval.
  - by_eval.
  - by_eval.
  - by_eval.
  - exists s1, en, cl, el. split; [exact Hrun|].
    split; [clear; unfold ring; cbn [chain]; solve_chain|].
    split; [exact Hring|exact Hleaf].
Defined.

Lemma add_new_node_keeps_indices_witness :
  ∃ s1 end_node,
    add_new_node 10 2 tree5 = Ok end_node s1 ∧
    length (nodes_ s1) = 6 ∧
    links_indexed s1 ∧ nodes_indexed s1 ∧ edges_indexed s1.
Proof.
  destruct (add_new_node_keeps_indices tree5 2 (mkNode 1 3 (Some 11)) [4; 5]
              (mkLink 2 4 1 2 1) (mkEdge 0 1 3 (Some 20)) 11 20 10)
    as (s1 & en & cl & el & ce & Hrun & _ & Hn & _ & _ & Hil & Hin & Hie & _).
  - solve_indexed.
  - solve_indexed.
  - solve_indexed.
  - by_eval.
  - by_eval.
  - unfold ring. cbn [chain]. solve_chain.
  - cbn. lia.
  - by_eval.
  - by_eval.
  - by_eval.
  - by_eval.
  - exists s1, en. split; [exact Hrun|]. split; [rewrite Hn; reflexivity|].
    exact (conj Hil (conj Hin Hie)).
Defined.

Lemma add_new_node_then_delete_leaf_witness :
  ∃ s1 end_node,
    add_new_node 10 2 tree5 = Ok end_node s1 ∧
    delete_leaf_node 10 end_node s1 = Ok tt tree5.
Proof.
  apply (add_new_node_then_delete_leaf tree5 2 (mkNode 1 3 (Some 11)) [4; 5]
           (mkLink 2 4 1 2 1) (mkEdge 0 1 3 (Some 20)) 11 20
           1 (mkLink 0 2 3 1 1) (mkNode 0 1 (Some 10)) 10).
  - by_eval.
  - by_eval.
  - unfold ring. cbn [chain]. solve_chain.
  - cbn. lia.
  - by_eval.
  - by_eval.
  - by_eval.
  - by_eval.
  - by_eval.
  - by_eval.
  - by_eval.
  - by_eval.
  - cbn. lia.
Defined.

Lemma add_new_node_edge_then_delete_linear_witness :
  ∃ s1 mid_node,
    add_new_node_edge 3 None tree5 = Ok mid_node s1 ∧
    delete_linear_node 10 mid_node None s1 = Ok tt tree5.
Proof.
  apply (add_new_node_edge_then_delete_linear tree5 3 (mkEdge 2 4 7 (Some 22))
           (mkLink 3 5 7 2 3) (mkLink 6 7 4 4 3) 22 (mkNode 1 3 (Some 11)) 11
           1 (mkLink 0 2 3 1 1) (mkNode 0 1 (Some 10)) 10).
  all: try by_eval.
  all: cbn; lia.
Defined.

Lemma add_new_node_edge_keeps_indices_witness :
  ∃ s1 mid_node pri_link sec_link,
    add_new_node_edge 3 None tree5 = Ok mid_node s1 ∧
    length (links_ s1) = 10 ∧
    links_indexed s1 ∧ nodes_indexed s1 ∧ edges_indexed s1 ∧
    ring (hl s1) pri_link [sec_link].
Proof.
  destruct (add_new_node_edge_keeps_indices tree5 3 (mkEdge 2 4 7 (Some 22))
              (mkLink 3 5 7 2 3) (mkLink 6 7 4 4 3) 22 (mkNode 1 3 (Some 11)) 11)
    as (s1 & mid & pl & sl & se & Hrun & Hl & _ & _ & _ & Hil & Hin & Hie & _ & Hring & _).
  - solve_indexed.
  - solve_indexed.
  - solve_indexed.
  - by_eval.
  - by_eval.
  - by_eval.
  - by_eval.
  - by_eval.
  - by_eval.
  - by_eval.
  - by_eval.
  - exists s1, mid, pl, sl. split; [exact Hrun|]. split; [rewrite Hl; reflexivity|].
    exact (conj Hil (conj Hin (conj Hie Hring))).
Defined.

Lemma add_new_leaf_node_hangs_leaf_witness :
  ∃ s2 mid_node pri_link sec_link leaf con_link,
    add_new_leaf_node 10 3 None tree5 = Ok leaf s2 ∧
    nodes_ s2 = [1; 2; 3; 4; 5; mid_node; leaf] ∧
    ring (hl s2) pri_link [sec_link; con_link] ∧
    outer_is (hl s2) pri_link 4 ∧
    outer_is (hl s2) sec_link 7.
Proof.
  destruct (add_new_leaf_node_hangs_leaf tree5 3 (mkEdge 2 4 7 (Some 22))
              (mkLink 3 5 7 2 3) (mkLink 6 7 4 4 3) 22 (mkNode 1 3 (Some 11)) 11 10)
    as (s2 & mid & pl & sl & leaf & cl & el & ce & Hrun & Hn & _ & _ & _ & Hring & Ho1 & Ho2 & _).
  - by_eval.
  - by_eval.
  - by_eval.
  - by_eval.
  - by_eval.
  - by_eval.
  - by_eval.
  - by_eval.
  - lia.
  - exists s2, mid, pl, sl, leaf, cl. split; [exact Hrun|].
    split; [exact Hn|]. split; [exact Hring|]. split; [exact Ho1|exact Ho2].
Defined.

Lemma reroot_reorients_path_witness :
  ∃ s1,
    reroot 10 7 tree5 = Ok tt s1 ∧
    links_ s1 !! root_link_index_ s1 = Some 7 ∧
    hl s1 = hl tree5 ∧
    hn s1 !! 4 = Some (mkNode 3 7 (Some 13)).
Proof.
  destruct (reroot_reorients_path tree5 7 (mkLink 6 7 4 4 3) 1 (mkLink 0 2 3 1 1)
              (mkNode 3 7 (Some 13)) (mkNode 0 1 (Some 10)) (mkLink 0 2 3 1 1)
              [mkHop 4 7 3 4 2; mkHop 2 3 1 1 1] 10)
    as (s1 & Hrun & _ & _ & _ & Hhl & Hroot & Hnode & _).
  1-8: by_eval.
  - split; [cbn; done|]. split.
    + repeat constructor; do 2 eexists; repeat split; try by_eval; by eexists.
    + repeat constructor; eexists; split; by_eval.
  - by_decide.
  - by_decide.
  - cbn. lia.
  - exists s1. split; [exact Hrun|]. split; [exact Hroot|]. split; [exact Hhl|exact Hnode].
Defined.

Lemma reroot_within_root_node_witness :
  reroot 10 2 tree5
    = Ok tt (set_root 1 (set_hn (insert 1 (mkNode 0 2 (Some 10))) tree5)) ∧
  reroot 10 1 tree5 = Ok tt tree5.
Proof.
  split.
  - apply (reroot_within_root_node tree5 2 (mkLink 1 1 6 1 2) 1 (mkLink 0 2 3 1 1)
             (mkNode 0 1 (Some 10)) (mkLink 0 2 3 1 1) 10); by_eval.
  - apply (reroot_within_root_node tree5 1 (mkLink 0 2 3 1 1) 1 (mkLink 0 2 3 1 1)
             (mkNode 0 1 (Some 10)) (mkLink 0 2 3 1 1) 10); by_eval.
Defined.

Lemma reroot_at_node_bounds_witness :
  (∃ msg, reroot_at_node 10 7 tree5 = Throw msg tree5) ∧
  reroot_at_node 10 3 tree5 = reroot 10 7 tree5.
Proof.
  split.
  - apply (reroot_at_node_bounds tree5 10 7). cbn. lia.
  - apply (proj2 (reroot_at_node_bounds tree5 10 3) 4 (mkNode 3 7 (Some 13))); by_eval.
Defined.

Lemma add_root_node_roots_at_mid_witness :
  ∃ s2 mid_node pri_link,
    add_root_node 10 3 tree5 = Ok mid_node s2 ∧
    nodes_ s2 = [1; 2; 3; 4; 5; mid_node] ∧
    links_ s2 !! root_link_index_ s2 = Some pri_link ∧
    l_node <$> hl s2 !! pri_link = Some mid_node ∧
    he s2 !! 3 = Some (mkEdge 2 pri_link 4 (Some 22)).
Proof.
  destruct (add_root_node_roots_at_mid tree5 3 (mkEdge 2 4 7 (Some 22))
              (mkLink 3 5 7 2 3) (mkLink 6 7 4 4 3) 22 (mkNode 1 3 (Some 11)) 11
              1 (mkLink 0 2 3 1 1) (mkNode 0 1 (Some 10)) (mkLink 0 2 3 1 1)
              [mkHop 2 3 1 1 1] 10)
    as (s2 & mid & pl & Hrun & _ & _ & Hn & Hroot & Hpl & _ & He & _).
  1-15: by_eval.
  - split; [cbn; done|]. split.
    + repeat constructor; do 2 eexists; repeat split; try by_eval; by eexists.
    + repeat constructor; eexists; split; by_eval.
  - by_decide.
  - repeat constructor. by_eval.
  - cbn. lia.
  - exists s2, mid, pl. split; [exact Hrun|]. split; [exact Hn|].
    split; [exact Hroot|]. split; [exact Hpl|exact He].
Defined.

Lemma delete_leaf_node_removes_leaf_witness :
  ∃ s',
    delete_leaf_node 10 4 tree5 = Ok tt s' ∧
    links_indexed s' ∧ nodes_indexed s' ∧ edges_indexed s' ∧
    links_ s' !! root_link_index_ s' = Some 1 ∧
    hn s' !! 4 = None ∧
    ring (hl tree5) 4 [5; 3] ∧
    ring (hl s') 5 [3].
Proof.
  destruct (delete_leaf_node_removes_leaf tree5 4 (mkNode 3 7 (Some 13))
              (mkLink 6 7 4 4 3) (mkLink 3 5 7 2 3) (mkEdge 2 4 7 (Some 22)) [5; 3]
              1 (mkLink 0 2 3 1 1) (mkNode 0 1 (Some 10)) 10)
    as (s' & Hrun & _ & _ & _ & Hil & Hin & Hie & Hroot & Hgone & _ & _ & _ & _ & _ & _ & Hring).
  - solve_indexed.
  - solve_indexed.
  - solve_indexed.
  - by_eval.
  - by_eval.
  - by_eval.
  - by_eval.
  - by_eval.
  - by_eval.
  - by_eval.
  - by_eval.
  - by_eval.
  - by_eval.
  - by_eval.
  - unfold ring. cbn [chain]. solve_chain.
  - by_eval.
  - by_eval.
  - by_eval.
  - by_eval.
  - by_eval.
  - by_eval.
  - cbn. lia.
  - exists s'. split; [exact Hrun|].
    split; [exact Hil|]. split; [exact Hin|]. split; [exact Hie|].
    split; [exact Hroot|]. split; [exact Hgone|].
    split; [clear; unfold ring; cbn [chain]; solve_chain|].
    apply Hring. reflexivity.
Defined.

Lemma delete_leaf_node_at_root_edge_faults_witness :
  delete_leaf_node 10 1 path3 = Fault.
Proof.
  apply (delete_leaf_node_at_root_edge_faults path3 1 (mkNode 0 1 (Some 10))
           (mkLink 0 1 2 1 1) (mkLink 1 3 1 2 1) (mkEdge 0 1 2 (Some 20)) [3]
           1 (mkLink 0 1 2 1 1) (mkNode 0 1 (Some 10)) 10).
  - solve_indexed.
  - solve_indexed.
  - solve_indexed.
  - by_eval.
  - by_eval.
  - by_eval.
  - by_eval.
  - by_eval.
  - by_eval.
  - by_eval.
  - by_eval.
  - by_eval.
  - by_eval.
  - by_eval.
  - unfold ring. cbn [chain]. solve_chain.
  - by_eval.
  - by_eval.
  - by_eval.
  - cbn. lia.
  - left. by_eval.
Defined.

Lemma delete_linear_node_joins_neighbours_witness :
  ∃ s',
    delete_linear_node 10 2 None path3 = Ok tt s' ∧
    links_indexed s' ∧ nodes_indexed s' ∧ edges_indexed s' ∧
    links_ s' !! root_link_index_ s' = Some 1 ∧
    outer_is (hl s') 1 4 ∧ outer_is (hl s') 4 1 ∧
    e_link_p <$> he s' !! 1 = Some 1 ∧ e_link_s <$> he s' !! 1 = Some 4.
Proof.
  destruct (delete_linear_node_joins_neighbours path3 2 (mkNode 1 2 (Some 11))
              (mkLink 1 3 1 2 1) (mkLink 2 2 4 2 2) (mkLink 0 1 2 1 1) (mkLink 3 4 3 3 2)
              (mkEdge 0 1 2 (Some 20)) (mkEdge 1 3 4 (Some 21))
              1 (mkLink 0 1 2 1 1) (mkNode 0 1 (Some 10)) 10)
    as (s' & Hrun & _ & _ & _ & Hil & Hin & Hie & Hroot & _ & _ & _ & _ & _ & _ & _
        & Ho1 & Ho2 & _ & _ & Hep & Hes & _).
  - solve_indexed.
  - solve_indexed.
  - solve_indexed.
  - by_eval.
  - by_eval.
  - by_eval.
  - by_eval.
  - by_eval.
  - by_eval.
  - by_eval.
  - by_eval.
  - by_eval.
  - by_eval.
  - by_eval.
  - by_eval.
  - by_eval.
  - by_eval.
  - by_eval.
  - by_eval.
  - by_eval.
  - by_eval.
  - by_eval.
  - by_eval.
  - by_eval.
  - by_eval.
  - by_eval.
  - by_eval.
  - by_eval.
  - by_eval.
  - by_eval.
  - by_eval.
  - by_eval.
  - by_eval.
  - by_eval.
  - by_eval.
  - by_eval.
  - lia.
  - exists s'. split; [exact Hrun|].
    split; [exact Hil|]. split; [exact Hin|]. split; [exact Hie|].
    split; [exact Hroot|]. split; [exact Ho1|]. split; [exact Ho2|].
    split; [exact Hep|exact Hes].
Defined.

Lemma delete_linear_node_callback_witness :
  (∃ msg, delete_linear_node 10 2 (Some (λ _ _, throw "stop")) path3 = Throw msg path3) ∧
  delete_linear_node 10 2 (Some (λ _ _, ret tt)) path3 = delete_linear_node 10 2 None path3.
Proof.
  split.
  - exists "stop"%string.
    apply (proj1 (delete_linear_node_callback path3 2 (mkNode 1 2 (Some 11)) 3
                    (mkLink 1 3 1 2 1) (mkLink 2 2 4 2 2) (λ _ _, throw "stop") 10
                    ltac:(by_eval) ltac:(by_eval)
                    ltac:(unfold ring; cbn [chain]; solve_chain)
                    ltac:(by_eval) ltac:(by_eval) ltac:(lia))).
    reflexivity.
  - apply (proj2 (delete_linear_node_callback path3 2 (mkNode 1 2 (Some 11)) 3
                    (mkLink 1 3 1 2 1) (mkLink 2 2 4 2 2) (λ _ _, ret tt) 10
                    ltac:(by_eval) ltac:(by_eval)
                    ltac:(unfold ring; cbn [chain]; solve_chain)
                    ltac:(by_eval) ltac:(by_eval) ltac:(lia))
             path3 (mkNode 1 2 (Some 11)) 3).
    + reflexivity.
    + by_eval.
    + by_eval.
    + unfold ring. cbn [chain]. solve_chain.
Defined.

Lemma delete_subtree_keeps_indices_witness :
  ∃ s',
    delete_subtree 10 (mkSubtree 3) tree5_at_b = Ok tt s' ∧
    links_indexed s' ∧ nodes_indexed s' ∧ edges_indexed s' ∧
    (∀ p, p ∈ nodes_ s' ↔ p ∈ [1; 2; 3; 4; 5] ∧ p ∉ [2; 4; 5]) ∧
    hn s' !! 4 = None.
Proof.
  destruct (delete_subtree_keeps_indices tree5_at_b 3 [3; 7; 8] 2 [2] 10)
    as (s' & Hrun & Hil & Hin & Hie & Hn & _ & _ & Hgone & _).
  - solve_indexed.
  - solve_indexed.
  - solve_indexed.
  - by_eval.
  - apply (visits_cons _ 3 [] [4; 5] [7; 8]).
    + unfold ring. cbn [chain]. solve_chain.
    + repeat (constructor; [eexists; split; vm_compute; reflexivity|]).
      constructor.
    + apply (visits_cons _ 7 [8] [] []).
      * unfold ring. cbn [chain]. solve_chain.
      * constructor.
      * apply (visits_cons _ 8 [] [] []).
        -- unfold ring. cbn [chain]. solve_chain.
        -- constructor.
        -- constructor.
  - repeat constructor; first [live_eval | by_eval].
  - by_decide.
  - by_decide.
  - by_decide.
  - unfold ring. cbn [chain]. solve_chain.
  - by_eval.
  - live_eval.
  - cbn. lia.
  - cbn. lia.
  - exists s'. split; [exact Hrun|].
    split; [exact Hil|]. split; [exact Hin|]. split; [exact Hie|].
    split; [exact Hn|]. apply Hgone. clear. by_decide.
Defined.

